(** * SLATE tile engine: herk pipeline, gesv_mixed controller, heev stages

    A shallow embedding of three drivers of the library,

    - [internal::specialization::herk] and the public [slate::herk]
      (slate_herk.cc): the lookahead-pipelined rank-k update,
    - [gesv_mixed]: the mixed-precision iterative-refinement solver,
    - [heev] (src/heev.cc): the staged eigenvalue driver,

    and of the test drivers [test_getrf], [test_syr2k] and [test_gemm],
    together with the properties of their orchestration.  The numerical
    kernels the drivers call (getrf, getrs, gemm, the tile kernels, hb2st,
    sterf, ...) are external to these sources; they appear as the fields
    of a class of kernels and every theorem holds for all of them. *)

From stdpp Require Import base decidable option list gmap sets numbers sorting.
From Stdlib Require Import ZArith Lia Ascii.

Open Scope Z_scope.

(** ** Machine integers *)

(** [int] is 32 bits wide, [int64_t] 64 bits wide; both are two's
    complement.  [wrap w z] is the value a [w]-bit signed integer holds
    after [z] has been stored into it. *)
Definition wrap (w : Z) (z : Z) : Z :=
  (z + 2 ^ (w - 1)) mod 2 ^ w - 2 ^ (w - 1).

Definition int_wrap (z : Z) : Z := wrap 32 z.
Definition int64_wrap (z : Z) : Z := wrap 64 z.

Definition INT_MAX : Z := 2 ^ 31 - 1.
Definition INT_MIN : Z := - 2 ^ 31.
Definition INT64_MAX : Z := 2 ^ 63 - 1.

Definition in_int (z : Z) : Prop := INT_MIN <= z <= INT_MAX.

(** ** Options *)

(** [enum class Target]: the four execution strategies. *)
Inductive Target : Type := HostTask | HostNest | HostBatch | Devices.

#[global] Instance Target_eq_dec : EqDecision Target.
Proof. solve_decision. Defined.

(** [enum class Option]: the keys of the options map the drivers read. *)
Inductive Option : Type :=
| Lookahead
| OptTarget
| Tolerance
| MaxIterations
| UseFallbackSolver.

#[global] Instance Option_eq_dec : EqDecision Option.
Proof. solve_decision. Defined.

Definition Option_code (o : Option) : nat :=
  match o with
  | Lookahead => 0
  | OptTarget => 1
  | Tolerance => 2
  | MaxIterations => 3
  | UseFallbackSolver => 4
  end%nat.

Definition Option_of_code (n : nat) : Option :=
  match n with
  | 0 => Lookahead
  | 1 => OptTarget
  | 2 => Tolerance
  | 3 => MaxIterations
  | _ => UseFallbackSolver
  end%nat.

#[global] Instance Option_countable : Countable Option.
Proof.
  apply (inj_countable' Option_code Option_of_code).
  intros []; reflexivity.
Defined.

(** [Value] (later [OptionValue]): the union of an [int64_t] member [i_]
    and a [double] member [d_].  Both views are kept; [dbl] is the type
    standing for [double]. *)
Record Value (dbl : Type) : Type := mkValue { i_ : Z; d_ : dbl }.
Arguments mkValue {dbl} _ _.
Arguments i_ {dbl} _.
Arguments d_ {dbl} _.

(** [get_option<int64_t>( opts, key, defval )]. *)
Definition get_option_i {dbl} (opts : gmap Option (Value dbl)) (key : Option)
    (defval : Z) : Z :=
  match opts !! key with
  | Some v => i_ v
  | None => defval
  end.

(** [get_option<double>( opts, key, defval )]. *)
Definition get_option_d {dbl} (opts : gmap Option (Value dbl)) (key : Option)
    (defval : dbl) : dbl :=
  match opts !! key with
  | Some v => d_ v
  | None => defval
  end.

(** * gesv_mixed *)

Module GesvMixed.

(** The kernels [gesv_mixed] calls.  [MatHi] and [MatLo] are the tiled
    matrices in the high and the low precision, [real_hi] is
    [blas::real_type<scalar_hi>].  A routine that overwrites one of its
    arguments returns the new value of that argument. *)
Class Kernels : Type := {
  MatHi : Type;
  MatLo : Type;
  Pivots : Type;
  scalar_hi : Type;
  real_hi : Type;
  (* scalar_hi one_hi = 1.0, and its negation -one_hi *)
  one_hi : scalar_hi;
  neg_hi : scalar_hi -> scalar_hi;
  (* eps*std::sqrt(A.m()), the default tolerance *)
  default_tol : MatHi -> real_hi;
  (* Anorm * tol *)
  real_mul : real_hi -> real_hi -> real_hi;
  (* how the integer member of an option value reads as a Target *)
  target_of_value : Z -> Target;
  (* B.emptyLike() followed by insertLocalTiles *)
  emptyLike : MatHi -> MatHi;
  emptyLike_lo : MatHi -> MatLo;
  (* norm( Norm::Inf, A, opts ) *)
  norm_inf : MatHi -> real_hi;
  (* copy( src, dst, opts ): the new dst *)
  copy_hi_lo : MatHi -> MatLo -> MatLo;
  copy_lo_hi : MatLo -> MatHi -> MatHi;
  copy_hi_hi : MatHi -> MatHi -> MatHi;
  (* getrf( A, pivots, opts ): the factors, the pivots and info *)
  getrf_lo : MatLo -> Pivots -> MatLo * Pivots * Z;
  getrf_hi : MatHi -> Pivots -> MatHi * Pivots * Z;
  (* getrs( A, pivots, B, opts ): the new B *)
  getrs_lo : MatLo -> Pivots -> MatLo -> MatLo;
  getrs_hi : MatHi -> Pivots -> MatHi -> MatHi;
  (* gemm( alpha, A, B, beta, C, opts ): the new C *)
  gemm : scalar_hi -> MatHi -> MatHi -> scalar_hi -> MatHi -> MatHi;
  (* add( alpha, A, beta, B, opts ): the new B *)
  add : scalar_hi -> MatHi -> scalar_hi -> MatHi -> MatHi;
  (* colNorms( Norm::Max, A, values, opts ): the values written *)
  colNorms : MatHi -> list real_hi;
  (* internal::iterRefConverged( colnorms_R, colnorms_X, cte ) *)
  iterRefConverged : list real_hi -> list real_hi -> real_hi -> bool
}.

(** The kernel calls [gesv_mixed] makes, in the order it makes them. *)
Inductive Call : Type :=
| call_tileGetAndHoldAllOnDevices
| call_getrf_lo
| call_getrs_lo
| call_gemm_hi
| call_add_hi
| call_getrf_hi
| call_getrs_hi
| call_clearWorkspace.

#[global] Instance Call_eq_dec : EqDecision Call.
Proof. solve_decision. Defined.

Section Driver.
Context {K : Kernels}.

Definition Options : Type := gmap Option (Value real_hi).

(** What the refinement loop reads and writes: the iterate [X], the
    residual [R] and the low-precision workspace [X_lo]. *)
Record Iterate : Type := mkIterate {
  it_X : MatHi;
  it_R : MatHi;
  it_X_lo : MatLo
}.

(** "Compute R = B - A * X" and the two calls of colNorms, followed by
    the stopping test. *)
Definition residual (A B X R : MatHi) : MatHi :=
  gemm (neg_hi one_hi) A X one_hi (copy_hi_hi B R).

Definition converged_at (cte : real_hi) (d : Iterate) : bool :=
  iterRefConverged (colNorms (it_R d)) (colNorms (it_X d)) cte.

(** Lines 189-204: the low-precision solve and the first residual. *)
Definition first_solve (A B : MatHi) (A_lo : MatLo) (pivots : Pivots)
    (d : Iterate) : Iterate :=
  let X_lo := getrs_lo A_lo pivots (it_X_lo d) in
  let X := copy_lo_hi X_lo (it_X d) in
  mkIterate X (residual A B X (it_R d)) X_lo.

(** Lines 219-242: one pass of the refinement loop, up to the test. *)
Definition refine_pass (A B : MatHi) (A_lo : MatLo) (pivots : Pivots)
    (d : Iterate) : Iterate :=
  let X_lo := getrs_lo A_lo pivots (copy_hi_lo (it_R d) (it_X_lo d)) in
  let R := copy_lo_hi X_lo (it_R d) in
  let X := add one_hi R one_hi (it_X d) in
  mkIterate X (residual A B X R) X_lo.

(** The variables the loop of lines 218-253 updates. *)
Record LoopState : Type := mkLoopState {
  ls_iiter : Z;
  ls_data : Iterate;
  ls_iter : Z;
  ls_converged : bool;
  ls_calls : list Call
}.

(** [for (int iiter = 0; iiter < itermax && ! converged; ++iiter)].
    [iiter] is an [int] and [itermax] an [int64_t]; [fuel] bounds the
    number of passes. *)
Fixpoint refine_loop (A B : MatHi) (A_lo : MatLo) (pivots : Pivots)
    (cte : real_hi) (itermax : Z) (fuel : nat) (s : LoopState) : LoopState :=
  match fuel with
  | O => s
  | S fuel' =>
      if bool_decide (ls_iiter s < itermax) && negb (ls_converged s) then
        let d := refine_pass A B A_lo pivots (ls_data s) in
        let conv := converged_at cte d in
        refine_loop A B A_lo pivots cte itermax fuel'
          (mkLoopState
             (int_wrap (ls_iiter s + 1))
             d
             (if conv then int_wrap (ls_iiter s + 1) else ls_iter s)
             (if conv then true else ls_converged s)
             (ls_calls s ++ [call_getrs_lo; call_add_hi; call_gemm_hi]))
      else s
  end.

(** What the caller observes on return: the arguments passed by
    reference, the returned [info], and the calls that were made.
    [out_converged] is the final value of the local variable
    [converged]. *)
Record Outcome : Type := mkOutcome {
  out_A : MatHi;
  out_pivots : Pivots;
  out_X : MatHi;
  out_iter : Z;
  out_info : Z;
  out_converged : bool;
  out_calls : list Call
}.

Definition itermax_of (opts : Options) : Z :=
  get_option_i opts MaxIterations 30.

Definition use_fallback_of (opts : Options) : bool :=
  negb (get_option_i opts UseFallbackSolver 1 =? 0).

Definition target_of (opts : Options) : Target :=
  match opts !! OptTarget with
  | Some v => target_of_value (i_ v)
  | None => HostTask
  end.

Definition cte_of (A : MatHi) (opts : Options) : real_hi :=
  real_mul (norm_inf A) (get_option_d opts Tolerance (default_tol A)).

(** The workspace after lines 134-179: [X_lo] holds B in low precision. *)
Definition initial_iterate (B X : MatHi) : Iterate :=
  mkIterate X (emptyLike B) (copy_hi_lo B (emptyLike_lo X)).

Definition initial_A_lo (A : MatHi) : MatLo :=
  copy_hi_lo A (emptyLike_lo A).

(** The iterate the first test looks at (pass 0), and the one the test
    of pass [i] looks at. *)
Definition iterate_at (A B X : MatHi) (pivots : Pivots) (i : nat) : Iterate :=
  let '(A_lo, piv, _) := getrf_lo (initial_A_lo A) pivots in
  Nat.iter i (refine_pass A B A_lo piv)
    (first_solve A B A_lo piv (initial_iterate B X)).

(** Lines 146-167 and 280-285: with [Target::Devices], the three
    matrices are held on the devices first and their workspace is
    cleared last. *)
Definition hold_calls (target : Target) : list Call :=
  if decide (target = Devices)
  then replicate 3 call_tileGetAndHoldAllOnDevices else [].

Definition clear_calls (target : Target) : list Call :=
  if decide (target = Devices)
  then replicate 3 call_clearWorkspace else [].

(** Lines 114-254: the low-precision factorization and, when it
    succeeds, the first solve and the refinement loop.  Returns the
    pivots and [info] of [getrf( A_lo, ... )], the calls made so far and
    the loop variables. *)
Definition refinement (A : MatHi) (pivots : Pivots) (B X : MatHi)
    (opts : Options) : Pivots * Z * LoopState :=
  let itermax := itermax_of opts in
  let calls0 := hold_calls (target_of opts) in
  let cte := cte_of A opts in
  let d0 := initial_iterate B X in
  let '(A_lo, pivots1, info) := getrf_lo (initial_A_lo A) pivots in
  let calls1 := calls0 ++ [call_getrf_lo] in
  (* if (info != 0) { iter = -3; } else { ... } *)
  if bool_decide (info ≠ 0) then
    (pivots1, info, mkLoopState 0 d0 (int_wrap (-3)) false calls1)
  else
    let d1 := first_solve A B A_lo pivots1 d0 in
    let conv := converged_at cte d1 in
    (pivots1, info,
     refine_loop A B A_lo pivots1 cte itermax (Z.to_nat itermax)
       (mkLoopState 0 d1 0 conv (calls1 ++ [call_getrs_lo; call_gemm_hi]))).

(** Lines 256-289: the fallback and the return. *)
Definition gesv_mixed (A : MatHi) (pivots : Pivots) (B X : MatHi)
    (opts : Options) : Outcome :=
  let itermax := itermax_of opts in
  let use_fallback := use_fallback_of opts in
  let '(pivots1, info1, s) := refinement A pivots B X opts in
  (* if (! converged) { if (info == 0) { iter = -itermax - 1; } ... } *)
  let iter2 :=
    if negb (ls_converged s) && bool_decide (info1 = 0)
    then int_wrap (- itermax - 1) else ls_iter s in
  let '(A3, pivots3, info3, X3, calls3) :=
    if negb (ls_converged s) && use_fallback then
      let '(A_f, pivots_f, info_f) := getrf_hi A pivots1 in
      if bool_decide (info_f = 0) then
        (A_f, pivots_f, info_f,
         getrs_hi A_f pivots_f (copy_hi_hi B (it_X (ls_data s))),
         ls_calls s ++ [call_getrf_hi; call_getrs_hi])
      else
        (A_f, pivots_f, info_f, it_X (ls_data s),
         ls_calls s ++ [call_getrf_hi])
    else (A, pivots1, info1, it_X (ls_data s), ls_calls s) in
  let calls4 := calls3 ++ clear_calls (target_of opts) in
  mkOutcome A3 pivots3 X3 iter2 info3 (ls_converged s) calls4.

End Driver.

(** A small instance of the kernels for running the driver: 1-by-1
    matrices over the integers, where the low precision keeps multiples
    of 4 only, and the stopping test compares in hundredths. *)
Definition toy_kernels : Kernels := {|
  MatHi := Z; MatLo := Z; Pivots := Z; scalar_hi := Z; real_hi := Z;
  one_hi := 1;
  neg_hi := Z.opp;
  default_tol := fun _ => 1;
  real_mul := Z.mul;
  target_of_value := fun z => if z =? 68 then Devices else HostTask;
  emptyLike := fun _ => 0;
  emptyLike_lo := fun _ => 0;
  norm_inf := Z.abs;
  copy_hi_lo := fun src _ => 4 * (src / 4);
  copy_lo_hi := fun src _ => src;
  copy_hi_hi := fun src _ => src;
  getrf_lo := fun a _ => (a, 1, if a =? 0 then 1 else 0);
  getrf_hi := fun a _ => (2 * a, 2, if a =? 0 then 1 else 0);
  getrs_lo := fun a _ b => b / a;
  getrs_hi := fun f _ b => b / (f / 2);
  gemm := fun alpha a x beta r => alpha * a * x + beta * r;
  add := fun alpha r beta x => alpha * r + beta * x;
  colNorms := fun m => [Z.abs m];
  iterRefConverged := fun cr cx cte =>
    forallb (fun rx => fst rx * 100 <? snd rx * cte) (zip cr cx)
|}.

(** An options map with the given integer entries. *)
Definition toy_opts (l : list (Option * Z)) : gmap Option (Value Z) :=
  list_to_map (map (fun kv => (fst kv, mkValue (snd kv) (snd kv))) l).

(** ** Properties of gesv_mixed *)

Lemma int_wrap_id z : in_int z -> int_wrap z = z.
Proof.
  unfold in_int, INT_MIN, INT_MAX, int_wrap, wrap. intros Hz.
  rewrite Z.mod_small; lia.
Qed.

Section Properties.
Context {K : Kernels}.
Implicit Types (A B X : MatHi) (opts : Options) (s : LoopState).

(** The loop does nothing once [iiter] has reached [itermax]. *)
Lemma refine_loop_done A B A_lo piv cte itermax fuel s :
  itermax <= ls_iiter s ->
  refine_loop A B A_lo piv cte itermax fuel s = s.
Proof.
  intros Hle. destruct fuel as [|fuel]; simpl; [done|].
  rewrite bool_decide_eq_false_2 by lia. done.
Qed.

(** The loop does nothing once [converged] is set. *)
Lemma refine_loop_converged A B A_lo piv cte itermax fuel s :
  ls_converged s = true ->
  refine_loop A B A_lo piv cte itermax fuel s = s.
Proof.
  intros Hc. destruct fuel as [|fuel]; simpl; [done|].
  rewrite Hc, andb_false_r. done.
Qed.

(** The calls of [n] passes. *)
Definition pass_calls (n : nat) : list Call :=
  concat (replicate n [call_getrs_lo; call_add_hi; call_gemm_hi]).

Lemma pass_calls_S n :
  [call_getrs_lo; call_add_hi; call_gemm_hi] ++ pass_calls n
  = pass_calls (S n).
Proof. reflexivity. Qed.

(** Passes that all fail the test run until [iiter] reaches [itermax]. *)
Lemma refine_loop_exhausts A B A_lo piv cte itermax n : forall fuel s,
  ls_converged s = false ->
  0 <= ls_iiter s ->
  itermax = ls_iiter s + Z.of_nat n ->
  itermax <= INT_MAX ->
  (n <= fuel)%nat ->
  (forall j, (1 <= j <= n)%nat ->
     converged_at cte (Nat.iter j (refine_pass A B A_lo piv) (ls_data s))
     = false) ->
  refine_loop A B A_lo piv cte itermax fuel s
  = mkLoopState itermax (Nat.iter n (refine_pass A B A_lo piv) (ls_data s))
      (ls_iter s) false (ls_calls s ++ pass_calls n).
Proof.
  induction n as [|n IH]; intros fuel s Hc H0 Hmax Hint Hfuel Hfail.
  - rewrite refine_loop_done by lia. destruct s; simpl in *.
    rewrite app_nil_r. f_equal; [lia | done].
  - destruct fuel as [|fuel]; [lia|]. simpl refine_loop.
    rewrite bool_decide_eq_true_2 by lia. rewrite Hc. simpl andb. cbv iota.
    assert (Hw : int_wrap (ls_iiter s + 1) = ls_iiter s + 1).
    { apply int_wrap_id. unfold in_int, INT_MIN, INT_MAX in *. lia. }
    rewrite Hw.
    assert (H1 : converged_at cte (refine_pass A B A_lo piv (ls_data s)) = false).
    { apply (Hfail 1%nat). lia. }
    rewrite H1. rewrite IH; simpl; try lia; try done.
    + rewrite <- Nat.iter_succ_r, <- app_assoc. reflexivity.
    + intros j Hj. rewrite <- Nat.iter_succ_r. apply Hfail. lia.
Qed.

(** Passes that fail the test followed by one that passes it: the loop
    stops there, with [iter] the number of that pass. *)
Lemma refine_loop_converges A B A_lo piv cte itermax n : forall fuel s,
  ls_converged s = false ->
  0 <= ls_iiter s ->
  ls_iiter s + Z.of_nat (S n) <= itermax ->
  ls_iiter s + Z.of_nat (S n) <= INT_MAX ->
  (S n <= fuel)%nat ->
  (forall j, (1 <= j <= n)%nat ->
     converged_at cte (Nat.iter j (refine_pass A B A_lo piv) (ls_data s))
     = false) ->
  converged_at cte (Nat.iter (S n) (refine_pass A B A_lo piv) (ls_data s))
  = true ->
  refine_loop A B A_lo piv cte itermax fuel s
  = mkLoopState (ls_iiter s + Z.of_nat (S n))
      (Nat.iter (S n) (refine_pass A B A_lo piv) (ls_data s))
      (ls_iiter s + Z.of_nat (S n)) true (ls_calls s ++ pass_calls (S n)).
Proof.
  induction n as [|n IH]; intros fuel s Hc H0 Hmax Hint Hfuel Hfail Hok.
  - destruct fuel as [|fuel]; [lia|]. simpl refine_loop.
    rewrite bool_decide_eq_true_2 by lia. rewrite Hc. simpl andb. cbv iota.
    rewrite int_wrap_id by (unfold in_int, INT_MIN, INT_MAX in *; lia).
    simpl in Hok. rewrite Hok.
    rewrite refine_loop_converged by done. simpl. f_equal; lia.
  - destruct fuel as [|fuel]; [lia|]. simpl refine_loop.
    rewrite bool_decide_eq_true_2 by lia. rewrite Hc. simpl andb. cbv iota.
    rewrite int_wrap_id by (unfold in_int, INT_MIN, INT_MAX in *; lia).
    assert (H1 : converged_at cte (refine_pass A B A_lo piv (ls_data s)) = false).
    { apply (Hfail 1%nat). lia. }
    rewrite H1. rewrite IH; simpl ls_iiter; simpl ls_data; simpl ls_calls;
      simpl ls_converged; try lia; try done.
    + rewrite <- !Nat.iter_succ_r, <- app_assoc, pass_calls_S.
      f_equal; lia.
    + intros j Hj. rewrite <- Nat.iter_succ_r. apply Hfail. lia.
    + rewrite <- Nat.iter_succ_r. done.
Qed.

(** The loop only ever adds the calls of whole passes. *)
Lemma refine_loop_calls A B A_lo piv cte itermax : forall fuel s,
  exists n, ls_calls (refine_loop A B A_lo piv cte itermax fuel s)
            = ls_calls s ++ pass_calls n.
Proof.
  induction fuel as [|fuel IH]; intros s; simpl.
  - exists 0%nat. by rewrite app_nil_r.
  - destruct (bool_decide (ls_iiter s < itermax) && negb (ls_converged s)).
    + edestruct IH as [n Hn]. rewrite Hn. simpl. exists (S n).
      by rewrite <- app_assoc.
    + exists 0%nat. by rewrite app_nil_r.
Qed.

Lemma pass_calls_members n c :
  c ∈ pass_calls n -> c = call_getrs_lo \/ c = call_add_hi \/ c = call_gemm_hi.
Proof.
  induction n as [|n IH]; unfold pass_calls; simpl.
  - intros H. by apply elem_of_nil in H.
  - rewrite !elem_of_cons. fold (pass_calls n). tauto.
Qed.

(** Inside the loop [iter] only receives pass numbers, which are
    positive as long as [iiter + 1] does not overflow. *)
Lemma refine_loop_iter_nonneg A B A_lo piv cte itermax : forall fuel s,
  itermax <= INT_MAX -> 0 <= ls_iiter s -> 0 <= ls_iter s ->
  0 <= ls_iter (refine_loop A B A_lo piv cte itermax fuel s).
Proof.
  induction fuel as [|fuel IH]; intros s Hmax Hi Hit; simpl; [done|].
  destruct (bool_decide (ls_iiter s < itermax)) eqn:Hlt; simpl; [|done].
  apply bool_decide_eq_true_1 in Hlt.
  destruct (ls_converged s); simpl; [done|].
  assert (Hw : int_wrap (ls_iiter s + 1) = ls_iiter s + 1).
  { apply int_wrap_id. unfold in_int, INT_MIN, INT_MAX in *. lia. }
  apply IH; simpl; rewrite ?Hw; try lia.
  destruct (converged_at _ _); lia.
Qed.

(** The fuel [Z.to_nat itermax] is enough: the loop is left because its
    condition fails, not because the fuel runs out. *)
Lemma refine_loop_exits A B A_lo piv cte itermax : forall fuel s,
  itermax <= INT_MAX -> 0 <= ls_iiter s ->
  (Z.to_nat (itermax - ls_iiter s) <= fuel)%nat ->
  let s' := refine_loop A B A_lo piv cte itermax fuel s in
  itermax <= ls_iiter s' \/ ls_converged s' = true.
Proof.
  induction fuel as [|fuel IH]; intros s Hmax Hi Hfuel; simpl.
  - left. lia.
  - destruct (bool_decide (ls_iiter s < itermax)) eqn:Hlt; simpl.
    + apply bool_decide_eq_true_1 in Hlt.
      destruct (ls_converged s) eqn:Hc; simpl; [by right|].
      assert (Hw : int_wrap (ls_iiter s + 1) = ls_iiter s + 1).
      { apply int_wrap_id. unfold in_int, INT_MIN, INT_MAX in *. lia. }
      apply IH; simpl; rewrite ?Hw; lia.
    + apply bool_decide_eq_false_1 in Hlt. left. lia.
Qed.

(** *** The outcome in terms of the refinement phase *)

Lemma gesv_mixed_out_iter A pivots B X opts :
  out_iter (gesv_mixed A pivots B X opts)
  = let '(_, info1, s) := refinement A pivots B X opts in
    if negb (ls_converged s) && bool_decide (info1 = 0)
    then int_wrap (- itermax_of opts - 1) else ls_iter s.
Proof.
  unfold gesv_mixed. destruct (refinement A pivots B X opts) as [[p i] s].
  destruct (negb (ls_converged s) && use_fallback_of opts);
    [destruct (getrf_hi A p) as [[Af pf] inf]; destruct (bool_decide (inf = 0))|];
    reflexivity.
Qed.

Lemma gesv_mixed_out_converged A pivots B X opts :
  out_converged (gesv_mixed A pivots B X opts)
  = ls_converged (refinement A pivots B X opts).2.
Proof.
  unfold gesv_mixed. destruct (refinement A pivots B X opts) as [[p i] s].
  destruct (negb (ls_converged s) && use_fallback_of opts);
    [destruct (getrf_hi A p) as [[Af pf] inf]; destruct (bool_decide (inf = 0))|];
    reflexivity.
Qed.

(** Without the fallback, the caller gets back what the refinement
    phase left. *)
Lemma gesv_mixed_no_fallback A pivots B X opts :
  let '(pivots1, info1, s) := refinement A pivots B X opts in
  negb (ls_converged s) && use_fallback_of opts = false ->
  let r := gesv_mixed A pivots B X opts in
  out_A r = A /\ out_pivots r = pivots1 /\ out_info r = info1 /\
  out_X r = it_X (ls_data s) /\
  out_calls r = ls_calls s ++ clear_calls (target_of opts).
Proof.
  unfold gesv_mixed. destruct (refinement A pivots B X opts) as [[p i] s].
  intros ->. simpl. done.
Qed.

(** With the fallback, the caller gets back what [getrf( A, ... )] and,
    when it succeeds, [getrs( A, ... )] left. *)
Lemma gesv_mixed_fallback A pivots B X opts :
  let '(pivots1, info1, s) := refinement A pivots B X opts in
  negb (ls_converged s) && use_fallback_of opts = true ->
  let r := gesv_mixed A pivots B X opts in
  let '(A_f, pivots_f, info_f) := getrf_hi A pivots1 in
  out_A r = A_f /\ out_pivots r = pivots_f /\ out_info r = info_f /\
  out_X r = (if bool_decide (info_f = 0)
             then getrs_hi A_f pivots_f (copy_hi_hi B (it_X (ls_data s)))
             else it_X (ls_data s)) /\
  out_calls r = ls_calls s ++ [call_getrf_hi]
                ++ (if bool_decide (info_f = 0) then [call_getrs_hi] else [])
                ++ clear_calls (target_of opts).
Proof.
  unfold gesv_mixed. destruct (refinement A pivots B X opts) as [[p i] s].
  intros ->. destruct (getrf_hi A p) as [[Af pf] inf].
  destruct (bool_decide (inf = 0)); simpl; rewrite <- ?app_assoc; done.
Qed.

(** The refinement phase when the low-precision factorization fails. *)
Lemma refinement_singular A pivots B X opts :
  (getrf_lo (initial_A_lo A) pivots).2 ≠ 0 ->
  refinement A pivots B X opts
  = ((getrf_lo (initial_A_lo A) pivots).1.2,
     (getrf_lo (initial_A_lo A) pivots).2,
     mkLoopState 0 (initial_iterate B X) (-3) false
       (hold_calls (target_of opts) ++ [call_getrf_lo])).
Proof.
  unfold refinement. destruct (getrf_lo (initial_A_lo A) pivots) as [[Al p] i].
  simpl. intros Hi. rewrite bool_decide_eq_true_2 by done. reflexivity.
Qed.

(** The refinement phase when it succeeds: the loop, started on the
    first solve. *)
Lemma refinement_regular A pivots B X opts :
  (getrf_lo (initial_A_lo A) pivots).2 = 0 ->
  let '(A_lo, pivots1, _) := getrf_lo (initial_A_lo A) pivots in
  refinement A pivots B X opts
  = (pivots1, 0,
     refine_loop A B A_lo pivots1 (cte_of A opts) (itermax_of opts)
       (Z.to_nat (itermax_of opts))
       (mkLoopState 0 (iterate_at A B X pivots 0) 0
          (converged_at (cte_of A opts) (iterate_at A B X pivots 0))
          (hold_calls (target_of opts)
             ++ [call_getrf_lo; call_getrs_lo; call_gemm_hi]))).
Proof.
  unfold refinement, iterate_at.
  destruct (getrf_lo (initial_A_lo A) pivots) as [[Al p] i].
  simpl. intros ->. rewrite bool_decide_eq_false_2 by (intros H; by apply H).
  rewrite <- app_assoc. reflexivity.
Qed.

Lemma iterate_at_iter A B X pivots (n : nat) :
  iterate_at A B X pivots n
  = Nat.iter n
      (refine_pass A B (getrf_lo (initial_A_lo A) pivots).1.1
         (getrf_lo (initial_A_lo A) pivots).1.2)
      (iterate_at A B X pivots 0).
Proof.
  unfold iterate_at.
  destruct (getrf_lo (initial_A_lo A) pivots) as [[Al p] i]. reflexivity.
Qed.

(** *** The iteration count *)

(** C2.  When the low-precision factorization succeeds: if the stopping
    test holds at the first check, [iter] is 0; if it first holds in
    pass [i] (counted from 1, [i <= itermax]), [iter] is [i]; and if it
    holds neither at the first check nor in any of the [itermax] passes,
    [iter] is [-(itermax+1)].  [iter] is an [int]: the pass number and
    [itermax] are taken in its range. *)
Theorem gesv_mixed_iteration_count A pivots B X opts :
  let r := gesv_mixed A pivots B X opts in
  let itermax := itermax_of opts in
  let conv := fun i : nat =>
    converged_at (cte_of A opts) (iterate_at A B X pivots i) in
  (getrf_lo (initial_A_lo A) pivots).2 = 0 ->
  (conv 0%nat = true -> out_iter r = 0 /\ out_converged r = true)
  /\ (forall i : nat,
        (1 <= i)%nat -> Z.of_nat i <= itermax -> Z.of_nat i <= INT_MAX ->
        (forall j, (j < i)%nat -> conv j = false) -> conv i = true ->
        out_iter r = Z.of_nat i /\ out_converged r = true)
  /\ (in_int itermax ->
      (forall j : nat, Z.of_nat j <= Z.max 0 itermax -> conv j = false) ->
      out_iter r = - (itermax + 1) /\ out_converged r = false).
Proof.
  intros r itermax conv Hinfo.
  pose proof (refinement_regular A pivots B X opts Hinfo) as Hreg.
  pose proof (iterate_at_iter A B X pivots) as Hit.
  subst r. rewrite gesv_mixed_out_iter, gesv_mixed_out_converged.
  destruct (getrf_lo (initial_A_lo A) pivots) as [[Al p] i0].
  simpl in Hinfo, Hit. subst i0. rewrite Hreg. clear Hreg.
  fold itermax. fold (conv 0%nat).
  split; [|split].
  - intros H0. rewrite refine_loop_converged by done. simpl.
    rewrite H0. done.
  - intros i Hi Hle Hint Hfail Hok.
    destruct i as [|n]; [lia|].
    rewrite (refine_loop_converges _ _ _ _ _ _ n); simpl ls_iiter;
      simpl ls_data; simpl ls_converged; try lia.
    + simpl. split; [lia | done].
    + apply Hfail. lia.
    + intros j Hj. rewrite <- Hit. apply Hfail. lia.
    + rewrite <- Hit. exact Hok.
  - intros Hint Hfail.
    assert (H0 : conv 0%nat = false) by (apply Hfail; lia).
    assert (Hw : int_wrap (- itermax - 1) = - (itermax + 1)).
    { rewrite int_wrap_id; [lia|]. unfold in_int, INT_MIN, INT_MAX in *. lia. }
    destruct (Z_lt_le_dec itermax 0) as [Hneg|Hpos].
    + rewrite refine_loop_done by (simpl; lia). simpl.
      rewrite H0. simpl. done.
    + rewrite (refine_loop_exhausts _ _ _ _ _ _ (Z.to_nat itermax));
        simpl ls_iiter; simpl ls_data; simpl ls_converged;
        try (unfold in_int in Hint; lia); try done.
      intros j Hj. rewrite <- Hit. apply Hfail. lia.
Qed.

(** *** A singular low-precision factorization *)

(** C3.  When [getrf( A_lo, ... )] returns a nonzero [info], [iter] is
    -3, no low-precision solve and no refinement pass is made, and with
    the fallback enabled the full-precision [getrf] follows at once,
    with [getrs] after it when that factorization succeeds. *)
Theorem gesv_mixed_singular_low A pivots B X opts :
  let r := gesv_mixed A pivots B X opts in
  let '(_, pivots1, info1) := getrf_lo (initial_A_lo A) pivots in
  let '(A_f, pivots_f, info_f) := getrf_hi A pivots1 in
  info1 ≠ 0 ->
  out_iter r = -3
  /\ (call_getrs_lo ∉ out_calls r)
  /\ (call_add_hi ∉ out_calls r)
  /\ (call_gemm_hi ∉ out_calls r)
  /\ (use_fallback_of opts = true ->
      out_calls r
      = hold_calls (target_of opts) ++ [call_getrf_lo; call_getrf_hi]
        ++ (if bool_decide (info_f = 0) then [call_getrs_hi] else [])
        ++ clear_calls (target_of opts)
      /\ out_info r = info_f /\ out_A r = A_f /\ out_pivots r = pivots_f)
  /\ (use_fallback_of opts = false ->
      out_calls r
      = hold_calls (target_of opts) ++ [call_getrf_lo]
        ++ clear_calls (target_of opts)
      /\ out_info r = info1 /\ out_A r = A /\ out_pivots r = pivots1).
Proof.
  intros r.
  pose proof (refinement_singular A pivots B X opts) as Hs.
  pose proof (gesv_mixed_fallback A pivots B X opts) as Hf.
  pose proof (gesv_mixed_no_fallback A pivots B X opts) as Hn.
  pose proof (gesv_mixed_out_iter A pivots B X opts) as Hi.
  destruct (getrf_lo (initial_A_lo A) pivots) as [[Al p] i1]. simpl in Hs.
  destruct (getrf_hi A p) as [[Af pf] inf] eqn:Ehi.
  intros Hne. rewrite (Hs Hne) in Hf, Hn, Hi. rewrite Ehi in Hf.
  simpl in Hf, Hn, Hi. fold r in Hf, Hn, Hi.
  rewrite bool_decide_eq_false_2 in Hi by done.
  assert (Hcalls : forall c, c ∈ out_calls r ->
            c = call_tileGetAndHoldAllOnDevices \/ c = call_getrf_lo \/
            c = call_getrf_hi \/ c = call_getrs_hi \/ c = call_clearWorkspace).
  { intros c. destruct (use_fallback_of opts).
    - destruct (Hf eq_refl) as (_ & _ & _ & _ & ->).
      unfold hold_calls, clear_calls.
      destruct (decide (target_of opts = Devices)), (bool_decide (inf = 0));
        simpl; rewrite ?elem_of_cons, ?elem_of_nil; tauto.
    - destruct (Hn eq_refl) as (_ & _ & _ & _ & ->).
      unfold hold_calls, clear_calls.
      destruct (decide (target_of opts = Devices));
        simpl; rewrite ?elem_of_cons, ?elem_of_nil; tauto. }
  split; [exact Hi|].
  split; [intros H; destruct (Hcalls _ H) as [|[|[|[|]]]]; discriminate|].
  split; [intros H; destruct (Hcalls _ H) as [|[|[|[|]]]]; discriminate|].
  split; [intros H; destruct (Hcalls _ H) as [|[|[|[|]]]]; discriminate|].
  split.
  - intros Hu. rewrite Hu in Hf. destruct (Hf eq_refl) as (? & ? & ? & ? & ->).
    rewrite <- !app_assoc. done.
  - intros Hu. rewrite Hu in Hn. destruct (Hn eq_refl) as (? & ? & ? & ? & ->).
    rewrite <- !app_assoc. done.
Qed.

(** *** The returned status *)

(** The reading of C4 as it stands: a positive status is always the
    [info] of the full-precision [getrf], which was called, and no
    full-precision solve was made. *)
Definition positive_status_is_full_precision A pivots B X opts : Prop :=
  let r := gesv_mixed A pivots B X opts in
  0 < out_info r ->
  call_getrf_hi ∈ out_calls r
  /\ out_info r
     = (getrf_hi A (getrf_lo (initial_A_lo A) pivots).1.2).2
  /\ (call_getrs_hi ∉ out_calls r).

(** Calls of the refinement phase are low-precision ones. *)
Lemma refinement_calls A pivots B X opts c :
  c ∈ ls_calls (refinement A pivots B X opts).2 ->
  c ≠ call_getrf_hi /\ c ≠ call_getrs_hi.
Proof.
  unfold refinement.
  destruct (getrf_lo (initial_A_lo A) pivots) as [[Al p] i].
  assert (Hh : c ∈ hold_calls (target_of opts) ->
               c = call_tileGetAndHoldAllOnDevices).
  { unfold hold_calls. destruct (decide (target_of opts = Devices)); simpl;
      rewrite ?elem_of_cons, ?elem_of_nil; tauto. }
  destruct (bool_decide (i ≠ 0)); simpl.
  - rewrite elem_of_app, elem_of_cons, elem_of_nil.
    intros [H | [-> | []]]; [apply Hh in H; subst c|]; done.
  - match goal with |- context [refine_loop ?a ?b ?c ?d ?e ?f ?g ?s] =>
      destruct (refine_loop_calls a b c d e f g s) as [n ->] end.
    simpl. rewrite !elem_of_app, !elem_of_cons, elem_of_nil.
    intros [[[H | [-> | []]]|[->|[->|[]]]]|H]; try done.
    + apply Hh in H; subst c; done.
    + apply pass_calls_members in H. destruct H as [-> | [-> | ->]]; done.
Qed.

Lemma clear_calls_members target c :
  c ∈ clear_calls target -> c = call_clearWorkspace.
Proof.
  unfold clear_calls. destruct (decide (target = Devices)); simpl;
    rewrite ?elem_of_cons, ?elem_of_nil; tauto.
Qed.

(** The refinement phase never converges on a failed factorization. *)
Lemma refinement_converged_info A pivots B X opts :
  ls_converged (refinement A pivots B X opts).2 = true ->
  (refinement A pivots B X opts).1.2 = 0
  /\ (getrf_lo (initial_A_lo A) pivots).2 = 0.
Proof.
  unfold refinement.
  destruct (getrf_lo (initial_A_lo A) pivots) as [[Al p] i].
  destruct (bool_decide (i ≠ 0)) eqn:Hi; simpl; [done|].
  apply bool_decide_eq_false_1 in Hi. intros _.
  destruct (decide (i = 0)); done.
Qed.

Lemma refinement_info A pivots B X opts :
  (refinement A pivots B X opts).1.2 = (getrf_lo (initial_A_lo A) pivots).2
  /\ (refinement A pivots B X opts).1.1
     = (getrf_lo (initial_A_lo A) pivots).1.2.
Proof.
  unfold refinement.
  destruct (getrf_lo (initial_A_lo A) pivots) as [[Al p] i].
  destruct (bool_decide (i ≠ 0)); done.
Qed.

(** C4, amended.  With the fallback enabled, a positive status is the
    [info] of the full-precision [getrf], and [getrs] was not called on
    its factors.  With the fallback disabled, the status is the [info]
    of the low-precision [getrf], no full-precision routine is called
    and [A] is as on entry. *)
Theorem gesv_mixed_status A pivots B X opts :
  let r := gesv_mixed A pivots B X opts in
  let info_lo := (getrf_lo (initial_A_lo A) pivots).2 in
  let pivots_lo := (getrf_lo (initial_A_lo A) pivots).1.2 in
  (use_fallback_of opts = true ->
   0 < out_info r ->
   call_getrf_hi ∈ out_calls r
   /\ out_info r = (getrf_hi A pivots_lo).2
   /\ (call_getrs_hi ∉ out_calls r)
   /\ out_converged r = false)
  /\ (use_fallback_of opts = false ->
      out_info r = info_lo
      /\ (call_getrf_hi ∉ out_calls r)
      /\ (call_getrs_hi ∉ out_calls r)
      /\ out_A r = A
      /\ (0 < out_info r -> out_iter r = -3)).
Proof.
  intros r info_lo pivots_lo.
  pose proof (gesv_mixed_fallback A pivots B X opts) as Hf.
  pose proof (gesv_mixed_no_fallback A pivots B X opts) as Hn.
  pose proof (gesv_mixed_out_iter A pivots B X opts) as Hi.
  pose proof (gesv_mixed_out_converged A pivots B X opts) as Hc.
  pose proof (refinement_calls A pivots B X opts) as Hcalls.
  pose proof (refinement_converged_info A pivots B X opts) as Hci.
  pose proof (refinement_info A pivots B X opts) as [Hinfo Hpiv].
  pose proof (refinement_singular A pivots B X opts) as Hsing.
  fold info_lo pivots_lo in Hinfo, Hpiv, Hci, Hsing. fold r in Hi, Hc.
  destruct (refinement A pivots B X opts) as [[p1 i1] s] eqn:Eref.
  simpl in *. subst p1 i1.
  split.
  - intros Hu Hpos. rewrite Hu, andb_true_r in Hf, Hn.
    destruct (ls_converged s) eqn:Econv; simpl in Hf, Hn.
    { destruct (Hn eq_refl) as (_ & _ & Hinf & _). fold r in Hinf.
      destruct (Hci eq_refl) as [H0 _]. lia. }
    specialize (Hf eq_refl). fold r in Hf.
    destruct (getrf_hi A pivots_lo) as [[Af pf] inf].
    destruct Hf as (_ & _ & Hinf & _ & Hcs). simpl.
    rewrite bool_decide_eq_false_2 in Hcs by lia.
    split; [|split; [done|split; [|done]]].
    + rewrite Hcs, elem_of_app, elem_of_cons. tauto.
    + rewrite Hcs. simpl. rewrite elem_of_app, elem_of_cons.
      intros [H | [H | H]]; try done.
      * apply Hcalls in H. tauto.
      * apply clear_calls_members in H. done.
  - intros Hu. rewrite Hu, andb_false_r in Hn.
    destruct (Hn eq_refl) as (HA & _ & Hinf & _ & Hcs). fold r in HA, Hinf, Hcs.
    split; [done|].
    assert (Hno : forall c, c = call_getrf_hi \/ c = call_getrs_hi ->
                            c ∉ out_calls r).
    { intros c Hcc. rewrite Hcs, elem_of_app. intros [H|H].
      - apply Hcalls in H. destruct Hcc as [-> | ->]; tauto.
      - apply clear_calls_members in H. destruct Hcc as [-> | ->]; done. }
    split; [apply Hno; tauto|]. split; [apply Hno; tauto|]. split; [done|].
    intros Hpos. rewrite Hinf in Hpos.
    assert (Hne : info_lo ≠ 0) by lia.
    specialize (Hsing Hne). apply (f_equal snd) in Hsing. simpl in Hsing.
    rewrite Hsing in Hi. simpl in Hi.
    rewrite bool_decide_eq_false_2 in Hi by done. exact Hi.
Qed.

(** *** What convergence leaves untouched *)

(** C10.  When the refinement converges, the status is 0, neither the
    full-precision [getrf] nor [getrs] is called, [A] is as on entry and
    the pivots are those of the low-precision factorization.  For
    [0 <= itermax <= INT_MAX], convergence is what "status 0 and
    [iter >= 0]" reports.  [A] is overwritten, by the factors of the
    full-precision [getrf], only when the refinement did not converge
    and the fallback is enabled. *)
Theorem gesv_mixed_converged_frame A pivots B X opts :
  let r := gesv_mixed A pivots B X opts in
  let pivots_lo := (getrf_lo (initial_A_lo A) pivots).1.2 in
  (out_converged r = true ->
   out_info r = 0
   /\ (call_getrf_hi ∉ out_calls r)
   /\ (call_getrs_hi ∉ out_calls r)
   /\ out_A r = A
   /\ out_pivots r = pivots_lo)
  /\ (0 <= itermax_of opts <= INT_MAX ->
      (out_info r = 0 /\ 0 <= out_iter r <-> out_converged r = true))
  /\ (out_A r ≠ A \/ call_getrf_hi ∈ out_calls r ->
      out_converged r = false
      /\ use_fallback_of opts = true
      /\ out_A r = (getrf_hi A pivots_lo).1.1
      /\ out_pivots r = (getrf_hi A pivots_lo).1.2
      /\ call_getrf_hi ∈ out_calls r).
Proof.
  intros r pivots_lo.
  pose proof (gesv_mixed_fallback A pivots B X opts) as Hf.
  pose proof (gesv_mixed_no_fallback A pivots B X opts) as Hn.
  pose proof (gesv_mixed_out_iter A pivots B X opts) as Hi.
  pose proof (gesv_mixed_out_converged A pivots B X opts) as Hc.
  pose proof (refinement_calls A pivots B X opts) as Hcalls.
  pose proof (refinement_converged_info A pivots B X opts) as Hci.
  pose proof (refinement_info A pivots B X opts) as [Hinfo Hpiv].
  pose proof (refinement_singular A pivots B X opts) as Hsing.
  pose proof (refinement_regular A pivots B X opts) as Hreg.
  fold pivots_lo in Hpiv. fold r in Hi, Hc.
  assert (Hno : forall calls, out_calls r = calls ++ clear_calls (target_of opts) ->
            (forall c, c ∈ calls -> c ≠ call_getrf_hi /\ c ≠ call_getrs_hi) ->
            (call_getrf_hi ∉ out_calls r) /\ (call_getrs_hi ∉ out_calls r)).
  { intros calls -> Hcs. split; rewrite elem_of_app; intros [H|H];
      try (apply Hcs in H; tauto); apply clear_calls_members in H; done. }
  destruct (refinement A pivots B X opts) as [[p1 i1] s] eqn:Eref.
  simpl in *. subst p1.
  split; [|split].
  - intros Hconv. rewrite Hc in Hconv. rewrite Hconv in Hn. simpl in Hn.
    destruct (Hn eq_refl) as (HA & Hp & Hinf & _ & Hcs).
    fold r in HA, Hp, Hinf, Hcs.
    destruct (Hci Hconv) as [-> _].
    destruct (Hno _ Hcs Hcalls). done.
  - intros Hmax. rewrite Hc. split.
    + intros [Hinf Hit]. destruct (ls_converged s) eqn:Econv; [done|].
      exfalso. simpl in Hi.
      destruct (decide ((getrf_lo (initial_A_lo A) pivots).2 = 0)) as [H0|H0].
      * rewrite <- Hinfo in H0. rewrite bool_decide_eq_true_2 in Hi by done.
        rewrite int_wrap_id in Hi
          by (unfold in_int, INT_MIN, INT_MAX in *; lia). lia.
      * specialize (Hsing H0). apply (f_equal snd) in Hsing.
        simpl in Hsing. rewrite Hsing in Hi.
        rewrite <- Hinfo in H0. rewrite bool_decide_eq_false_2 in Hi by done.
        simpl in Hi. lia.
    + intros Hconv. rewrite Hconv in Hn, Hi. simpl in Hn, Hi.
      destruct (Hn eq_refl) as (_ & _ & Hinf & _). fold r in Hinf.
      destruct (Hci Hconv) as [-> Hlo]. split; [done|].
      rewrite Hi. specialize (Hreg Hlo).
      destruct (getrf_lo (initial_A_lo A) pivots) as [[Al p] i0].
      apply (f_equal snd) in Hreg. simpl in Hreg. rewrite Hreg.
      apply refine_loop_iter_nonneg; simpl; lia.
  - intros Hch.
    destruct (negb (ls_converged s) && use_fallback_of opts) eqn:Efb.
    + apply andb_true_iff in Efb as [Hnc Hu].
      apply negb_true_iff in Hnc. rewrite Hc.
      specialize (Hf eq_refl). fold r in Hf.
      destruct (getrf_hi A pivots_lo) as [[Af pf] inf].
      destruct Hf as (HA & Hp & _ & _ & Hcs). simpl.
      repeat (split; [done|]). rewrite Hcs, elem_of_app, elem_of_cons. tauto.
    + exfalso. destruct (Hn eq_refl) as (HA & _ & _ & _ & Hcs).
      fold r in HA, Hcs. destruct (Hno _ Hcs Hcalls). tauto.
Qed.

(** *** The passes of a run *)

(** The loop from a state that has not converged: it makes the calls of
    [n] whole passes, on the iterates of these passes, and [n] is at
    most the number of passes left.  It stops either converged, with
    [iter] the number of the last pass, or with all the passes made and
    [iter] as it was. *)
Lemma refine_loop_trace A B A_lo piv cte itermax : forall fuel s,
  itermax <= INT_MAX -> 0 <= ls_iiter s -> ls_converged s = false ->
  (Z.to_nat (itermax - ls_iiter s) <= fuel)%nat ->
  let s' := refine_loop A B A_lo piv cte itermax fuel s in
  exists n : nat,
    ls_calls s' = ls_calls s ++ pass_calls n
    /\ ls_data s' = Nat.iter n (refine_pass A B A_lo piv) (ls_data s)
    /\ Z.of_nat n <= Z.max 0 (itermax - ls_iiter s)
    /\ (ls_converged s' = true ->
        ls_iter s' = ls_iiter s + Z.of_nat n /\ (1 <= n)%nat)
    /\ (ls_converged s' = false ->
        Z.of_nat n = Z.max 0 (itermax - ls_iiter s)
        /\ ls_iter s' = ls_iter s).
Proof.
  induction fuel as [|fuel IH]; intros s Hmax Hi Hc Hfuel; simpl.
  - exists 0%nat. rewrite app_nil_r. simpl.
    split; [done|]. split; [done|]. split; [lia|].
    split; [congruence|]. intros _. split; [lia|done].
  - destruct (bool_decide (ls_iiter s < itermax)) eqn:Hlt; simpl.
    + apply bool_decide_eq_true_1 in Hlt. rewrite Hc. simpl.
      assert (Hw : int_wrap (ls_iiter s + 1) = ls_iiter s + 1).
      { apply int_wrap_id. unfold in_int, INT_MIN, INT_MAX in *. lia. }
      rewrite Hw.
      destruct (converged_at cte (refine_pass A B A_lo piv (ls_data s)))
        eqn:Hconv.
      * rewrite refine_loop_converged by done. simpl. exists 1%nat.
        split; [by rewrite <- pass_calls_S, app_nil_r|].
        split; [done|]. split; [lia|]. split; [intros _; lia|done].
      * match goal with
        | |- context [refine_loop _ _ _ _ _ _ fuel ?s1] =>
            destruct (IH s1) as (n & Hcalls & Hdata & Hle & Ht & Hf);
              simpl; try lia; try done
        end.
        simpl in Hcalls, Hdata, Hle, Ht, Hf. exists (S n).
        split; [by rewrite Hcalls, <- app_assoc|].
        split; [by rewrite Hdata, Nat.iter_succ_r|]. split; [lia|].
        split; [intros H; destruct (Ht H); lia|].
        intros H; destruct (Hf H). split; [lia|done].
    + apply bool_decide_eq_false_1 in Hlt. exists 0%nat.
      rewrite app_nil_r. simpl.
      split; [done|]. split; [done|]. split; [lia|].
      split; [congruence|]. intros _. split; [lia|done].
Qed.

(** An iterate together with the residual [B - A * X] computed from it,
    on which the stopping test holds. *)
Definition passes_test A B (cte : real_hi) (d : Iterate) : Prop :=
  converged_at cte d = true
  /\ exists R0, it_R d = residual A B (it_X d) R0.

(** [converged] is only ever set on such an iterate. *)
Lemma refine_loop_passes_test A B A_lo piv cte itermax : forall fuel s,
  (ls_converged s = true -> passes_test A B cte (ls_data s)) ->
  let s' := refine_loop A B A_lo piv cte itermax fuel s in
  ls_converged s' = true -> passes_test A B cte (ls_data s').
Proof.
  induction fuel as [|fuel IH]; intros s Hs; simpl; [done|].
  destruct (bool_decide (ls_iiter s < itermax) && negb (ls_converged s))
    eqn:Hcond; [|done].
  apply andb_true_iff in Hcond as [_ Hc%negb_true_iff].
  apply IH. simpl.
  destruct (converged_at cte (refine_pass A B A_lo piv (ls_data s)))
    eqn:Hconv; [|congruence].
  intros _. split; [done|]. simpl. by eexists.
Qed.

(** The refinement phase after a successful low-precision
    factorization, as a number of passes. *)
Lemma refinement_trace A pivots B X opts :
  (getrf_lo (initial_A_lo A) pivots).2 = 0 ->
  itermax_of opts <= INT_MAX ->
  let s := (refinement A pivots B X opts).2 in
  exists n : nat,
    ls_calls s
    = hold_calls (target_of opts)
      ++ [call_getrf_lo; call_getrs_lo; call_gemm_hi] ++ pass_calls n
    /\ ls_data s = iterate_at A B X pivots n
    /\ Z.of_nat n <= Z.max 0 (itermax_of opts)
    /\ (ls_converged s = true -> ls_iter s = Z.of_nat n)
    /\ (ls_converged s = false ->
        Z.of_nat n = Z.max 0 (itermax_of opts)).
Proof.
  intros Hinfo Hmax.
  pose proof (refinement_regular A pivots B X opts Hinfo) as Hreg.
  pose proof (iterate_at_iter A B X pivots) as Hit.
  destruct (getrf_lo (initial_A_lo A) pivots) as [[Al p] i0].
  simpl in Hit. rewrite Hreg. simpl. clear Hreg.
  destruct (converged_at (cte_of A opts) (iterate_at A B X pivots 0)) eqn:H0.
  - rewrite refine_loop_converged by done. simpl. exists 0%nat.
    split; [done|]. split; [done|]. split; [lia|].
    split; [done|congruence].
  - match goal with
    | |- context [refine_loop ?a ?b ?c ?d ?e ?f ?g ?s1] =>
        destruct (refine_loop_trace a b c d e f g s1)
          as (n & Hcalls & Hdata & Hle & Ht & Hf); simpl; try lia; try done
    end.
    simpl in Hcalls, Hdata, Hle, Ht, Hf. exists n.
    rewrite Z.sub_0_r in *.
    split; [by rewrite Hcalls, <- app_assoc|].
    split; [by rewrite Hdata, Hit|]. split; [done|].
    split; [intros H; destruct (Ht H); lia|].
    intros H; by destruct (Hf H).
Qed.

(** The number of refinement passes in a list of calls: each pass makes
    one call of [add]. *)
Definition passes_made (calls : list Call) : nat :=
  length (filter (fun c => c = call_add_hi) calls).

Definition solves_lo (calls : list Call) : nat :=
  length (filter (fun c => c = call_getrs_lo) calls).

Lemma passes_made_pass_calls n :
  passes_made (pass_calls n) = n /\ solves_lo (pass_calls n) = n.
Proof.
  induction n as [|n [IH1 IH2]]; [done|].
  rewrite <- pass_calls_S. unfold passes_made, solves_lo in *.
  rewrite !filter_app, !length_app, IH1, IH2. done.
Qed.

(** The calls of a run and its number of passes, for every path through
    the routine. *)
Lemma gesv_mixed_trace A pivots B X opts :
  let r := gesv_mixed A pivots B X opts in
  let info_lo := (getrf_lo (initial_A_lo A) pivots).2 in
  let pivots_lo := (getrf_lo (initial_A_lo A) pivots).1.2 in
  let info_hi := (getrf_hi A pivots_lo).2 in
  itermax_of opts <= INT_MAX ->
  exists n : nat,
    Z.of_nat n <= Z.max 0 (itermax_of opts)
    /\ out_calls r
       = hold_calls (target_of opts) ++ [call_getrf_lo]
         ++ (if decide (info_lo = 0)
             then [call_getrs_lo; call_gemm_hi] ++ pass_calls n else [])
         ++ (if negb (out_converged r) && use_fallback_of opts
             then call_getrf_hi
                  :: (if decide (info_hi = 0) then [call_getrs_hi] else [])
             else [])
         ++ clear_calls (target_of opts)
    /\ (info_lo ≠ 0 -> n = 0%nat /\ out_converged r = false)
    /\ (out_converged r = true ->
        out_iter r = Z.of_nat n
        /\ out_X r = it_X (iterate_at A B X pivots n))
    /\ (info_lo = 0 -> out_converged r = false ->
        Z.of_nat n = Z.max 0 (itermax_of opts)).
Proof.
  intros r info_lo pivots_lo info_hi Hmax.
  pose proof (gesv_mixed_fallback A pivots B X opts) as Hf.
  pose proof (gesv_mixed_no_fallback A pivots B X opts) as Hn.
  pose proof (gesv_mixed_out_iter A pivots B X opts) as Hi.
  pose proof (gesv_mixed_out_converged A pivots B X opts) as Hc.
  pose proof (refinement_info A pivots B X opts) as [Hinfo Hpiv].
  pose proof (refinement_singular A pivots B X opts) as Hsing.
  pose proof (refinement_trace A pivots B X opts) as Htr.
  fold info_lo in Hinfo, Hsing, Htr. fold pivots_lo in Hpiv. fold r in Hi, Hc.
  assert (Hs : exists n : nat,
    Z.of_nat n <= Z.max 0 (itermax_of opts)
    /\ ls_calls (refinement A pivots B X opts).2
       = hold_calls (target_of opts) ++ [call_getrf_lo]
         ++ (if decide (info_lo = 0)
             then [call_getrs_lo; call_gemm_hi] ++ pass_calls n else [])
    /\ (info_lo ≠ 0 -> n = 0%nat
        /\ ls_converged (refinement A pivots B X opts).2 = false)
    /\ (ls_converged (refinement A pivots B X opts).2 = true ->
        ls_iter (refinement A pivots B X opts).2 = Z.of_nat n
        /\ ls_data (refinement A pivots B X opts).2
           = iterate_at A B X pivots n)
    /\ (info_lo = 0 ->
        ls_converged (refinement A pivots B X opts).2 = false ->
        Z.of_nat n = Z.max 0 (itermax_of opts))).
  { destruct (decide (info_lo = 0)) as [H0|H0].
    - destruct (Htr H0 Hmax) as (n & Hcalls & Hdata & Hle & Ht & Hfl).
      exists n. split; [done|]. split; [done|]. split; [done|].
      split; [intros H; split; [by apply Ht|done]|]. intros _. exact Hfl.
    - exists 0%nat. rewrite (Hsing H0). simpl.
      split; [lia|]. split; [done|]. split; [done|]. split; [done|done]. }
  destruct Hs as (n & Hle & Hcalls & Hsg & Hcv & Hnc). exists n.
  destruct (refinement A pivots B X opts) as [[p1 i1] s] eqn:Eref.
  simpl in *. subst p1 i1. rewrite Hc.
  split; [done|]. split; [|split; [done|split; [|done]]].
  - destruct (negb (ls_converged s) && use_fallback_of opts).
    + specialize (Hf eq_refl). fold r in Hf. subst info_hi.
      destruct (getrf_hi A pivots_lo) as [[Af pf] inf].
      destruct Hf as (_ & _ & _ & _ & Hcs). simpl. rewrite Hcs, Hcalls.
      destruct (decide (inf = 0)).
      * rewrite bool_decide_eq_true_2 by done. by rewrite <- !app_assoc.
      * rewrite bool_decide_eq_false_2 by done. by rewrite <- !app_assoc.
    + destruct (Hn eq_refl) as (_ & _ & _ & _ & Hcs). fold r in Hcs.
      rewrite Hcs, Hcalls, <- !app_assoc. done.
  - intros Hconv. rewrite Hconv in Hi, Hn. simpl in Hi, Hn.
    destruct (Hn eq_refl) as (_ & _ & _ & HX & _). fold r in HX.
    destruct (Hcv Hconv) as [Hit Hdata]. rewrite Hi, HX, Hit, Hdata. done.
Qed.

(** The calls of [gesv_mixed], on every path through the routine and
    for [MaxIterations] within the range of [int]: with
    [Target::Devices] the three matrices are held on the devices first
    and their workspace is cleared last, with any other target neither
    is done; in between come the low-precision factorization, then,
    when it succeeds, the first solve and residual and [n] whole passes
    (solve, update, residual) with [n <= max(0, itermax)], then, when
    the refinement has not converged and the fallback is enabled, the
    full-precision factorization, with the solve after it when it
    succeeds. *)
Theorem gesv_mixed_call_sequence A pivots B X opts :
  let r := gesv_mixed A pivots B X opts in
  let info_lo := (getrf_lo (initial_A_lo A) pivots).2 in
  let pivots_lo := (getrf_lo (initial_A_lo A) pivots).1.2 in
  let info_hi := (getrf_hi A pivots_lo).2 in
  itermax_of opts <= INT_MAX ->
  exists n : nat,
    Z.of_nat n <= Z.max 0 (itermax_of opts)
    /\ out_calls r
       = hold_calls (target_of opts) ++ [call_getrf_lo]
         ++ (if decide (info_lo = 0)
             then [call_getrs_lo; call_gemm_hi] ++ pass_calls n else [])
         ++ (if negb (out_converged r) && use_fallback_of opts
             then call_getrf_hi
                  :: (if decide (info_hi = 0) then [call_getrs_hi] else [])
             else [])
         ++ clear_calls (target_of opts).
Proof.
  intros r info_lo pivots_lo info_hi Hmax.
  destruct (gesv_mixed_trace A pivots B X opts Hmax) as (n & Hle & Hcalls & _).
  exists n. split; [done|exact Hcalls].
Qed.

(** The passes a run makes, counted in its calls, for [MaxIterations]
    within the range of [int]: there are at most [max(0, itermax)]; when
    the refinement converges, [iter] is their number; when it does not,
    after a successful low-precision factorization, all the
    [max(0, itermax)] passes were made; and the low-precision solves are
    one more than the passes, or none when the factorization fails. *)
Theorem gesv_mixed_pass_count A pivots B X opts :
  let r := gesv_mixed A pivots B X opts in
  let info_lo := (getrf_lo (initial_A_lo A) pivots).2 in
  let passes := passes_made (out_calls r) in
  itermax_of opts <= INT_MAX ->
  Z.of_nat passes <= Z.max 0 (itermax_of opts)
  /\ (out_converged r = true -> out_iter r = Z.of_nat passes)
  /\ (info_lo = 0 -> out_converged r = false ->
      Z.of_nat passes = Z.max 0 (itermax_of opts))
  /\ solves_lo (out_calls r)
     = (if decide (info_lo = 0) then S passes else 0%nat).
Proof.
  intros r info_lo passes Hmax.
  destruct (gesv_mixed_trace A pivots B X opts Hmax)
    as (n & Hle & Hcalls & Hsg & Hcv & Hnc).
  fold r info_lo in Hcalls, Hsg, Hcv, Hnc.
  destruct (passes_made_pass_calls n) as [Hp Hl].
  assert (Hcount : passes = (if decide (info_lo = 0) then n else 0%nat)
                   /\ solves_lo (out_calls r)
                      = (if decide (info_lo = 0) then S n else 0%nat)).
  { unfold passes, passes_made, solves_lo in *. rewrite Hcalls.
    rewrite !filter_app, !length_app.
    unfold hold_calls, clear_calls.
    destruct (decide (target_of opts = Devices)),
      (decide (info_lo = 0)),
      (negb (out_converged r) && use_fallback_of opts),
      (decide ((getrf_hi A (getrf_lo (initial_A_lo A) pivots).1.2).2 = 0));
      rewrite ?filter_app, ?length_app, ?Hp, ?Hl; simpl; lia. }
  destruct Hcount as [Hpasses Hsolves]. rewrite Hsolves.
  destruct (decide (info_lo = 0)) as [H0|H0].
  - rewrite Hpasses. split; [done|]. split; [by intros [? _]%Hcv|].
    split; [done|done].
  - destruct (Hsg H0) as [-> Hconv]. rewrite Hpasses.
    split; [lia|]. split; [congruence|]. split; [done|done].
Qed.

(** When the refinement converges, the [X] returned passes the stopping
    test together with the residual [B - A * X] computed from it, and
    the status is 0; for [MaxIterations] within the range of [int], [X]
    is the iterate of the pass that [iter] names. *)
Theorem gesv_mixed_converged_solution A pivots B X opts :
  let r := gesv_mixed A pivots B X opts in
  out_converged r = true ->
  out_info r = 0
  /\ (exists R0,
        iterRefConverged (colNorms (residual A B (out_X r) R0))
          (colNorms (out_X r)) (cte_of A opts) = true)
  /\ (itermax_of opts <= INT_MAX ->
      0 <= out_iter r
      /\ out_X r = it_X (iterate_at A B X pivots (Z.to_nat (out_iter r)))).
Proof.
  intros r Hconv.
  pose proof (gesv_mixed_no_fallback A pivots B X opts) as Hn.
  pose proof (gesv_mixed_out_converged A pivots B X opts) as Hc.
  pose proof (refinement_converged_info A pivots B X opts) as Hci.
  pose proof (refinement_regular A pivots B X opts) as Hreg.
  pose proof (gesv_mixed_trace A pivots B X opts) as Htr.
  fold r in Hc, Htr. rewrite Hc in Hconv.
  destruct (Hci Hconv) as [Hi1 Hlo]. specialize (Hreg Hlo).
  assert (Htest : passes_test A B (cte_of A opts)
                    (ls_data (refinement A pivots B X opts).2)).
  { revert Hconv. unfold iterate_at in Hreg.
    destruct (getrf_lo (initial_A_lo A) pivots) as [[Al p] i0].
    rewrite Hreg. simpl. apply refine_loop_passes_test. simpl.
    intros H0. split; [done|]. simpl. by eexists. }
  destruct (refinement A pivots B X opts) as [[p1 i1] s] eqn:Eref.
  simpl in *. rewrite Hconv in Hn. simpl in Hn.
  destruct (Hn eq_refl) as (_ & _ & Hinf & HX & _). fold r in Hinf, HX.
  split; [congruence|]. split.
  - destruct Htest as [Ht [R0 HR]]. exists R0. rewrite HX, <- HR. exact Ht.
  - intros Hmax. destruct (Htr Hmax) as (n & _ & _ & _ & Hcv & _).
    rewrite Hc in Hcv. destruct (Hcv Hconv) as [-> ->].
    rewrite Nat2Z.id. split; [lia|done].
Qed.

(** With the fallback enabled and [0 <= MaxIterations <= INT_MAX], a
    return with status 0 and [iter < 0] means that the full-precision
    solver produced the result: [A] and the pivots hold the factors of
    [getrf( A, pivots )], and [X] is what [getrs] on these factors made
    of a copy of [B]. *)
Theorem gesv_mixed_fallback_result A pivots B X opts :
  let r := gesv_mixed A pivots B X opts in
  let pivots_lo := (getrf_lo (initial_A_lo A) pivots).1.2 in
  use_fallback_of opts = true ->
  0 <= itermax_of opts <= INT_MAX ->
  out_info r = 0 -> out_iter r < 0 ->
  getrf_hi A pivots_lo = (out_A r, out_pivots r, 0)
  /\ (exists X0,
        out_X r = getrs_hi (out_A r) (out_pivots r) (copy_hi_hi B X0))
  /\ out_converged r = false
  /\ call_getrf_hi ∈ out_calls r /\ call_getrs_hi ∈ out_calls r.
Proof.
  intros r pivots_lo Hu Hmax Hinfo Hiter.
  pose proof (gesv_mixed_fallback A pivots B X opts) as Hf.
  pose proof (gesv_mixed_out_converged A pivots B X opts) as Hc.
  pose proof (refinement_info A pivots B X opts) as [_ Hpiv].
  fold pivots_lo in Hpiv. fold r in Hc.
  destruct (gesv_mixed_trace A pivots B X opts ltac:(lia))
    as (n & _ & _ & _ & Hcv & _).
  fold r in Hcv.
  assert (Hconv : out_converged r = false).
  { destruct (out_converged r); [|done]. destruct (Hcv eq_refl). lia. }
  destruct (refinement A pivots B X opts) as [[p1 i1] s] eqn:Eref.
  simpl in *. subst p1. rewrite <- Hc, Hconv, Hu in Hf.
  specialize (Hf eq_refl). fold r in Hf.
  destruct (getrf_hi A pivots_lo) as [[Af pf] inf].
  destruct Hf as (HA & Hp & Hinf & HX & Hcs).
  assert (H0 : inf = 0) by congruence. subst inf.
  rewrite bool_decide_eq_true_2 in HX, Hcs by done.
  split; [congruence|]. split; [|split; [done|]].
  - exists (it_X (ls_data s)). rewrite HX, HA, Hp. done.
  - rewrite Hcs. simpl.
    split; apply elem_of_app; right;
      [apply list_elem_of_here
      |apply list_elem_of_further, list_elem_of_here].
Qed.

(** When the low-precision factorization fails and no full-precision
    solve is made (the fallback is disabled, or [getrf( A, pivots )]
    fails as well), [X] is returned as it was on entry and the status
    is not 0. *)
Theorem gesv_mixed_no_solution A pivots B X opts :
  let r := gesv_mixed A pivots B X opts in
  let info_lo := (getrf_lo (initial_A_lo A) pivots).2 in
  let pivots_lo := (getrf_lo (initial_A_lo A) pivots).1.2 in
  info_lo ≠ 0 ->
  use_fallback_of opts = false \/ (getrf_hi A pivots_lo).2 ≠ 0 ->
  out_X r = X /\ out_info r ≠ 0 /\ (call_getrs_hi ∉ out_calls r)
  /\ (call_getrs_lo ∉ out_calls r).
Proof.
  intros r info_lo pivots_lo Hlo Hno.
  pose proof (gesv_mixed_fallback A pivots B X opts) as Hf.
  pose proof (gesv_mixed_no_fallback A pivots B X opts) as Hn.
  pose proof (refinement_singular A pivots B X opts Hlo) as Hs.
  fold info_lo pivots_lo in Hs. rewrite Hs in Hf, Hn. simpl in Hf, Hn.
  fold r in Hf, Hn.
  assert (Hgoal : out_X r = X /\ out_info r ≠ 0
            /\ forall c, c ∈ out_calls r ->
                 c = call_tileGetAndHoldAllOnDevices \/ c = call_getrf_lo
                 \/ c = call_getrf_hi \/ c = call_clearWorkspace).
  { destruct (use_fallback_of opts).
    - destruct Hno as [?|Hhi]; [done|]. specialize (Hf eq_refl).
      destruct (getrf_hi A pivots_lo) as [[Af pf] inf]. simpl in Hhi.
      destruct Hf as (_ & _ & Hinf & HX & Hcs).
      rewrite bool_decide_eq_false_2 in HX, Hcs by done.
      split; [done|]. split; [congruence|]. intros c. rewrite Hcs.
      unfold hold_calls, clear_calls.
      destruct (decide (target_of opts = Devices)); simpl;
        rewrite ?elem_of_cons, ?elem_of_nil; tauto.
    - destruct (Hn eq_refl) as (_ & _ & Hinf & HX & Hcs).
      split; [done|]. split; [congruence|]. intros c. rewrite Hcs.
      unfold hold_calls, clear_calls.
      destruct (decide (target_of opts = Devices)); simpl;
        rewrite ?elem_of_cons, ?elem_of_nil; tauto. }
  destruct Hgoal as (HX & Hinf & Hmem).
  split; [done|]. split; [done|].
  split; intros H; destruct (Hmem _ H) as [|[|[|]]]; discriminate.
Qed.

(** Options that are left out.  Without a [Target], a [MaxIterations]
    and a [UseFallbackSolver] entry the routine works on the host (no
    tile is held on a device and no workspace is cleared), makes at
    most 30 refinement passes, and falls back on the full-precision
    factorization whenever the refinement has not converged; after 30
    passes without convergence [iter] is -31. *)
Theorem gesv_mixed_default_options A pivots B X
    (opts : gmap Option (Value real_hi)) :
  let r := gesv_mixed A pivots B X opts in
  let info_lo := (getrf_lo (initial_A_lo A) pivots).2 in
  opts !! OptTarget = None -> opts !! MaxIterations = None ->
  opts !! UseFallbackSolver = None ->
  (call_tileGetAndHoldAllOnDevices ∉ out_calls r)
  /\ (call_clearWorkspace ∉ out_calls r)
  /\ (passes_made (out_calls r) <= 30)%nat
  /\ (out_converged r = false ->
      call_getrf_hi ∈ out_calls r
      /\ (info_lo = 0 ->
          passes_made (out_calls r) = 30%nat /\ out_iter r = -31)).
Proof.
  intros r info_lo Ht Hm Hu.
  assert (Hit : itermax_of opts = 30).
  { unfold itermax_of, get_option_i. by rewrite Hm. }
  assert (Hfb : use_fallback_of opts = true).
  { unfold use_fallback_of, get_option_i. by rewrite Hu. }
  assert (Htg : target_of opts = HostTask).
  { unfold target_of, Options. by rewrite Ht. }
  assert (Hmax : itermax_of opts <= INT_MAX).
  { rewrite Hit. vm_compute. discriminate. }
  pose proof (gesv_mixed_out_iter A pivots B X opts) as Hi.
  pose proof (gesv_mixed_out_converged A pivots B X opts) as Hc.
  pose proof (refinement_info A pivots B X opts) as [Hinfo _].
  fold r in Hi, Hc. fold info_lo in Hinfo.
  destruct (gesv_mixed_trace A pivots B X opts Hmax)
    as (n & Hle & Hcalls & Hsg & _ & Hnc).
  fold r info_lo in Hcalls, Hsg, Hnc.
  rewrite Hit in Hle, Hnc. rewrite Hfb, Htg, andb_true_r in Hcalls.
  unfold hold_calls, clear_calls in Hcalls.
  rewrite decide_False, app_nil_r in Hcalls by done. simpl in Hcalls.
  destruct (passes_made_pass_calls n) as [Hp _].
  assert (Hmem : forall c, c ∈ out_calls r ->
    c = call_getrf_lo \/ c = call_getrs_lo \/ c = call_gemm_hi
    \/ c = call_add_hi \/ c = call_getrf_hi \/ c = call_getrs_hi).
  { intros c. rewrite Hcalls, elem_of_cons, elem_of_app.
    intros [->|[Hin|Hin]]; [tauto| |].
    - destruct (decide (info_lo = 0)); [|by apply elem_of_nil in Hin].
      rewrite !elem_of_cons in Hin. destruct Hin as [->|[->|Hin]]; [tauto..|].
      apply pass_calls_members in Hin. tauto.
    - destruct (negb (out_converged r)); [|by apply elem_of_nil in Hin].
      apply elem_of_cons in Hin as [->|Hin]; [tauto|].
      destruct (decide ((getrf_hi A _).2 = 0));
        [|by apply elem_of_nil in Hin].
      apply list_elem_of_singleton in Hin as ->. tauto. }
  assert (Hpasses : passes_made (out_calls r)
                    = if decide (info_lo = 0) then n else 0%nat).
  { unfold passes_made in *. rewrite Hcalls.
    destruct (decide (info_lo = 0)), (negb (out_converged r)),
      (decide ((getrf_hi A (getrf_lo (initial_A_lo A) pivots).1.2).2 = 0));
      simpl; rewrite ?filter_cons, ?filter_app, ?length_app; simpl;
      rewrite ?filter_app, ?length_app, ?Hp; simpl; lia. }
  split; [intros H; destruct (Hmem _ H) as [|[|[|[|[|]]]]]; discriminate|].
  split; [intros H; destruct (Hmem _ H) as [|[|[|[|[|]]]]]; discriminate|].
  split; [rewrite Hpasses; destruct (decide (info_lo = 0)); lia|].
  intros Hconv. rewrite Hconv in Hcalls. simpl in Hcalls. split.
  - rewrite Hcalls. apply list_elem_of_further, elem_of_app. right. by left.
  - intros H0. specialize (Hnc H0 Hconv).
    rewrite Hpasses, decide_True by done. split; [lia|].
    rewrite Hi. rewrite Hc in Hconv.
    destruct (refinement A pivots B X opts) as [[p1 i1] s]. simpl in *.
    rewrite Hconv, Hinfo, bool_decide_eq_true_2, Hit by done. reflexivity.
Qed.

End Properties.

(** *** Runs of the toy instance *)

Example toy_converges_in_three_passes :
  let r := gesv_mixed (K := toy_kernels) 5 0 1000 0 (toy_opts []) in
  out_iter r = 3 /\ out_info r = 0 /\ out_X r = 199 /\ out_A r = 5.
Proof. vm_compute. done. Qed.

Example toy_falls_back_after_two_passes :
  let r := gesv_mixed (K := toy_kernels) 5 0 1000 0
             (toy_opts [(MaxIterations, 2)]) in
  out_iter r = -3 /\ out_info r = 0 /\ out_X r = 200 /\ out_A r = 10.
Proof. vm_compute. done. Qed.

(** With a negative [MaxIterations] that never lets the loop run, a
    failed first check leaves [iter = -itermax - 1 >= 0] and the
    fallback overwrites [A]. *)
Example toy_negative_itermax :
  let r := gesv_mixed (K := toy_kernels) 5 0 1000 0
             (toy_opts [(MaxIterations, -1)]) in
  out_converged r = false /\ out_iter r = 0 /\ out_info r = 0
  /\ out_A r = 10.
Proof. vm_compute. done. Qed.

(** Convergence in the third pass of the toy run, counted by C2. *)
Lemma gesv_mixed_iteration_count_witness :
  (@getrf_lo toy_kernels (initial_A_lo (K := toy_kernels) 5) 0).2 = 0
  /\ out_iter (gesv_mixed (K := toy_kernels) 5 0 1000 0 (toy_opts [])) = 3
  /\ out_iter (gesv_mixed (K := toy_kernels) 5 0 1000 0
                (toy_opts [(MaxIterations, 2)])) = -3.
Proof.
  split; [reflexivity|]. split.
  - destruct (gesv_mixed_iteration_count (K := toy_kernels) 5 0 1000 0
                (toy_opts []) eq_refl) as (_ & H & _).
    apply (H 3%nat); [lia | vm_compute; discriminate | vm_compute; discriminate
                     | | reflexivity].
    intros [|[|[|j]]] Hj; [reflexivity | reflexivity | reflexivity | lia].
  - destruct (gesv_mixed_iteration_count (K := toy_kernels) 5 0 1000 0
                (toy_opts [(MaxIterations, 2)]) eq_refl) as (_ & _ & H).
    apply H; [vm_compute; split; discriminate|].
    intros [|[|[|j]]] Hj; [reflexivity | reflexivity | reflexivity |].
    change (Z.of_nat (S (S (S j))) <= 2) in Hj. lia.
Defined.

(** A matrix that is singular once rounded to low precision. *)
Lemma gesv_mixed_singular_low_witness :
  (@getrf_lo toy_kernels (initial_A_lo (K := toy_kernels) 3) 0).2 ≠ 0
  /\ out_iter (gesv_mixed (K := toy_kernels) 3 0 1000 0 (toy_opts [])) = -3.
Proof.
  assert (H : (@getrf_lo toy_kernels (initial_A_lo (K := toy_kernels) 3) 0).2 ≠ 0)
    by (vm_compute; discriminate).
  split; [exact H|].
  exact (proj1 (gesv_mixed_singular_low (K := toy_kernels) 3 0 1000 0
                  (toy_opts []) H)).
Defined.

(** With the fallback disabled the status of a matrix that is singular in
    low precision is the [info] of the low-precision factorization; no
    full-precision factorization is made. *)
Lemma gesv_mixed_status_counterexample :
  ~ positive_status_is_full_precision (K := toy_kernels) 3 0 1000 0
      (toy_opts [(UseFallbackSolver, 0)]).
Proof.
  unfold positive_status_is_full_precision. intros H.
  assert (Hpos : 0 < out_info (gesv_mixed (K := toy_kernels) 3 0 1000 0
                                 (toy_opts [(UseFallbackSolver, 0)])))
    by (vm_compute; reflexivity).
  destruct (H Hpos) as [Hin _]. vm_compute in Hin.
  apply elem_of_cons in Hin as [Hin | Hin]; [discriminate|].
  by apply elem_of_nil in Hin.
Qed.

(** A matrix that is singular in both precisions, fallback enabled. *)
Lemma gesv_mixed_status_witness :
  let r := gesv_mixed (K := toy_kernels) 0 0 1000 0 (toy_opts []) in
  use_fallback_of (K := toy_kernels) (toy_opts []) = true
  /\ 0 < out_info r
  /\ call_getrf_hi ∈ out_calls r
  /\ out_info r = 1.
Proof.
  intros r.
  assert (Hu : use_fallback_of (K := toy_kernels) (toy_opts []) = true)
    by reflexivity.
  assert (Hpos : 0 < out_info r) by reflexivity.
  destruct (proj1 (gesv_mixed_status (K := toy_kernels) 0 0 1000 0
                     (toy_opts [])) Hu Hpos) as (Hin & Hinfo & _).
  split; [exact Hu|]. split; [exact Hpos|]. split; [exact Hin | exact Hinfo].
Defined.

(** The converging toy run leaves [A] alone. *)
Lemma gesv_mixed_converged_frame_witness :
  let r := gesv_mixed (K := toy_kernels) 5 0 1000 0 (toy_opts []) in
  out_converged r = true /\ out_A r = 5 /\ (call_getrf_hi ∉ out_calls r).
Proof.
  intros r.
  assert (Hc : out_converged r = true) by reflexivity.
  destruct (proj1 (gesv_mixed_converged_frame (K := toy_kernels) 5 0 1000 0
                     (toy_opts [])) Hc) as (_ & Hno & _ & HA & _).
  split; [exact Hc|]. split; [exact HA | exact Hno].
Defined.

(** The calls of the converging toy run on the devices. *)
Lemma gesv_mixed_call_sequence_witness :
  let opts := toy_opts [(OptTarget, 68)] in
  let r := gesv_mixed (K := toy_kernels) 5 0 1000 0 opts in
  itermax_of (K := toy_kernels) opts <= INT_MAX
  /\ exists n : nat,
       Z.of_nat n <= 30
       /\ out_calls r
          = replicate 3 call_tileGetAndHoldAllOnDevices
            ++ [call_getrf_lo; call_getrs_lo; call_gemm_hi] ++ pass_calls n
            ++ replicate 3 call_clearWorkspace.
Proof.
  intros opts r.
  assert (Hmax : itermax_of (K := toy_kernels) opts <= INT_MAX)
    by (vm_compute; discriminate).
  split; [exact Hmax|].
  destruct (gesv_mixed_call_sequence (K := toy_kernels) 5 0 1000 0 opts Hmax)
    as (n & Hle & Hcalls).
  exists n. split; [exact Hle|exact Hcalls].
Defined.

(** The converging toy run made three passes. *)
Lemma gesv_mixed_pass_count_witness :
  let r := gesv_mixed (K := toy_kernels) 5 0 1000 0 (toy_opts []) in
  itermax_of (K := toy_kernels) (toy_opts []) <= INT_MAX
  /\ out_iter r = Z.of_nat (passes_made (out_calls r))
  /\ solves_lo (out_calls r) = 4%nat.
Proof.
  intros r.
  assert (Hmax : itermax_of (K := toy_kernels) (toy_opts []) <= INT_MAX)
    by (vm_compute; discriminate).
  split; [exact Hmax|].
  destruct (gesv_mixed_pass_count (K := toy_kernels) 5 0 1000 0 (toy_opts [])
              Hmax) as (_ & Hit & _ & Hsolves).
  split; [exact (Hit eq_refl)|exact Hsolves].
Defined.

Lemma gesv_mixed_converged_solution_witness :
  let r := gesv_mixed (K := toy_kernels) 5 0 1000 0 (toy_opts []) in
  out_converged r = true
  /\ out_X r = it_X (iterate_at (K := toy_kernels) 5 1000 0 0 3).
Proof.
  intros r.
  assert (Hc : out_converged r = true) by reflexivity.
  split; [exact Hc|].
  assert (Hmax : itermax_of (K := toy_kernels) (toy_opts []) <= INT_MAX)
    by (vm_compute; discriminate).
  exact (proj2 (proj2 (proj2 (gesv_mixed_converged_solution (K := toy_kernels)
                                5 0 1000 0 (toy_opts []) Hc)) Hmax)).
Defined.

(** The toy run that exhausts two passes and falls back. *)
Lemma gesv_mixed_fallback_result_witness :
  let opts := toy_opts [(MaxIterations, 2)] in
  let r := gesv_mixed (K := toy_kernels) 5 0 1000 0 opts in
  out_info r = 0 /\ out_iter r < 0
  /\ @getrf_hi toy_kernels 5 1 = (out_A r, out_pivots r, 0)
  /\ call_getrs_hi ∈ out_calls r.
Proof.
  intros opts r.
  assert (Hinfo : out_info r = 0) by reflexivity.
  assert (Hiter : out_iter r < 0) by reflexivity.
  assert (Hmax : 0 <= itermax_of (K := toy_kernels) opts <= INT_MAX)
    by (vm_compute; split; discriminate).
  destruct (gesv_mixed_fallback_result (K := toy_kernels) 5 0 1000 0 opts
              eq_refl Hmax Hinfo Hiter) as (Hf & _ & _ & _ & Hin).
  split; [exact Hinfo|]. split; [exact Hiter|]. split; [exact Hf|exact Hin].
Defined.

(** A matrix that is singular in both precisions: [X] comes back as it
    went in. *)
Lemma gesv_mixed_no_solution_witness :
  let r := gesv_mixed (K := toy_kernels) 0 0 1000 7 (toy_opts []) in
  (@getrf_lo toy_kernels (initial_A_lo (K := toy_kernels) 0) 0).2 ≠ 0
  /\ out_X r = 7 /\ out_info r ≠ 0.
Proof.
  intros r.
  assert (Hlo : (@getrf_lo toy_kernels (initial_A_lo (K := toy_kernels) 0) 0).2
                ≠ 0) by (vm_compute; discriminate).
  assert (Hhi : (@getrf_hi toy_kernels 0
                   (@getrf_lo toy_kernels
                      (initial_A_lo (K := toy_kernels) 0) 0).1.2).2 ≠ 0)
    by (vm_compute; discriminate).
  destruct (gesv_mixed_no_solution (K := toy_kernels) 0 0 1000 7 (toy_opts [])
              Hlo (or_intror Hhi)) as (HX & Hinfo & _).
  split; [exact Hlo|]. split; [exact HX|exact Hinfo].
Defined.

(** The toy run without options. *)
Lemma gesv_mixed_default_options_witness :
  let r := gesv_mixed (K := toy_kernels) 5 0 1000 0 (toy_opts []) in
  (call_clearWorkspace ∉ out_calls r)
  /\ (passes_made (out_calls r) <= 30)%nat.
Proof.
  intros r.
  destruct (gesv_mixed_default_options (K := toy_kernels) 5 0 1000 0
              (toy_opts []) eq_refl eq_refl eq_refl) as (_ & Hc & Hp & _).
  split; [exact Hc|exact Hp].
Defined.

End GesvMixed.

(** * herk *)

Module Herk.

Inductive Uplo : Type := Lower | Upper.
Inductive Op : Type := NoTrans | ConjTrans.

#[global] Instance Uplo_eq_dec : EqDecision Uplo.
Proof. solve_decision. Defined.

#[global] Instance Op_eq_dec : EqDecision Op.
Proof. solve_decision. Defined.

(** The tile kernel library and the worker pool, as [herk] sees them.
    [tile_herk op alpha Aik Ajk beta Cij] is the new content of the
    tile [C(i, j)] after [C(i, j) = alpha A(i, k) A(j, k)^H + beta C(i, j)]
    (herk on the diagonal, gemm below it), [op] telling whether the tile
    is seen transposed; a tile of [A] that is absent from the process
    reads as [None].  The kernel is one function for all targets: how a
    host and a device library round is outside this development.
    [worker_order] is the order in which the pool gets to the units of
    work handed to it. *)
Class Kernels : Type := {
  real_t : Type;
  real_t_eq_dec :: EqDecision real_t;
  (* real_t(1.0) *)
  one : real_t;
  ATile : Type;
  CTile : Type;
  tile_herk :
    Op -> real_t -> option ATile -> option ATile -> real_t -> CTile -> CTile;
  worker_order : list (Z * Z) -> list (Z * Z);
  worker_order_perm : forall l, worker_order l ≡ₚ l
}.

(** ** The task graph *)

(** The list items of the [depend] clauses: the elements of the vectors
    [bcast] and [gemm]. *)
Inductive Token : Type :=
| bcast (k : Z)
| gemm (k : Z).

#[global] Instance Token_eq_dec : EqDecision Token.
Proof. solve_decision. Defined.

Section Graph.
Context {K : Kernels}.

(** The body of a task: the broadcast of the block column [k] of [A]
    (the loop over [i] of [A.tileBcast]), or the call
    [internal::herk<target>( alpha, A.sub(0, A.mt()-1, k, k), beta, C )]. *)
Inductive Work : Type :=
| bcast_column (k : Z)
| internal_herk (alpha : real_t) (k : Z) (beta : real_t).

#[global] Instance Work_eq_dec : EqDecision Work.
Proof. solve_decision. Defined.

(** A task with its [depend(in: ...)] and [depend(out: ...)] lists. *)
Record Task : Type := mkTask {
  dep_in : list Token;
  dep_out : list Token;
  work : Work
}.

#[global] Instance Task_eq_dec : EqDecision Task.
Proof. solve_decision. Defined.

(** [for (int64_t k = from; cond(k); ++k) body(k)], collecting the tasks
    the body issues; [fuel] bounds the number of iterations. *)
Fixpoint for_loop (fuel : nat) (k : Z) (cond : Z -> bool)
    (body : Z -> list Task) : list Task :=
  match fuel with
  | O => []
  | S fuel' =>
      if cond k then body k ++ for_loop fuel' (int64_wrap (k + 1)) cond body
      else []
  end.

(** Line 96: "send 1st block col of A". *)
Definition first_bcast_task : Task :=
  mkTask [] [bcast 0] (bcast_column 0).

(** Lines 108-109: "send next lookahead block cols of A". *)
Definition prefetch_task (k : Z) : Task :=
  mkTask [bcast (int64_wrap (k - 1))] [bcast k] (bcast_column k).

(** Lines 121-122: the first update, with the caller's [beta]. *)
Definition first_herk_task (alpha beta : real_t) : Task :=
  mkTask [bcast 0] [gemm 0] (internal_herk alpha 0 beta).

(** Lines 133-135: "send next block col of A"; [kla] is [k+lookahead]. *)
Definition lookahead_task (k kla : Z) : Task :=
  mkTask [gemm (int64_wrap (k - 1)); bcast (int64_wrap (kla - 1))]
         [bcast kla] (bcast_column kla).

(** Lines 147-149: the update with block column [k], "no beta". *)
Definition herk_task (alpha : real_t) (k : Z) : Task :=
  mkTask [bcast k; gemm (int64_wrap (k - 1))] [gemm k]
         (internal_herk alpha k one).

(** Lines 91-156: the tasks in the order the master thread issues them. *)
Definition herk_tasks (alpha beta : real_t) (nt lookahead : Z) : list Task :=
  [first_bcast_task]
  ++ for_loop (Z.to_nat nt) 1
       (fun k => (k <? int64_wrap (lookahead + 1)) && (k <? nt))
       (fun k => [prefetch_task k])
  ++ [first_herk_task alpha beta]
  ++ for_loop (Z.to_nat nt) 1
       (fun k => k <? nt)
       (fun k =>
          (if int64_wrap (k + lookahead) <? nt
           then [lookahead_task k (int64_wrap (k + lookahead))] else [])
          ++ [herk_task alpha k]).

(** ** Task dependences *)

Definition mentions (x : Token) (l : list Token) : bool :=
  bool_decide (x ∈ l).

(** The OpenMP rule for sibling tasks: a task with [x] in a
    [depend(in: ...)] list waits for every task issued before it that has
    [x] in a [depend(out: ...)] list; a task with [x] in a
    [depend(out: ...)] list waits for every task issued before it that
    has [x] in either list.  [waits_for t t'] says that [t], issued
    later, waits for [t']. *)
Definition waits_for (t t' : Task) : bool :=
  existsb (fun x => mentions x (dep_in t) || mentions x (dep_out t))
          (dep_out t')
  || existsb (fun x => mentions x (dep_out t)) (dep_in t').

(** The tasks of the issue list [G] that [t] waits for: those issued
    before it that it depends on. *)
Fixpoint predecessors (G : list Task) (t : Task) : list Task :=
  match G with
  | [] => []
  | t' :: G' =>
      if decide (t' = t) then []
      else (if waits_for t t' then [t'] else []) ++ predecessors G' t
  end.

(** An execution order of the tasks of [G], as the runtime may pick it:
    each task is one of [G], starts once, and starts only after the
    tasks it waits for are complete. *)
Fixpoint runs_in_order (G done sched : list Task) : bool :=
  match sched with
  | [] => true
  | t :: rest =>
      bool_decide (t ∈ G) && bool_decide (t ∉ done)
      && forallb (fun p => bool_decide (p ∈ done)) (predecessors G t)
      && runs_in_order G (t :: done) rest
  end.

(** The parallel region ends when every task has run. *)
Definition valid_schedule (G sched : list Task) : bool :=
  runs_in_order G [] sched && bool_decide (length sched = length G).

End Graph.

(** ** Matrices and the memory of one process *)

Section Memory.
Context {K : Kernels}.

(** A general matrix: [A.mt()] by [A.nt()] tiles. *)
Record Matrix : Type := mkMatrix {
  m_mt : Z;
  m_nt : Z;
  m_tile : Z -> Z -> ATile
}.

(** A Hermitian matrix as a view of its storage: the triangle that is
    stored, whether the view is conjugate-transposed, the number of block
    rows and columns, and which stored tiles this process owns.  Views
    are shallow: the tiles themselves are in the [Memory]. *)
Record HermitianMatrix : Type := mkHermitianMatrix {
  h_uplo : Uplo;
  h_op : Op;
  h_mt : Z;
  h_owned : Z * Z -> bool
}.

Definition flip_uplo (u : Uplo) : Uplo :=
  match u with Lower => Upper | Upper => Lower end.

Definition uplo_logical (C : HermitianMatrix) : Uplo :=
  match h_op C with NoTrans => h_uplo C | ConjTrans => flip_uplo (h_uplo C) end.

Definition conj_transpose (C : HermitianMatrix) : HermitianMatrix :=
  mkHermitianMatrix (h_uplo C)
    (match h_op C with NoTrans => ConjTrans | ConjTrans => NoTrans end)
    (h_mt C) (h_owned C).

(** Where the tile [(i, j)] of the view is stored. *)
Definition stored_at (C : HermitianMatrix) (ij : Z * Z) : Z * Z :=
  match h_op C with NoTrans => ij | ConjTrans => (ij.2, ij.1) end.

Definition tileIsLocal (C : HermitianMatrix) (ij : Z * Z) : bool :=
  h_owned C (stored_at C ij).

(** [C.sub(i1, i2, j1, j2)]: the tiles of the block rows [i1..i2] and
    block columns [j1..j2], both ends included. *)
Definition sub (i1 i2 j1 j2 : Z) : list (Z * Z) :=
  i ← seqZ i1 (i2 - i1 + 1); j ← seqZ j1 (j2 - j1 + 1); [(i, j)].

(** The tiles of the lower triangle, in the order of the loops
    [for j < C.nt()] [for i = j; i < C.mt()]; a Hermitian matrix has as
    many block columns as block rows. *)
Definition lower_tiles (mt : Z) : list (Z * Z) :=
  j ← seqZ 0 mt; i ← seqZ j (mt - j); [(i, j)].

Inductive StorageCall : Type :=
| call_allocateBatchArrays
| call_reserveDeviceWorkspace
| call_tileMoveToHost (i j : Z)
| call_clearWorkspace.

(** What one process holds: the tiles of [A] present on it (its own
    and the ones received), the host copies of tiles of [C] (the
    origins, for the tiles it owns), the device copies of tiles of [C]
    that are newer than the host copy, and the storage calls made. *)
Record Memory : Type := mkMemory {
  A_here : gset (Z * Z);
  C_host : gmap (Z * Z) CTile;
  C_device : gmap (Z * Z) CTile;
  calls : list StorageCall
}.

(** The content of a tile of [C] as the next operation on it finds it. *)
Definition tile_current (m : Memory) (key : Z * Z) : option CTile :=
  match C_device m !! key with
  | Some c => Some c
  | None => C_host m !! key
  end.

Definition log (c : StorageCall) (m : Memory) : Memory :=
  mkMemory (A_here m) (C_host m) (C_device m) (calls m ++ [c]).

(** Modelled from the spec: [tileBcast], the broadcast of one tile to the
    processes that own a tile of the two destination sub-matrices (§3:
    no process reads a tile it does not own without receiving it).  On
    a process of the destination set the tile becomes present. *)
Definition tileBcast (C : HermitianMatrix) (i k : Z)
    (dest1 dest2 : list (Z * Z)) (m : Memory) : Memory :=
  if existsb (tileIsLocal C) (dest1 ++ dest2)
  then mkMemory ({[ (i, k) ]} ∪ A_here m) (C_host m) (C_device m) (calls m)
  else m.

(** The tile [(i, 0)] of the panel [A.sub(0, A.mt()-1, k, k)] as a kernel
    on this process reads it. *)
Definition panel_tile (A : Matrix) (k : Z) (m : Memory) (i : Z)
    : option ATile :=
  if bool_decide (0 <= i < m_mt A) && bool_decide ((i, k) ∈ A_here m)
  then Some (m_tile A i k) else None.

(** Writing a tile of [C] on the host leaves no newer device copy;
    writing it on the device leaves the host copy behind. *)
Definition host_put (m : Memory) (key : Z * Z) (c : CTile) : Memory :=
  mkMemory (A_here m) (<[key := c]> (C_host m)) (delete key (C_device m))
    (calls m).

Definition device_put (m : Memory) (key : Z * Z) (c : CTile) : Memory :=
  mkMemory (A_here m) (C_host m) (<[key := c]> (C_device m)) (calls m).

(** One unit of work: the tile kernel on the tile [(i, j)] of [C], which
    reads the tile in [src] and writes it with [put] into [m]. *)
Definition tile_unit (put : Memory -> Z * Z -> CTile -> Memory)
    (alpha : real_t) (A : Matrix) (k : Z) (beta : real_t)
    (C : HermitianMatrix) (src m : Memory) (ij : Z * Z) : Memory :=
  match tile_current src (stored_at C ij) with
  | Some c =>
      put m (stored_at C ij)
        (tile_herk (h_op C) alpha (panel_tile A k src ij.1)
           (panel_tile A k src ij.2) beta c)
  | None => m
  end.

(** Modelled from the spec: [internal::herk<target>], the backend
    dispatcher of §4.2 applied to the rank-k update.  The tile set is
    the lower triangle of [C] restricted to the tiles this process owns.
    - per-tile task: one unit of work per tile, run by the worker pool in
      the order it picks, each on the memory the previous ones left;
    - nested parallel loop: the units in the order of the two loops;
    - batched host call: one call for all tiles, every unit reading the
      memory as it is when the call is made;
    - device-batched call: as the batched call, but the results stay on
      the device. *)
Definition internal_herk_run (target : Target) (alpha : real_t) (A : Matrix)
    (k : Z) (beta : real_t) (C : HermitianMatrix) (m : Memory) : Memory :=
  let tiles := filter (fun ij => tileIsLocal C ij = true) (lower_tiles (h_mt C)) in
  match target with
  | HostTask =>
      foldl (fun m' ij => tile_unit host_put alpha A k beta C m' m' ij)
        m (worker_order tiles)
  | HostNest =>
      foldl (fun m' ij => tile_unit host_put alpha A k beta C m' m' ij)
        m tiles
  | HostBatch =>
      foldl (fun m' ij => tile_unit host_put alpha A k beta C m m' ij)
        m tiles
  | Devices =>
      foldl (fun m' ij => tile_unit device_put alpha A k beta C m m' ij)
        m tiles
  end.

(** Modelled from the spec: [tileMoveToHost], which reconciles the
    device copy of a tile with its host origin (§3), and
    [clearWorkspace], which drops every workspace copy of the tiles of
    [C]. *)
Definition tileMoveToHost (C : HermitianMatrix) (i j : Z) (m : Memory)
    : Memory :=
  let key := stored_at C (i, j) in
  match C_device m !! key with
  | Some c =>
      mkMemory (A_here m) (<[key := c]> (C_host m)) (delete key (C_device m))
        (calls m ++ [call_tileMoveToHost i j])
  | None => log (call_tileMoveToHost i j) m
  end.

Definition clearWorkspace (m : Memory) : Memory :=
  mkMemory (A_here m) (C_host m) ∅ (calls m ++ [call_clearWorkspace]).

(** ** The driver *)

(** The body of a task. *)
Definition run_work (target : Target) (A : Matrix) (C : HermitianMatrix)
    (m : Memory) (w : Work) : Memory :=
  match w with
  | bcast_column k =>
      foldl (fun m' i =>
               tileBcast C i k (sub i i 0 i) (sub i (h_mt C - 1) i i) m')
        m (seqZ 0 (m_mt A))
  | internal_herk alpha k beta => internal_herk_run target alpha A k beta C m
  end.

(** The tasks of the parallel region, run one after the other in the
    order [sched]. *)
Definition run_tasks (target : Target) (A : Matrix) (C : HermitianMatrix)
    (sched : list Task) (m : Memory) : Memory :=
  foldl (fun m' t => run_work target A C m' (work t)) m sched.

(** Lines 158-164: the loops over the lower triangle that move the local
    tiles to the host, and [C.clearWorkspace()]. *)
Definition flush (C : HermitianMatrix) (m : Memory) : Memory :=
  clearWorkspace
    (foldl (fun m' j =>
              foldl (fun m'' i =>
                       if tileIsLocal C (i, j) then tileMoveToHost C i j m''
                       else m'')
                m' (seqZ j (h_mt C - j)))
       m (seqZ 0 (h_mt C))).

(** [internal::specialization::herk].  [sched] is the order in which the
    runtime runs the tasks of the parallel region. *)
Definition specialization_herk (target : Target) (alpha : real_t) (A : Matrix)
    (beta : real_t) (C : HermitianMatrix) (lookahead : Z)
    (sched : list Task) (m : Memory) : Memory :=
  (* if upper, change to lower *)
  let C := if decide (uplo_logical C = Upper) then conj_transpose C else C in
  let m :=
    if decide (target = Devices)
    then log call_reserveDeviceWorkspace (log call_allocateBatchArrays m)
    else m in
  flush C (run_tasks target A C sched m).

(** The public [slate::herk]: the lookahead is read from the options,
    [catch (std::out_of_range)] giving 1. *)
Definition lookahead_of {dbl} (opts : gmap Option (Value dbl)) : Z :=
  match opts !! Lookahead with
  | Some v => i_ v
  | None => 1
  end.

(** The OpenMP runtime: handed the tasks of a parallel region in the
    order of issue, it runs them in an order of its choice. *)
Definition Runtime : Type := list Task -> list Task.

(** [internal::specialization::herk] as a process runs it: the master
    thread issues the tasks of [herk_tasks] for the lookahead it was
    given, and the runtime runs these tasks in the order it picks. *)
Definition specialization_herk_run (runtime : Runtime) (target : Target)
    (alpha : real_t) (A : Matrix) (beta : real_t) (C : HermitianMatrix)
    (lookahead : Z) (m : Memory) : Memory :=
  specialization_herk target alpha A beta C lookahead
    (runtime (herk_tasks alpha beta (m_nt A) lookahead)) m.

Definition herk {dbl} (target : Target) (alpha : real_t) (A : Matrix)
    (beta : real_t) (C : HermitianMatrix) (opts : gmap Option (Value dbl))
    (runtime : Runtime) (m : Memory) : Memory :=
  specialization_herk_run runtime target alpha A beta C (lookahead_of opts) m.

(** The tasks [slate::herk] hands to the runtime. *)
Definition herk_issued {dbl} (alpha : real_t) (A : Matrix) (beta : real_t)
    (opts : gmap Option (Value dbl)) : list Task :=
  herk_tasks alpha beta (m_nt A) (lookahead_of opts).

(** ** Names for the steps of the pipeline *)

(** "disseminate(c)": the task that broadcasts the block column [c]. *)
Definition disseminate_task (lookahead c : Z) : Task :=
  if decide (c = 0) then first_bcast_task
  else if decide (c <= lookahead) then prefetch_task c
  else lookahead_task (c - lookahead) c.

(** "advance(k)": the task that applies the update with block column [k]. *)
Definition advance_task (alpha beta : real_t) (k : Z) : Task :=
  if decide (k = 0) then first_herk_task alpha beta else herk_task alpha k.

(** [t1] runs before [t2] in [sched]. *)
Definition before (sched : list Task) (t1 t2 : Task) : Prop :=
  exists l1 l2 l3, sched = l1 ++ t1 :: l2 ++ t2 :: l3.

(** The content of the tile [(i, j)] of [C] after the steps
    [0, ..., n-1] have been applied to [c] one after the other, each
    with its full panel: [beta] in the step 0, 1.0 in the later ones. *)
Definition step_tile (alpha : real_t) (A : Matrix) (beta : real_t)
    (C : HermitianMatrix) (ij : Z * Z) (c : CTile) (k : Z) : CTile :=
  tile_herk (h_op C) alpha (Some (m_tile A ij.1 k)) (Some (m_tile A ij.2 k))
    (if decide (k = 0) then beta else one) c.

Definition steps_tile (alpha : real_t) (A : Matrix) (beta : real_t)
    (C : HermitianMatrix) (n : Z) (ij : Z * Z) (c : CTile) : CTile :=
  foldl (step_tile alpha A beta C ij) c (seqZ 0 n).

(** The view of [C] that the driver works on. *)
Definition lower_view (C : HermitianMatrix) : HermitianMatrix :=
  if decide (uplo_logical C = Upper) then conj_transpose C else C.

(** The tiles of the lower triangle of the view that this process owns. *)
Definition local_tiles (C : HermitianMatrix) : list (Z * Z) :=
  filter (fun ij => tileIsLocal C ij = true) (lower_tiles (h_mt C)).

End Memory.

(** An instance for running the driver: integer tiles, a kernel that
    yields -1 when a tile of [A] is absent, a pool that takes the units
    last to first. *)
Definition toy_kernels : Kernels := {|
  real_t := Z; one := 1; ATile := Z; CTile := Z;
  tile_herk := fun op alpha a1 a2 beta c =>
    match a1, a2 with
    | Some x, Some y => alpha * x * y + beta * c
    | _, _ => -1
    end;
  worker_order := reverse;
  worker_order_perm := reverse_Permutation
|}.

(** A 2-by-3 tile matrix, a 2-by-2 tile Hermitian matrix of which the
    process owns the diagonal tiles, and its memory on entry. *)
Definition toy_A : Matrix :=
  @mkMatrix toy_kernels 2 3 (fun i k => 10 * i + k + 1).

Definition toy_C : HermitianMatrix :=
  mkHermitianMatrix Lower NoTrans 2
    (fun ij => negb (bool_decide (ij = (1, 0)))).

Definition toy_memory : Memory :=
  @mkMemory toy_kernels ∅
    (list_to_map [((0, 0), 1); ((1, 0), 2); ((1, 1), 3)]) ∅ [].

(** The tasks of the toy run, with [alpha = 2], [beta = 3] and
    lookahead 1, and the run itself. *)
Definition toy_disseminate (c : Z) : Task := @disseminate_task toy_kernels 1 c.
Definition toy_advance (k : Z) : Task := @advance_task toy_kernels 2 3 k.
Definition toy_tasks (la : Z) : list Task := @herk_tasks toy_kernels 2 3 3 la.

Definition toy_herk (target : Target) (la : Z) (sched : list Task) : Memory :=
  @specialization_herk toy_kernels target 2 toy_A 3 toy_C la sched toy_memory.

(** A schedule for lookahead 1 other than the issue order: the update
    with column 1 overtakes the broadcast of column 2. *)
Definition toy_schedule : list Task :=
  [ toy_disseminate 0; toy_disseminate 1; toy_advance 0; toy_advance 1;
    toy_disseminate 2; toy_advance 2 ].

(** ** Properties of the task graph *)

Lemma int64_wrap_id z : - 2 ^ 63 <= z <= INT64_MAX -> int64_wrap z = z.
Proof.
  unfold INT64_MAX, int64_wrap, wrap. intros Hz.
  rewrite Z.mod_small; lia.
Qed.

Section GraphProperties.
Context {K : Kernels}.
Implicit Types (t p : Task) (G sched done : list Task).

(** A loop whose condition holds exactly below [hi] issues the bodies of
    [k0, ..., hi-1]; the fuel is enough when it covers [hi - k0]. *)
Lemma for_loop_range (cond : Z -> bool) (body : Z -> list Task) hi :
  forall fuel k0,
  - 2 ^ 63 <= k0 <= hi -> hi <= INT64_MAX ->
  (forall k, k0 <= k < hi -> cond k = true) ->
  cond hi = false ->
  (Z.to_nat (hi - k0) <= fuel)%nat ->
  for_loop fuel k0 cond body = seqZ k0 (hi - k0) ≫= body.
Proof.
  induction fuel as [|fuel IH]; intros k0 Hk0 Hhi Htrue Hfalse Hfuel.
  - rewrite seqZ_nil by lia. reflexivity.
  - simpl. destruct (decide (k0 = hi)) as [->|Hne].
    + rewrite Hfalse, seqZ_nil by lia. reflexivity.
    + rewrite Htrue by lia. rewrite seqZ_cons by lia.
      rewrite bind_cons, int64_wrap_id by lia.
      rewrite IH; try lia.
      * f_equal. f_equal. f_equal; lia.
      * intros k Hk. apply Htrue. lia.
      * done.
Qed.

Lemma bind_ext_in {X Y} (f g : X -> list Y) (l : list X) :
  (forall x, x ∈ l -> f x = g x) -> l ≫= f = l ≫= g.
Proof.
  induction l as [|x l IH]; intros H; [done|].
  rewrite !bind_cons, H, IH; [done| |]; intros; try apply H; set_solver.
Qed.

Lemma bind_singleton_fmap {X Y} (f : X -> Y) (l : list X) :
  l ≫= (fun x => [f x]) = f <$> l.
Proof. induction l as [|x l IH]; [done|]. by rewrite bind_cons, fmap_cons, IH. Qed.

(** The issue list, once the arithmetic is known not to overflow. *)
Lemma herk_tasks_unfold alpha beta nt la :
  1 <= nt -> 0 <= la -> la + nt <= INT64_MAX ->
  herk_tasks alpha beta nt la
  = disseminate_task la 0
    :: (disseminate_task la <$> seqZ 1 (Z.min la (nt - 1)))
    ++ advance_task alpha beta 0
    :: (seqZ 1 (nt - 1) ≫= fun k =>
          (if decide (k + la < nt) then [disseminate_task la (k + la)] else [])
          ++ [advance_task alpha beta k]).
Proof.
  intros Hnt Hla Hmax. unfold herk_tasks, INT64_MAX in *.
  rewrite (for_loop_range _ _ (Z.min la (nt - 1) + 1));
    [|lia|unfold INT64_MAX; lia| | |lia].
  2:{ intros k Hk. rewrite int64_wrap_id by (unfold INT64_MAX; lia).
      apply andb_true_iff. split; apply Z.ltb_lt; lia. }
  2:{ rewrite int64_wrap_id by (unfold INT64_MAX; lia).
      apply andb_false_iff. rewrite !Z.ltb_ge. lia. }
  rewrite (for_loop_range _ _ nt);
    [|lia|unfold INT64_MAX; lia| | |lia].
  2:{ intros k Hk. apply Z.ltb_lt. lia. }
  2:{ apply Z.ltb_ge. lia. }
  replace (Z.min la (nt - 1) + 1 - 1) with (Z.min la (nt - 1)) by lia.
  simpl. f_equal. f_equal; [|f_equal].
  - rewrite <- bind_singleton_fmap. apply bind_ext_in.
    intros k Hk%elem_of_seqZ. unfold disseminate_task.
    rewrite decide_False, decide_True by lia. done.
  - apply bind_ext_in. intros k Hk%elem_of_seqZ.
    rewrite int64_wrap_id by (unfold INT64_MAX; lia).
    unfold advance_task. rewrite (decide_False (P := k = 0)) by lia.
    f_equal. destruct (decide (k + la < nt)) as [Hlt|Hge].
    + rewrite (proj2 (Z.ltb_lt _ _)) by done. unfold disseminate_task.
      rewrite !decide_False by lia.
      replace (k + la - la) with k by lia. done.
    + rewrite (proj2 (Z.ltb_ge _ _)) by lia. done.
Qed.

(** *** The depend clauses of each step *)

Lemma disseminate_task_out la c : dep_out (disseminate_task la c) = [bcast c].
Proof.
  unfold disseminate_task.
  destruct (decide (c = 0)) as [->|]; [done|]. by destruct (decide (c <= la)).
Qed.

Lemma disseminate_task_work la c :
  work (disseminate_task la c) = bcast_column c.
Proof.
  unfold disseminate_task.
  destruct (decide (c = 0)) as [->|]; [done|]. by destruct (decide (c <= la)).
Qed.

Lemma disseminate_task_in la c :
  0 <= la -> 0 <= c <= INT64_MAX ->
  dep_in (disseminate_task la c)
  = if decide (c = 0) then []
    else if decide (c <= la) then [bcast (c - 1)]
    else [gemm (c - la - 1); bcast (c - 1)].
Proof.
  intros Hla Hc. unfold disseminate_task, INT64_MAX in *.
  destruct (decide (c = 0)); [done|].
  destruct (decide (c <= la)); simpl;
    rewrite !int64_wrap_id by (unfold INT64_MAX; lia); done.
Qed.

Lemma advance_task_out alpha beta k :
  dep_out (advance_task alpha beta k) = [gemm k].
Proof. unfold advance_task. by destruct (decide (k = 0)) as [->|]. Qed.

Lemma advance_task_work alpha beta k :
  work (advance_task alpha beta k)
  = internal_herk alpha k (if decide (k = 0) then beta else one).
Proof. unfold advance_task. by destruct (decide (k = 0)) as [->|]. Qed.

Lemma advance_task_in alpha beta k :
  0 <= k <= INT64_MAX ->
  dep_in (advance_task alpha beta k)
  = if decide (k = 0) then [bcast 0] else [bcast k; gemm (k - 1)].
Proof.
  intros Hk. unfold advance_task, INT64_MAX in *.
  destruct (decide (k = 0)); [done|]. simpl.
  rewrite int64_wrap_id by (unfold INT64_MAX; lia). done.
Qed.

(** *** The issue order as a timeline *)

(** A number that grows along the issue list: the broadcasts issued
    ahead of the first update come first, then the first update, then
    for each [k] the broadcast of [k + la] and the update [k]. *)
Definition issue_rank (la : Z) (t : Task) : Z :=
  match dep_out t with
  | [gemm k] => 2 * k + 1
  | [bcast c] => if decide (c <= la) then c - la - 1 else 2 * (c - la)
  | _ => 0
  end.

Lemma issue_rank_disseminate la c :
  issue_rank la (disseminate_task la c)
  = if decide (c <= la) then c - la - 1 else 2 * (c - la).
Proof. unfold issue_rank. by rewrite disseminate_task_out. Qed.

Lemma issue_rank_advance la alpha beta k :
  issue_rank la (advance_task alpha beta k) = 2 * k + 1.
Proof. unfold issue_rank. by rewrite advance_task_out. Qed.

Definition issued_earlier (la : Z) : relation Task :=
  fun t1 t2 => issue_rank la t1 < issue_rank la t2.

Lemma StronglySorted_seqZ lo n : StronglySorted Z.lt (seqZ lo n).
Proof.
  remember (Z.to_nat n) as len eqn:E.
  revert lo n E. induction len as [|len IH]; intros lo n E.
  - rewrite seqZ_nil by lia. constructor.
  - rewrite seqZ_cons by lia. constructor.
    + apply IH. lia.
    + apply Forall_seqZ. lia.
Qed.

Lemma StronglySorted_bind {X Y} (R : relation Y) (f : X -> list Y)
    (S : relation X) (l : list X) :
  StronglySorted S l ->
  (forall x, x ∈ l -> StronglySorted R (f x)) ->
  (forall x x' y y', x ∈ l -> x' ∈ l -> S x x' -> y ∈ f x -> y' ∈ f x' ->
     R y y') ->
  StronglySorted R (l ≫= f).
Proof.
  induction 1 as [|x l Hl IH Hx]; intros Hin Hout; [constructor|].
  rewrite bind_cons. apply StronglySorted_app_2.
  - intros y y' Hy (x' & Hy' & Hx')%list_elem_of_bind.
    apply (Hout x x'); try done; [set_solver | set_solver |].
    rewrite Forall_forall in Hx. by apply Hx.
  - apply Hin. set_solver.
  - apply IH; [intros; apply Hin; set_solver|].
    intros x1 x2 y y' ? ?. apply Hout; set_solver.
Qed.

Lemma herk_tasks_sorted alpha beta nt la :
  1 <= nt -> 0 <= la -> la + nt <= INT64_MAX ->
  StronglySorted (issued_earlier la) (herk_tasks alpha beta nt la).
Proof.
  intros Hnt Hla Hmax. rewrite herk_tasks_unfold by done.
  change (?x :: ?l ++ ?y :: ?l') with ((x :: l) ++ ([y] ++ l')).
  unfold issued_earlier.
  assert (Hrd := issue_rank_disseminate la).
  assert (Hra := issue_rank_advance la alpha beta).
  assert (Hfirst : forall t,
    t ∈ disseminate_task la 0 :: (disseminate_task la <$> seqZ 1 (Z.min la (nt - 1))) ->
    issue_rank la t < 0).
  { intros t [->|(c & -> & Hc%elem_of_seqZ)%list_elem_of_fmap]%elem_of_cons;
      rewrite Hrd; rewrite decide_True by lia; lia. }
  assert (Hmain : forall t,
    t ∈ (seqZ 1 (nt - 1) ≫= fun k =>
          (if decide (k + la < nt) then [disseminate_task la (k + la)] else [])
          ++ [advance_task alpha beta k]) ->
    2 <= issue_rank la t).
  { intros t (k & Ht & Hk%elem_of_seqZ)%list_elem_of_bind.
    apply elem_of_app in Ht as [Ht|Ht%list_elem_of_singleton].
    - destruct (decide (k + la < nt)); [|by apply elem_of_nil in Ht].
      apply list_elem_of_singleton in Ht as ->.
      rewrite Hrd, decide_False by lia. lia.
    - subst t. rewrite Hra. lia. }
  apply StronglySorted_app_2.
  - intros t1 t2 H1%Hfirst [->%list_elem_of_singleton|H2%Hmain]%elem_of_app;
      [rewrite Hra|]; lia.
  - change (disseminate_task la 0 :: ?l) with ([disseminate_task la 0] ++ l).
    apply StronglySorted_app_2; [|repeat constructor|].
    + intros t1 t2 ->%list_elem_of_singleton
        (c & -> & Hc%elem_of_seqZ)%list_elem_of_fmap.
      rewrite !Hrd, !decide_True by lia. lia.
    + rewrite <- bind_singleton_fmap.
      apply (StronglySorted_bind _ _ Z.lt); [apply StronglySorted_seqZ| |].
      * intros; repeat constructor.
      * intros c c' t t' Hc%elem_of_seqZ Hc'%elem_of_seqZ Hlt
          ->%list_elem_of_singleton ->%list_elem_of_singleton.
        rewrite !Hrd, !decide_True by lia. lia.
  - apply StronglySorted_app_2; [|repeat constructor|].
    + intros t1 t2 ->%list_elem_of_singleton H2%Hmain. rewrite Hra. lia.
    + apply (StronglySorted_bind _ _ Z.lt); [apply StronglySorted_seqZ| |].
      * intros k Hk%elem_of_seqZ. apply StronglySorted_app_2.
        -- intros t1 t2 H1 ->%list_elem_of_singleton.
           destruct (decide (k + la < nt)); [|by apply elem_of_nil in H1].
           apply list_elem_of_singleton in H1 as ->.
           rewrite Hrd, Hra, decide_False by lia. lia.
        -- destruct (decide (k + la < nt)); repeat constructor.
        -- repeat constructor.
      * intros k k' t t' Hk%elem_of_seqZ Hk'%elem_of_seqZ Hlt Ht Ht'.
        assert (Hb : forall k0 t0, 1 <= k0 ->
          t0 ∈ (if decide (k0 + la < nt)
                then [disseminate_task la (k0 + la)] else [])
               ++ [advance_task alpha beta k0] ->
          2 * k0 <= issue_rank la t0 <= 2 * k0 + 1).
        { intros k0 t0 Hk0 [H0|H0%list_elem_of_singleton]%elem_of_app.
          - destruct (decide (k0 + la < nt)); [|by apply elem_of_nil in H0].
            apply list_elem_of_singleton in H0 as ->.
            rewrite Hrd, decide_False by lia. lia.
          - subst t0. rewrite Hra. lia. }
        apply Hb in Ht, Ht'; lia.
Qed.

Lemma issued_earlier_NoDup la G :
  StronglySorted (issued_earlier la) G -> NoDup G.
Proof.
  induction 1 as [|t G HG IH Ht]; constructor; [|done].
  intros Hin. rewrite Forall_forall in Ht. specialize (Ht _ Hin).
  unfold issued_earlier in Ht. lia.
Qed.

Lemma herk_tasks_NoDup alpha beta nt la :
  1 <= nt -> 0 <= la -> la + nt <= INT64_MAX ->
  NoDup (herk_tasks alpha beta nt la).
Proof. intros. by eapply issued_earlier_NoDup, herk_tasks_sorted. Qed.

(** The issue list holds one broadcast and one update per block column. *)
Lemma elem_of_herk_tasks alpha beta nt la t :
  1 <= nt -> 0 <= la -> la + nt <= INT64_MAX ->
  t ∈ herk_tasks alpha beta nt la
  <-> (exists c, 0 <= c < nt /\ t = disseminate_task la c)
      \/ (exists k, 0 <= k < nt /\ t = advance_task alpha beta k).
Proof.
  intros Hnt Hla Hmax. rewrite herk_tasks_unfold by done.
  rewrite elem_of_cons, elem_of_app, elem_of_cons, list_elem_of_fmap,
    list_elem_of_bind.
  setoid_rewrite elem_of_app. setoid_rewrite elem_of_seqZ.
  setoid_rewrite list_elem_of_singleton.
  split.
  - intros [->|[(c & -> & Hc)|[->|(k & [Hd| ->] & Hk)]]].
    + left. exists 0. split; [lia|done].
    + left. exists c. split; [lia|done].
    + right. exists 0. split; [lia|done].
    + destruct (decide (k + la < nt)); [|by apply elem_of_nil in Hd].
      apply list_elem_of_singleton in Hd as ->.
      left. exists (k + la). split; [lia|done].
    + right. exists k. split; [lia|done].
  - intros [(c & Hc & ->)|(k & Hk & ->)].
    + destruct (decide (c = 0)) as [->|]; [by left|].
      destruct (decide (c <= la)).
      * right. left. exists c. split; [done|lia].
      * right. right. right. exists (c - la). split; [|lia]. left.
        rewrite decide_True by lia. replace (c - la + la) with c by lia.
        by apply list_elem_of_singleton.
    + destruct (decide (k = 0)) as [->|]; [by right; right; left|].
      right. right. right. exists k. split; [by right|lia].
Qed.

(** *** What a task waits for *)

Lemma waits_for_flow t t' x :
  x ∈ dep_out t' -> x ∈ dep_in t -> waits_for t t' = true.
Proof.
  intros Hout Hin. unfold waits_for. apply orb_true_iff. left.
  apply existsb_exists. exists x. split; [by apply list_elem_of_In|].
  unfold mentions. rewrite (bool_decide_eq_true_2 (x ∈ dep_in t)); done.
Qed.

(** In an issue list that the timeline sorts, the tasks a task waits for
    are the earlier ones it depends on. *)
Lemma predecessors_sorted la G t p :
  StronglySorted (issued_earlier la) G -> t ∈ G ->
  p ∈ predecessors G t
  <-> p ∈ G /\ issue_rank la p < issue_rank la t /\ waits_for t p = true.
Proof.
  induction 1 as [|x G HG IH Hx]; intros Ht; [by apply elem_of_nil in Ht|].
  rewrite Forall_forall in Hx. unfold issued_earlier in Hx. simpl.
  destruct (decide (x = t)) as [->|Hne].
  - split; [by intros ?%elem_of_nil|].
    intros ([->|Hp%Hx]%elem_of_cons & Hlt & _); lia.
  - apply elem_of_cons in Ht as [->|Ht]; [done|].
    rewrite elem_of_app, IH, elem_of_cons by done. specialize (Hx _ Ht).
    destruct (waits_for t x) eqn:Hw.
    + rewrite list_elem_of_singleton. split; [|tauto].
      intros [->|?]; tauto.
    + split; [intros [?%elem_of_nil|?]; tauto|].
      intros ([->|?] & ? & ?); [congruence|tauto].
Qed.

(** A task only waits for tasks issued before it. *)
Lemma predecessors_issued_before G1 G2 t p :
  p ∈ predecessors (G1 ++ t :: G2) t -> p ∈ G1.
Proof.
  induction G1 as [|x G1 IH]; simpl.
  - rewrite decide_True by done. by intros ?%elem_of_nil.
  - destruct (decide (x = t)); [by intros ?%elem_of_nil|].
    rewrite elem_of_app, elem_of_cons.
    destruct (waits_for t x).
    + intros [->%list_elem_of_singleton|?]; [by left|right; by apply IH].
    + intros [?%elem_of_nil|?]; [done|right; by apply IH].
Qed.

(** *** Execution orders *)

Lemma runs_in_order_split G done s1 t s2 :
  runs_in_order G done (s1 ++ t :: s2) = true ->
  t ∈ G /\ (t ∉ done) /\ (t ∉ s1)
  /\ (forall p, p ∈ predecessors G t -> p ∈ done \/ p ∈ s1).
Proof.
  revert done. induction s1 as [|x s1 IH]; intros done; simpl.
  - rewrite !andb_true_iff, !bool_decide_eq_true, forallb_forall.
    intros [[[HG Hd] Hp] _]. repeat split; [done|done|by intros ?%elem_of_nil|].
    intros p Hin. left. apply list_elem_of_In, Hp in Hin.
    by apply bool_decide_eq_true in Hin.
  - rewrite !andb_true_iff, !bool_decide_eq_true.
    intros [[[HG Hd] _] (Ht & Htd & Hts & Hp)%IH].
    rewrite not_elem_of_cons in Htd. destruct Htd as [Hne Htd].
    repeat split; [done|done|by apply not_elem_of_cons|].
    intros p [[->|?]%elem_of_cons|?]%Hp; [right; by left|by left|right; by right].
Qed.

Lemma runs_in_order_NoDup G done sched :
  runs_in_order G done sched = true ->
  NoDup sched /\ (forall t, t ∈ sched -> t ∈ G /\ (t ∉ done)).
Proof.
  revert done. induction sched as [|x sched IH]; intros done; simpl.
  - intros _. split; [constructor|by intros ? ?%elem_of_nil].
  - rewrite !andb_true_iff, !bool_decide_eq_true.
    intros [[[HG Hd] _] [Hnd Hall]%IH]. split.
    + constructor; [|done]. intros Hin. apply Hall in Hin as [_ Hin].
      apply Hin. by left.
    + intros t [->|Ht]%elem_of_cons; [done|].
      apply Hall in Ht as [? Ht]. split; [done|].
      intros ?. apply Ht. by right.
Qed.

(** A valid schedule runs every task of the issue list exactly once. *)
Lemma valid_schedule_Permutation G sched :
  NoDup G -> valid_schedule G sched = true -> sched ≡ₚ G.
Proof.
  unfold valid_schedule. rewrite andb_true_iff, bool_decide_eq_true.
  intros HG [[Hnd Hall]%runs_in_order_NoDup Hlen].
  apply submseteq_length_Permutation; [|lia].
  apply NoDup_submseteq; [done|]. intros t Ht. by apply Hall.
Qed.

(** In a valid schedule a task runs after the tasks it waits for. *)
Lemma valid_schedule_before G sched t p :
  NoDup G -> valid_schedule G sched = true ->
  t ∈ G -> p ∈ predecessors G t -> before sched p t.
Proof.
  intros HG Hv Ht Hp.
  pose proof (valid_schedule_Permutation _ _ HG Hv) as Hperm.
  rewrite <- Hperm in Ht. apply list_elem_of_split in Ht as (s1 & s2 & ->).
  unfold valid_schedule in Hv. apply andb_true_iff in Hv as [Hv _].
  apply runs_in_order_split in Hv as (_ & _ & _ & Hpred).
  destruct (Hpred _ Hp) as [[]%elem_of_nil|Hin].
  apply list_elem_of_split in Hin as (l1 & l2 & ->).
  exists l1, l2, s2. by rewrite <- app_assoc.
Qed.

(** The issue order itself is a valid schedule: the fully serial run. *)
Lemma issue_order_runs G1 : forall G2,
  NoDup (G1 ++ G2) -> runs_in_order (G1 ++ G2) (reverse G1) G2 = true.
Proof.
  intros G2. revert G1. induction G2 as [|t G2 IH]; intros G1 Hnd; [done|].
  simpl. rewrite !andb_true_iff, !bool_decide_eq_true. repeat split.
  - set_solver.
  - rewrite elem_of_reverse. apply NoDup_app in Hnd as (_ & Hd & _).
    intros Hin. apply (Hd _ Hin). by left.
  - apply forallb_forall. intros p Hp%list_elem_of_In.
    apply bool_decide_eq_true. rewrite elem_of_reverse.
    by eapply predecessors_issued_before.
  - specialize (IH (G1 ++ [t])). rewrite reverse_app, <- app_assoc in IH.
    apply IH. done.
Qed.

Lemma issue_order_valid G : NoDup G -> valid_schedule G G = true.
Proof.
  intros Hnd. unfold valid_schedule.
  pose proof (issue_order_runs [] G Hnd) as Hrun.
  rewrite reverse_nil in Hrun. simpl in Hrun. rewrite Hrun. by rewrite bool_decide_eq_true_2.
Qed.

(** In a list without repetition an element splits the list in one way
    only, so that "runs before" is transitive. *)
Lemma NoDup_split_unique (l1 : list Task) : forall l1' l2 l2' t,
  NoDup (l1 ++ t :: l2) -> l1 ++ t :: l2 = l1' ++ t :: l2' ->
  l1 = l1' /\ l2 = l2'.
Proof.
  induction l1 as [|x l1 IH]; intros l1' l2 l2' t Hnd Heq.
  - destruct l1' as [|y l1']; simpl in *.
    + by injection Heq as ->.
    + injection Heq as -> ->. apply NoDup_cons in Hnd as [Hin _].
      exfalso. apply Hin, elem_of_app. right. by left.
  - destruct l1' as [|y l1']; simpl in *.
    + injection Heq as -> <-. apply NoDup_cons in Hnd as [Hin _].
      exfalso. apply Hin, elem_of_app. right. by left.
    + injection Heq as -> Heq. apply NoDup_cons in Hnd as [_ Hnd].
      destruct (IH _ _ _ _ Hnd Heq) as [-> ->]. done.
Qed.

Lemma before_trans sched t1 t2 t3 :
  NoDup sched -> before sched t1 t2 -> before sched t2 t3 ->
  before sched t1 t3.
Proof.
  intros Hnd (l1 & l2 & l3 & H12) (l1' & l2' & l3' & H23).
  assert (Heq : (l1 ++ t1 :: l2) ++ t2 :: l3 = l1' ++ t2 :: l2' ++ t3 :: l3').
  { rewrite <- H23, H12, <- app_assoc. done. }
  apply NoDup_split_unique in Heq as [<- ->].
  - exists l1, (l2 ++ t2 :: l2'), l3'. rewrite H12, <- !app_assoc. done.
  - rewrite <- app_assoc. simpl. by rewrite <- H12.
Qed.

(** *** The dependences of the pipeline *)

Ltac in_list :=
  repeat first [apply list_elem_of_here | apply list_elem_of_further].

Section Pipeline.
Variables (alpha beta : real_t) (nt la : Z).
Hypothesis (Hnt : 1 <= nt) (Hla : 0 <= la) (Hmax : la + nt <= INT64_MAX).

Let G := herk_tasks alpha beta nt la.

Lemma disseminate_issued c : 0 <= c < nt -> disseminate_task la c ∈ G.
Proof. intros. apply elem_of_herk_tasks; eauto. Qed.

Lemma advance_issued k : 0 <= k < nt -> advance_task alpha beta k ∈ G.
Proof. intros. apply elem_of_herk_tasks; eauto. Qed.

Lemma advance_waits_for_advance k :
  1 <= k < nt ->
  advance_task alpha beta (k - 1) ∈ predecessors G (advance_task alpha beta k).
Proof.
  intros Hk. apply (predecessors_sorted la);
    [by apply herk_tasks_sorted|apply advance_issued; lia|].
  split; [apply advance_issued; lia|]. rewrite !issue_rank_advance.
  split; [lia|]. apply (waits_for_flow _ _ (gemm (k - 1))).
  - rewrite advance_task_out. by left.
  - rewrite advance_task_in, decide_False by (unfold INT64_MAX in *; lia).
    in_list.
Qed.

Lemma advance_waits_for_disseminate k :
  0 <= k < nt ->
  disseminate_task la k ∈ predecessors G (advance_task alpha beta k).
Proof.
  intros Hk. apply (predecessors_sorted la);
    [by apply herk_tasks_sorted|apply advance_issued; lia|].
  split; [apply disseminate_issued; lia|].
  rewrite issue_rank_advance, issue_rank_disseminate.
  split; [destruct (decide (k <= la)); lia|].
  apply (waits_for_flow _ _ (bcast k)).
  - rewrite disseminate_task_out. by left.
  - rewrite advance_task_in by (unfold INT64_MAX in *; lia).
    destruct (decide (k = 0)) as [->|]; in_list.
Qed.

Lemma disseminate_waits_for_advance c :
  la < c < nt ->
  advance_task alpha beta (c - la - 1) ∈ predecessors G (disseminate_task la c).
Proof.
  intros Hc. apply (predecessors_sorted la);
    [by apply herk_tasks_sorted|apply disseminate_issued; lia|].
  split; [apply advance_issued; lia|].
  rewrite issue_rank_advance, issue_rank_disseminate, decide_False by lia.
  split; [lia|]. apply (waits_for_flow _ _ (gemm (c - la - 1))).
  - rewrite advance_task_out. by left.
  - rewrite disseminate_task_in, !decide_False
      by (unfold INT64_MAX in *; lia). in_list.
Qed.

Lemma disseminate_waits_for_disseminate c :
  1 <= c < nt ->
  disseminate_task la (c - 1) ∈ predecessors G (disseminate_task la c).
Proof.
  intros Hc. apply (predecessors_sorted la);
    [by apply herk_tasks_sorted|apply disseminate_issued; lia|].
  split; [apply disseminate_issued; lia|].
  rewrite !issue_rank_disseminate.
  split; [destruct (decide (c - 1 <= la)), (decide (c <= la)); lia|].
  apply (waits_for_flow _ _ (bcast (c - 1))).
  - rewrite disseminate_task_out. by left.
  - rewrite disseminate_task_in, decide_False
      by (unfold INT64_MAX in *; lia).
    destruct (decide (c <= la)); in_list.
Qed.

Lemma first_disseminate_waits_for_nothing :
  predecessors G (disseminate_task la 0) = [].
Proof.
  unfold G. rewrite herk_tasks_unfold by done. simpl.
  reflexivity.
Qed.

End Pipeline.

(** C6.  The first broadcast has no input dependence and waits for no
    task.  For [k >= 1] the task that produces [bcast[k+lookahead]]
    lists [gemm[k-1]] and [bcast[k+lookahead-1]] as inputs and waits for
    advance(k-1) and disseminate(k+lookahead-1); the task advance(k)
    lists [bcast[k]] and [gemm[k-1]] and waits for disseminate(k) and
    advance(k-1).  Hence in every execution order the updates run in the
    order of [k], each after the broadcast of its column, the broadcasts
    run in the order of their columns, and the broadcast of column
    [k+lookahead] runs after the update [k-1]: no broadcast is more than
    [lookahead] columns ahead of the updates. *)
Theorem herk_pipeline_dependences alpha beta nt la :
  1 <= nt -> 0 <= la -> la + nt <= INT64_MAX ->
  let G := herk_tasks alpha beta nt la in
  let disseminate := disseminate_task la in
  let advance := advance_task alpha beta in
  (disseminate 0 ∈ G /\ dep_in (disseminate 0) = []
   /\ dep_out (disseminate 0) = [bcast 0]
   /\ predecessors G (disseminate 0) = [])
  /\ (forall k, 1 <= k -> k + la < nt ->
       disseminate (k + la) ∈ G
       /\ dep_in (disseminate (k + la)) = [gemm (k - 1); bcast (k + la - 1)]
       /\ dep_out (disseminate (k + la)) = [bcast (k + la)]
       /\ advance (k - 1) ∈ predecessors G (disseminate (k + la))
       /\ disseminate (k + la - 1) ∈ predecessors G (disseminate (k + la)))
  /\ (forall k, 1 <= k < nt ->
       advance k ∈ G
       /\ dep_in (advance k) = [bcast k; gemm (k - 1)]
       /\ dep_out (advance k) = [gemm k]
       /\ advance (k - 1) ∈ predecessors G (advance k)
       /\ disseminate k ∈ predecessors G (advance k))
  /\ (forall sched, valid_schedule G sched = true ->
       (forall k, 0 <= k < nt -> before sched (disseminate k) (advance k))
       /\ (forall k k', 0 <= k -> k < k' -> k' < nt ->
            before sched (advance k) (advance k'))
       /\ (forall c, 1 <= c < nt ->
            before sched (disseminate (c - 1)) (disseminate c))
       /\ (forall k, 1 <= k -> k + la < nt ->
            before sched (advance (k - 1)) (disseminate (k + la)))).
Proof.
  intros Hnt Hla Hmax G disseminate advance.
  assert (Hnd : NoDup G) by by apply herk_tasks_NoDup.
  split; [|split; [|split]].
  - split; [by apply disseminate_issued; lia|]. split; [done|]. split; [done|].
    by apply first_disseminate_waits_for_nothing.
  - intros k Hk Hkla. split; [apply disseminate_issued; lia|].
    split; [|split; [apply disseminate_task_out|split]].
    + unfold disseminate.
      rewrite disseminate_task_in, !decide_False
        by (unfold INT64_MAX in *; lia).
      do 3 f_equal; lia.
    + replace (k - 1) with (k + la - la - 1) by lia.
      apply disseminate_waits_for_advance; lia.
    + apply disseminate_waits_for_disseminate; lia.
  - intros k Hk. split; [apply advance_issued; lia|].
    split; [|split; [apply advance_task_out|split]].
    + unfold advance. rewrite advance_task_in, decide_False
        by (unfold INT64_MAX in *; lia). done.
    + apply advance_waits_for_advance; lia.
    + apply advance_waits_for_disseminate; lia.
  - intros sched Hv.
    assert (Hsched : NoDup sched).
    { rewrite (valid_schedule_Permutation G sched); done. }
    assert (Hnext : forall k, 1 <= k < nt ->
              before sched (advance (k - 1)) (advance k)).
    { intros k Hk. apply (valid_schedule_before G); try done.
      - apply advance_issued; lia.
      - apply advance_waits_for_advance; lia. }
    split; [|split; [|split]].
    + intros k Hk. apply (valid_schedule_before G); try done.
      * apply advance_issued; lia.
      * apply advance_waits_for_disseminate; lia.
    + assert (Hgap : forall (d : nat) k, 0 <= k -> k + 1 + Z.of_nat d < nt ->
                before sched (advance k) (advance (k + 1 + Z.of_nat d))).
      { induction d as [|d IH]; intros k Hk Hlt.
        - pose proof (Hnext (k + 1 + Z.of_nat 0) ltac:(lia)) as Hb.
          replace (k + 1 + Z.of_nat 0 - 1) with k in Hb by lia. exact Hb.
        - apply (before_trans _ _ (advance (k + 1 + Z.of_nat d)));
            [done|apply IH; lia|].
          pose proof (Hnext (k + 1 + Z.of_nat (S d)) ltac:(lia)) as Hb.
          replace (k + 1 + Z.of_nat (S d) - 1) with (k + 1 + Z.of_nat d)
            in Hb by lia.
          exact Hb. }
      intros k k' Hk Hlt Hk'.
      replace k' with (k + 1 + Z.of_nat (Z.to_nat (k' - k - 1))) by lia.
      apply Hgap; lia.
    + intros c Hc. apply (valid_schedule_before G); try done.
      * apply disseminate_issued; lia.
      * apply disseminate_waits_for_disseminate; lia.
    + intros k Hk Hkla. apply (valid_schedule_before G); try done.
      * apply disseminate_issued; lia.
      * replace (k - 1) with (k + la - la - 1) by lia.
        apply disseminate_waits_for_advance; lia.
Qed.

End GraphProperties.

(** ** Properties of the tile memory *)

Section MemoryProperties.
Context {K : Kernels}.
Implicit Types (m src acc : Memory) (C : HermitianMatrix) (A : Matrix)
  (ij key : Z * Z) (l : list (Z * Z)).

#[local] Instance stored_at_inj C : Inj (=) (=) (stored_at C).
Proof.
  intros [i j] [i' j']. unfold stored_at. destruct (h_op C); simpl; congruence.
Qed.

Lemma elem_of_lower_tiles mt i j :
  (i, j) ∈ lower_tiles mt <-> 0 <= j /\ j <= i /\ i < mt.
Proof.
  unfold lower_tiles. rewrite list_elem_of_bind.
  setoid_rewrite list_elem_of_bind. setoid_rewrite list_elem_of_singleton.
  setoid_rewrite elem_of_seqZ. split.
  - intros (j' & (i' & [= -> ->] & Hi) & Hj). lia.
  - intros Hij. exists j. split; [|lia]. exists i. split; [done|lia].
Qed.

Lemma NoDup_lower_tiles mt : NoDup (lower_tiles mt).
Proof.
  unfold lower_tiles. apply NoDup_bind; [| |apply NoDup_seqZ].
  - intros j1 j2 [i j] _ _ (i1 & H1 & _)%list_elem_of_bind
      (i2 & H2 & _)%list_elem_of_bind.
    apply list_elem_of_singleton in H1, H2. congruence.
  - intros j _. apply NoDup_bind; [| |apply NoDup_seqZ].
    + intros i1 i2 [i j'] _ _ H1%list_elem_of_singleton
        H2%list_elem_of_singleton. congruence.
    + intros i _. apply NoDup_singleton.
Qed.

Lemma elem_of_local_tiles C i j :
  (i, j) ∈ local_tiles C
  <-> tileIsLocal C (i, j) = true /\ 0 <= j /\ j <= i /\ i < h_mt C.
Proof. unfold local_tiles. by rewrite list_elem_of_filter, elem_of_lower_tiles. Qed.

Lemma NoDup_local_keys C : NoDup (stored_at C <$> local_tiles C).
Proof.
  apply NoDup_fmap_2; [apply _|]. apply NoDup_filter, NoDup_lower_tiles.
Qed.

Lemma tile_current_ext m1 m2 key :
  C_host m1 !! key = C_host m2 !! key ->
  C_device m1 !! key = C_device m2 !! key ->
  tile_current m1 key = tile_current m2 key.
Proof. unfold tile_current. by intros -> ->. Qed.

Lemma panel_tile_ext A k m1 m2 i :
  A_here m1 = A_here m2 -> panel_tile A k m1 i = panel_tile A k m2 i.
Proof. unfold panel_tile. by intros ->. Qed.

(** What writing a tile does, on the host and on the device alike. *)
Definition writes_tile (put : Memory -> Z * Z -> CTile -> Memory) : Prop :=
  forall m key c,
    tile_current (put m key c) key = Some c
    /\ A_here (put m key c) = A_here m
    /\ calls (put m key c) = calls m
    /\ (forall key', key' ≠ key ->
         C_host (put m key c) !! key' = C_host m !! key'
         /\ C_device (put m key c) !! key' = C_device m !! key').

Lemma host_put_writes : writes_tile host_put.
Proof.
  intros m key c. unfold tile_current, host_put. simpl.
  rewrite lookup_delete_eq, lookup_insert_eq.
  split; [done|]. split; [done|]. split; [done|]. intros key' Hne.
  split; [by rewrite lookup_insert_ne | by rewrite lookup_delete_ne].
Qed.

Lemma device_put_writes : writes_tile device_put.
Proof.
  intros m key c. unfold tile_current, device_put. simpl.
  rewrite lookup_insert_eq.
  split; [done|]. split; [done|]. split; [done|]. intros key' Hne.
  split; [done | by rewrite lookup_insert_ne].
Qed.

(** The new content of a tile, given the memory the kernel reads. *)
Definition unit_result (alpha : real_t) A (k : Z) (beta : real_t) C src ij
    (c : CTile) : CTile :=
  tile_herk (h_op C) alpha (panel_tile A k src ij.1)
    (panel_tile A k src ij.2) beta c.

(** A batch of units over tiles stored apart, all reading [src]: each
    tile present in [src] gets its new content, nothing else moves. *)
Lemma batch_units put alpha A k beta C src l :
  writes_tile put -> forall acc,
  NoDup (stored_at C <$> l) ->
  let m' := foldl (fun m ij => tile_unit put alpha A k beta C src m ij) acc l in
  A_here m' = A_here acc /\ calls m' = calls acc
  /\ (forall ij, ij ∈ l ->
       tile_current m' (stored_at C ij)
       = match tile_current src (stored_at C ij) with
         | Some c => Some (unit_result alpha A k beta C src ij c)
         | None => tile_current acc (stored_at C ij)
         end)
  /\ (forall key, key ∉ stored_at C <$> l ->
       C_host m' !! key = C_host acc !! key
       /\ C_device m' !! key = C_device acc !! key).
Proof.
  intros Hput. induction l as [|x l IH]; intros acc Hnd; simpl.
  - repeat split; try done. by intros ? ?%elem_of_nil.
  - rewrite fmap_cons in Hnd. apply NoDup_cons in Hnd as [Hx Hnd].
    set (acc1 := tile_unit put alpha A k beta C src acc x).
    destruct (IH acc1 Hnd) as (HA & Hc & Hin & Hout).
    assert (H1 : A_here acc1 = A_here acc /\ calls acc1 = calls acc
      /\ tile_current acc1 (stored_at C x)
         = match tile_current src (stored_at C x) with
           | Some c => Some (unit_result alpha A k beta C src x c)
           | None => tile_current acc (stored_at C x)
           end
      /\ (forall key, key ≠ stored_at C x ->
           C_host acc1 !! key = C_host acc !! key
           /\ C_device acc1 !! key = C_device acc !! key)).
    { unfold acc1, tile_unit.
      destruct (tile_current src (stored_at C x)) as [c|]; [|done].
      destruct (Hput acc (stored_at C x)
                  (tile_herk (h_op C) alpha (panel_tile A k src x.1)
                     (panel_tile A k src x.2) beta c)) as (? & ? & ? & ?).
      done. }
    destruct H1 as (HA1 & Hc1 & Hx1 & Hout1).
    split; [congruence|]. split; [congruence|]. split.
    + intros ij [->|Hij]%elem_of_cons.
      * destruct (Hout _ Hx) as [Hh Hd].
        rewrite (tile_current_ext _ acc1) by done. done.
      * rewrite (Hin _ Hij).
        destruct (tile_current src (stored_at C ij)); [done|].
        assert (stored_at C ij ≠ stored_at C x).
        { intros Heq. apply Hx. rewrite <- Heq. by apply list_elem_of_fmap_2. }
        apply tile_current_ext; by apply Hout1.
    + intros key Hkey. apply not_elem_of_cons in Hkey.
      destruct Hkey as [Hne Hkey].
      destruct (Hout _ Hkey) as [-> ->]. by apply Hout1.
Qed.

(** Units run one after the other, each reading what the previous ones
    left, come to the same as the batch. *)
Lemma sequential_units put alpha A k beta C src l :
  writes_tile put -> forall acc,
  NoDup (stored_at C <$> l) ->
  A_here acc = A_here src ->
  (forall ij, ij ∈ l ->
     tile_current acc (stored_at C ij) = tile_current src (stored_at C ij)) ->
  foldl (fun m ij => tile_unit put alpha A k beta C m m ij) acc l
  = foldl (fun m ij => tile_unit put alpha A k beta C src m ij) acc l.
Proof.
  intros Hput. induction l as [|x l IH]; intros acc Hnd HA Hcur; [done|].
  simpl. rewrite fmap_cons in Hnd. apply NoDup_cons in Hnd as [Hx Hnd].
  assert (Hstep : tile_unit put alpha A k beta C acc acc x
                  = tile_unit put alpha A k beta C src acc x).
  { unfold tile_unit. rewrite Hcur by by left.
    by rewrite !(panel_tile_ext A k acc src). }
  rewrite Hstep. apply IH; [done|..].
  - unfold tile_unit. destruct (tile_current src (stored_at C x)); [|done].
    destruct (Hput acc (stored_at C x)
                (tile_herk (h_op C) alpha (panel_tile A k src x.1)
                   (panel_tile A k src x.2) beta c)) as (_ & -> & _). done.
  - intros ij Hij. rewrite <- Hcur by by right.
    unfold tile_unit. destruct (tile_current src (stored_at C x)); [|done].
    destruct (Hput acc (stored_at C x)
                (tile_herk (h_op C) alpha (panel_tile A k src x.1)
                   (panel_tile A k src x.2) beta c)) as (_ & _ & _ & Hne).
    assert (stored_at C ij ≠ stored_at C x).
    { intros Heq. apply Hx. rewrite <- Heq. by apply list_elem_of_fmap_2. }
    apply tile_current_ext; by apply Hne.
Qed.

(** Whatever the target, the dispatcher gives every local tile of the
    lower triangle its new content and moves nothing else. *)
Lemma internal_herk_run_spec target alpha A k beta C m :
  let m' := internal_herk_run target alpha A k beta C m in
  A_here m' = A_here m /\ calls m' = calls m
  /\ (forall ij, ij ∈ local_tiles C ->
       tile_current m' (stored_at C ij)
       = unit_result alpha A k beta C m ij <$> tile_current m (stored_at C ij))
  /\ (forall key, key ∉ stored_at C <$> local_tiles C ->
       C_host m' !! key = C_host m !! key
       /\ C_device m' !! key = C_device m !! key).
Proof.
  assert (Hshape : forall put l, writes_tile put ->
    NoDup (stored_at C <$> l) -> l ≡ₚ local_tiles C ->
    let m' := foldl (fun m0 ij => tile_unit put alpha A k beta C m m0 ij) m l in
    A_here m' = A_here m /\ calls m' = calls m
    /\ (forall ij, ij ∈ local_tiles C ->
         tile_current m' (stored_at C ij)
         = unit_result alpha A k beta C m ij <$> tile_current m (stored_at C ij))
    /\ (forall key, key ∉ stored_at C <$> local_tiles C ->
         C_host m' !! key = C_host m !! key
         /\ C_device m' !! key = C_device m !! key)).
  { intros put l Hput Hnd Hperm.
    destruct (batch_units put alpha A k beta C m l Hput m Hnd)
      as (HA & Hc & Hin & Hout).
    split; [done|]. split; [done|]. split.
    - intros ij Hij. rewrite <- Hperm in Hij. rewrite (Hin _ Hij).
      by destruct (tile_current m (stored_at C ij)).
    - intros key Hkey. apply Hout. by rewrite Hperm. }
  pose proof (NoDup_local_keys C) as Hnd.
  assert (Hndw : NoDup (stored_at C <$> worker_order (local_tiles C))).
  { by rewrite worker_order_perm. }
  unfold internal_herk_run. fold (local_tiles C).
  destruct target.
  - rewrite (sequential_units host_put alpha A k beta C m);
      [|apply host_put_writes|done|done|done].
    apply Hshape; [apply host_put_writes|done|apply worker_order_perm].
  - rewrite (sequential_units host_put alpha A k beta C m);
      [|apply host_put_writes|done|done|done].
    apply Hshape; [apply host_put_writes|done|done].
  - apply Hshape; [apply host_put_writes|done|done].
  - apply Hshape; [apply device_put_writes|done|done].
Qed.

(** *** Broadcasts *)

Lemma elem_of_sub i1 i2 j1 j2 i j :
  (i, j) ∈ sub i1 i2 j1 j2 <-> (i1 <= i /\ i <= i2) /\ (j1 <= j /\ j <= j2).
Proof.
  unfold sub. rewrite list_elem_of_bind.
  setoid_rewrite list_elem_of_bind. setoid_rewrite list_elem_of_singleton.
  setoid_rewrite elem_of_seqZ. split.
  - intros (i' & (j' & [= -> ->] & Hj) & Hi). lia.
  - intros Hij. exists i. split; [|lia]. exists j. split; [done|lia].
Qed.

Lemma tileBcast_fold C c (d1 d2 : Z -> list (Z * Z)) (rows : list Z) :
  forall m,
  let m' := foldl (fun m0 i => tileBcast C i c (d1 i) (d2 i) m0) m rows in
  C_host m' = C_host m /\ C_device m' = C_device m /\ calls m' = calls m
  /\ A_here m ⊆ A_here m'
  /\ (forall i, i ∈ rows -> existsb (tileIsLocal C) (d1 i ++ d2 i) = true ->
       (i, c) ∈ A_here m').
Proof.
  induction rows as [|x rows IH]; intros m; simpl.
  - repeat split; try done. by intros ? ?%elem_of_nil.
  - destruct (IH (tileBcast C x c (d1 x) (d2 x) m)) as (Hh & Hd & Hc & Hsub & Hin).
    unfold tileBcast in Hh, Hd, Hc, Hsub, Hin |- *.
    destruct (existsb (tileIsLocal C) (d1 x ++ d2 x)) eqn:Hex; simpl in *.
    + repeat split; try done.
      * intros y Hy. apply Hsub, elem_of_union. by right.
      * intros i [->|Hi]%elem_of_cons Hl; [|by apply Hin].
        apply Hsub, elem_of_union. left. by apply elem_of_singleton.
    + repeat split; try done.
      intros i [->|Hi]%elem_of_cons Hl; [congruence|by apply Hin].
Qed.

(** The broadcast of a block column brings, for every local tile
    [(i, j)] of the lower triangle, the tiles [(i, c)] and [(j, c)] of
    [A]: the destinations [C.sub(i, i, 0, i)] and [C.sub(i, mt-1, i, i)]
    cover the readers. *)
Lemma bcast_column_spec target A C c m :
  let m' := run_work target A C m (bcast_column c) in
  C_host m' = C_host m /\ C_device m' = C_device m /\ calls m' = calls m
  /\ A_here m ⊆ A_here m'
  /\ (m_mt A = h_mt C -> forall ij, ij ∈ local_tiles C ->
       (ij.1, c) ∈ A_here m' /\ (ij.2, c) ∈ A_here m').
Proof.
  simpl.
  destruct (tileBcast_fold C c (fun i => sub i i 0 i)
              (fun i => sub i (h_mt C - 1) i i) (seqZ 0 (m_mt A)) m)
    as (Hh & Hd & Hc & Hsub & Hin).
  split; [done|]. split; [done|]. split; [done|]. split; [done|].
  intros Hmt [i j] (Hl & ? & ? & ?)%elem_of_local_tiles. simpl. split.
  - apply Hin; [apply elem_of_seqZ; lia|]. apply existsb_exists.
    exists (i, j). split; [|done]. apply list_elem_of_In, elem_of_app. left.
    apply elem_of_sub. lia.
  - apply Hin; [apply elem_of_seqZ; lia|]. apply existsb_exists.
    exists (i, j). split; [|done]. apply list_elem_of_In, elem_of_app. right.
    apply elem_of_sub. lia.
Qed.

Lemma panel_tile_here A k m i :
  0 <= i < m_mt A -> (i, k) ∈ A_here m ->
  panel_tile A k m i = Some (m_tile A i k).
Proof.
  intros Hi Hin. unfold panel_tile.
  by rewrite !bool_decide_eq_true_2.
Qed.

(** *** The flush *)

Lemma foldl_ext_in {S X} (f g : S -> X -> S) (l : list X) : forall s,
  (forall s' x, x ∈ l -> f s' x = g s' x) -> foldl f s l = foldl g s l.
Proof.
  induction l as [|x l IH]; intros s H; [done|]. simpl.
  rewrite H by by left. apply IH. intros. apply H. by right.
Qed.

Lemma foldl_bind {S X Y} (g : S -> Y -> S) (f : X -> list Y) (l : list X) :
  forall s, foldl g s (l ≫= f) = foldl (fun s' x => foldl g s' (f x)) s l.
Proof.
  induction l as [|x l IH]; intros s; [done|].
  by rewrite bind_cons, foldl_app, IH.
Qed.

Lemma foldl_filter {S X} (g : S -> X -> S) (P : X -> bool) (l : list X) :
  forall s,
  foldl (fun s' x => if P x then g s' x else s') s l
  = foldl g s (filter (fun x => P x = true) l).
Proof.
  induction l as [|x l IH]; intros s; [done|]. simpl.
  rewrite filter_cons. destruct (P x) eqn:HP.
  - rewrite decide_True by done. simpl. apply IH.
  - rewrite decide_False by congruence. apply IH.
Qed.

(** The two loops of the flush visit the local tiles of the lower
    triangle in order. *)
Lemma flush_unfold C m :
  flush C m
  = clearWorkspace
      (foldl (fun m' ij => tileMoveToHost C ij.1 ij.2 m') m (local_tiles C)).
Proof.
  unfold flush, local_tiles, lower_tiles. f_equal.
  rewrite <- (foldl_filter (fun m' ij => tileMoveToHost C ij.1 ij.2 m')
                (tileIsLocal C)).
  rewrite foldl_bind. apply foldl_ext_in. intros m' j _.
  rewrite foldl_bind. apply foldl_ext_in. intros m'' i _. done.
Qed.

Lemma tileMoveToHost_fold C l : forall m,
  NoDup (stored_at C <$> l) ->
  let m' := foldl (fun m0 ij => tileMoveToHost C ij.1 ij.2 m0) m l in
  A_here m' = A_here m
  /\ calls m' = calls m ++ ((fun ij => call_tileMoveToHost ij.1 ij.2) <$> l)
  /\ (forall ij, ij ∈ l ->
       C_host m' !! stored_at C ij = tile_current m (stored_at C ij))
  /\ (forall key, key ∉ stored_at C <$> l ->
       C_host m' !! key = C_host m !! key
       /\ C_device m' !! key = C_device m !! key).
Proof.
  induction l as [|x l IH]; intros m Hnd; simpl.
  - rewrite app_nil_r. repeat split; try done. by intros ? ?%elem_of_nil.
  - rewrite fmap_cons in Hnd. apply NoDup_cons in Hnd as [Hx Hnd].
    set (m1 := tileMoveToHost C x.1 x.2 m).
    destruct (IH m1 Hnd) as (HA & Hc & Hin & Hout).
    assert (H1 : A_here m1 = A_here m
      /\ calls m1 = calls m ++ [call_tileMoveToHost x.1 x.2]
      /\ C_host m1 !! stored_at C x = tile_current m (stored_at C x)
      /\ (forall key, key ≠ stored_at C x ->
           C_host m1 !! key = C_host m !! key
           /\ C_device m1 !! key = C_device m !! key)).
    { unfold m1, tileMoveToHost, tile_current. destruct x as [i j]. simpl.
      destruct (C_device m !! stored_at C (i, j)) as [c|] eqn:Hdev; simpl.
      - rewrite lookup_insert_eq. repeat split; try done.
        + by rewrite lookup_insert_ne.
        + by rewrite lookup_delete_ne.
      - repeat split; done. }
    destruct H1 as (HA1 & Hc1 & Hx1 & Hout1).
    split; [congruence|]. split; [by rewrite Hc, Hc1, <- app_assoc|]. split.
    + intros ij [->|Hij]%elem_of_cons.
      * destruct (Hout _ Hx) as [-> _]. done.
      * rewrite (Hin _ Hij).
        assert (stored_at C ij ≠ stored_at C x).
        { intros Heq. apply Hx. rewrite <- Heq. by apply list_elem_of_fmap_2. }
        apply tile_current_ext; by apply Hout1.
    + intros key Hkey. apply not_elem_of_cons in Hkey.
      destruct Hkey as [Hne Hkey].
      destruct (Hout _ Hkey) as [-> ->]. by apply Hout1.
Qed.

(** After the flush no device copy is left, the host copy of every
    local tile of the lower triangle holds what was current, and the
    other host copies are as before. *)
Lemma flush_spec C m :
  let m' := flush C m in
  A_here m' = A_here m /\ C_device m' = ∅
  /\ calls m'
     = calls m ++ ((fun ij => call_tileMoveToHost ij.1 ij.2) <$> local_tiles C)
       ++ [call_clearWorkspace]
  /\ (forall ij, ij ∈ local_tiles C ->
       C_host m' !! stored_at C ij = tile_current m (stored_at C ij))
  /\ (forall key, key ∉ stored_at C <$> local_tiles C ->
       C_host m' !! key = C_host m !! key).
Proof.
  rewrite flush_unfold.
  destruct (tileMoveToHost_fold C (local_tiles C) m (NoDup_local_keys C))
    as (HA & Hc & Hin & Hout).
  unfold clearWorkspace. simpl.
  split; [done|]. split; [done|]. split; [by rewrite Hc, <- app_assoc|].
  split; [done|]. intros key Hkey. by apply Hout.
Qed.

(** *** Tasks without a common list item commute *)

(** The execution orders run the tasks one after the other.  That
    stands for their concurrent execution because two tasks that the
    dependences leave unordered touch different data: a broadcast only
    adds tiles of its own block column of [A], an update reads only its
    own block column and writes tiles of [C]. *)
Definition set_A_here (S : gset (Z * Z)) m : Memory :=
  mkMemory S (C_host m) (C_device m) (calls m).

Lemma tile_unit_set_A_here put alpha A k beta C S src acc ij :
  (forall m key c, put (set_A_here S m) key c = set_A_here S (put m key c)) ->
  (forall i, (i, k) ∈ S <-> (i, k) ∈ A_here src) ->
  tile_unit put alpha A k beta C (set_A_here S src) (set_A_here S acc) ij
  = set_A_here S (tile_unit put alpha A k beta C src acc ij).
Proof.
  intros Hput Hcol. unfold tile_unit.
  change (tile_current (set_A_here S src) (stored_at C ij))
    with (tile_current src (stored_at C ij)).
  destruct (tile_current src (stored_at C ij)) as [c|]; [|done].
  assert (Hpanel : forall i,
            panel_tile A k (set_A_here S src) i = panel_tile A k src i).
  { intros i. unfold panel_tile. simpl.
    by rewrite (bool_decide_ext _ _ (Hcol i)). }
  by rewrite Hput, !Hpanel.
Qed.

Lemma batch_set_A_here put alpha A k beta C S src l :
  (forall m key c, put (set_A_here S m) key c = set_A_here S (put m key c)) ->
  (forall i, (i, k) ∈ S <-> (i, k) ∈ A_here src) ->
  forall acc,
  foldl (fun m ij => tile_unit put alpha A k beta C (set_A_here S src) m ij)
    (set_A_here S acc) l
  = set_A_here S
      (foldl (fun m ij => tile_unit put alpha A k beta C src m ij) acc l).
Proof.
  intros Hput Hcol. induction l as [|x l IH]; intros acc; [done|]. simpl.
  by rewrite tile_unit_set_A_here, IH.
Qed.

(** The dispatcher looks at one block column of [A] only. *)
Lemma internal_herk_run_set_A_here target alpha A k beta C S m :
  (forall i, (i, k) ∈ S <-> (i, k) ∈ A_here m) ->
  internal_herk_run target alpha A k beta C (set_A_here S m)
  = set_A_here S (internal_herk_run target alpha A k beta C m).
Proof.
  intros Hcol.
  pose proof (NoDup_local_keys C) as Hnd.
  assert (Hndw : NoDup (stored_at C <$> worker_order (local_tiles C))).
  { by rewrite worker_order_perm. }
  unfold internal_herk_run. fold (local_tiles C).
  destruct target.
  - rewrite (sequential_units host_put alpha A k beta C (set_A_here S m)),
      (sequential_units host_put alpha A k beta C m);
      try done; try apply host_put_writes.
    by apply batch_set_A_here.
  - rewrite (sequential_units host_put alpha A k beta C (set_A_here S m)),
      (sequential_units host_put alpha A k beta C m);
      try done; try apply host_put_writes.
    by apply batch_set_A_here.
  - by apply batch_set_A_here.
  - by apply batch_set_A_here.
Qed.

(** The rows of a block column that a broadcast brings to the process. *)
Definition rows_received (C : HermitianMatrix) (rows : list Z) : list Z :=
  filter (fun i => existsb (tileIsLocal C)
                     (sub i i 0 i ++ sub i (h_mt C - 1) i i) = true) rows.

Lemma bcast_column_set_A_here target A C c m :
  run_work target A C m (bcast_column c)
  = set_A_here
      (list_to_set ((fun i => (i, c)) <$> rows_received C (seqZ 0 (m_mt A)))
       ∪ A_here m) m.
Proof.
  simpl. unfold rows_received.
  induction (seqZ 0 (m_mt A)) as [|i rows IH] using rev_ind.
  - simpl. rewrite (left_id_L ∅ (∪)). by destruct m.
  - rewrite foldl_app, filter_app, fmap_app, list_to_set_app_L. simpl.
    rewrite IH. unfold tileBcast, set_A_here. simpl.
    rewrite filter_cons, filter_nil.
    destruct (existsb (tileIsLocal C) (sub i i 0 i ++ sub i (h_mt C - 1) i i))
      eqn:Hex.
    + rewrite decide_True by done. simpl. f_equal.
      rewrite (right_id_L ∅ (∪)).
      rewrite (assoc_L (∪)), (comm_L (∪) {[(i, c)]}). done.
    + rewrite decide_False by done. simpl.
      by rewrite (right_id_L ∅ (∪)).
Qed.

(** A broadcast and an update of different block columns give the same
    memory in either order. *)
Lemma bcast_update_commute target A C c alpha k beta m :
  c ≠ k ->
  run_work target A C (run_work target A C m (bcast_column c))
    (internal_herk alpha k beta)
  = run_work target A C (run_work target A C m (internal_herk alpha k beta))
      (bcast_column c).
Proof.
  intros Hck. rewrite !bcast_column_set_A_here.
  change (run_work target A C ?m' (internal_herk alpha k beta))
    with (internal_herk_run target alpha A k beta C m').
  rewrite internal_herk_run_set_A_here.
  - destruct (internal_herk_run_spec target alpha A k beta C m) as [-> _].
    done.
  - intros i. rewrite elem_of_union, elem_of_list_to_set, list_elem_of_fmap.
    split; [|by right]. intros [(i' & [= _ Hc] & _)|?]; [congruence|done].
Qed.

End MemoryProperties.

(** ** The pipeline computes the serial result *)

Section PipelineResult.
Context {K : Kernels}.

Lemma advance_task_inj alpha beta k k' :
  advance_task alpha beta k = advance_task alpha beta k' -> k = k'.
Proof.
  intros H%(f_equal dep_out). rewrite !advance_task_out in H. congruence.
Qed.

Lemma disseminate_task_inj la c c' :
  disseminate_task la c = disseminate_task la c' -> c = c'.
Proof.
  intros H%(f_equal dep_out). rewrite !disseminate_task_out in H. congruence.
Qed.

Lemma advance_not_disseminate alpha beta la k c :
  advance_task alpha beta k ≠ disseminate_task la c.
Proof.
  intros H%(f_equal dep_out).
  rewrite advance_task_out, disseminate_task_out in H. congruence.
Qed.

Lemma steps_tile_0 alpha A beta C ij c : steps_tile alpha A beta C 0 ij c = c.
Proof. unfold steps_tile. by rewrite seqZ_nil. Qed.

Lemma steps_tile_succ alpha A beta C a ij c :
  0 <= a ->
  steps_tile alpha A beta C (a + 1) ij c
  = step_tile alpha A beta C ij (steps_tile alpha A beta C a ij c) a.
Proof.
  intros Ha. unfold steps_tile. rewrite (seqZ_app 0 a 1), foldl_app by lia.
  rewrite (seqZ_cons (0 + a) 1), (seqZ_nil _ (Z.pred 1)) by lia.
  simpl. reflexivity.
Qed.

Section Invariant.
Variables (target : Target) (alpha beta : real_t) (A : Matrix)
  (C : HermitianMatrix) (la : Z) (m0 : Memory).
Hypothesis (Hmt : m_mt A = h_mt C).
Hypothesis (Hnt : 1 <= m_nt A) (Hla : 0 <= la)
  (Hmax : la + m_nt A <= INT64_MAX).

Let G := herk_tasks alpha beta (m_nt A) la.

(** What holds between two tasks of an execution order: the updates
    done so far are those of the columns [0, ..., a-1], the tiles of [C]
    hold their result, and the block columns whose broadcast is done are
    present for every local tile. *)
Definition pipeline_invariant (done : list Task) (m : Memory) : Prop :=
  exists a,
    0 <= a <= m_nt A
    /\ (forall k, 0 <= k < m_nt A ->
         advance_task alpha beta k ∈ done <-> k < a)
    /\ (forall c ij, 0 <= c < m_nt A -> disseminate_task la c ∈ done ->
         ij ∈ local_tiles C ->
         (ij.1, c) ∈ A_here m /\ (ij.2, c) ∈ A_here m)
    /\ (forall ij, ij ∈ local_tiles C ->
         tile_current m (stored_at C ij)
         = steps_tile alpha A beta C a ij <$> tile_current m0 (stored_at C ij))
    /\ (forall key, key ∉ stored_at C <$> local_tiles C ->
         C_host m !! key = C_host m0 !! key)
    /\ calls m = calls m0.

Lemma pipeline_invariant_init : pipeline_invariant [] m0.
Proof.
  exists 0. split; [lia|]. split; [|split; [|split; [|done]]].
  - intros k Hk. split; [by intros ?%elem_of_nil|lia].
  - by intros c ij _ ?%elem_of_nil.
  - intros ij _. destruct (tile_current m0 (stored_at C ij)); simpl; [|done].
    by rewrite steps_tile_0.
Qed.

Lemma pipeline_invariant_step done m t :
  pipeline_invariant done m ->
  t ∈ G -> t ∉ done -> (forall p, p ∈ predecessors G t -> p ∈ done) ->
  pipeline_invariant (t :: done) (run_work target A C m (work t)).
Proof.
  intros (a & Ha & Hadv & Hpanel & Htiles & Hother & Hcalls) Ht Hfresh Hpred.
  apply elem_of_herk_tasks in Ht as [(c & Hc & ->)|(k & Hk & ->)]; try done.
  - (* a broadcast *)
    rewrite disseminate_task_work.
    destruct (bcast_column_spec target A C c m) as (Hh & Hd & Hcl & Hsub & Hin).
    exists a. split; [done|]. split; [|split; [|split; [|split]]].
    + intros k Hk. rewrite elem_of_cons, <- Hadv by done. split; [|tauto].
      intros [Heq|?]; [|done]. by apply advance_not_disseminate in Heq.
    + intros c' ij Hc' [Heq%disseminate_task_inj|Hdone]%elem_of_cons Hij.
      * subst c'. by apply Hin.
      * destruct (Hpanel c' ij Hc' Hdone Hij). split; by apply Hsub.
    + intros ij Hij. rewrite <- Htiles by done.
      apply tile_current_ext; congruence.
    + intros key Hkey. rewrite <- Hother by done. congruence.
    + congruence.
  - (* an update *)
    assert (Hka : k = a).
    { assert (~ k < a) by (intros ?; apply Hfresh, Hadv; done).
      destruct (decide (k = 0)) as [->|Hk0]; [lia|].
      assert (k - 1 < a); [|lia]. apply Hadv; [lia|].
      apply Hpred, advance_waits_for_advance; done || lia. }
    subst k.
    assert (Hcol : disseminate_task la a ∈ done).
    { apply Hpred, advance_waits_for_disseminate; done. }
    rewrite advance_task_work. simpl.
    destruct (internal_herk_run_spec target alpha A a
                (if decide (a = 0) then beta else one) C m)
      as (HA & Hcl & Hin & Hout).
    exists (a + 1). split; [lia|]. split; [|split; [|split; [|split]]].
    + intros k' Hk'. rewrite elem_of_cons, Hadv by done. split.
      * intros [->%advance_task_inj|?]; lia.
      * intros ?. destruct (decide (k' = a)) as [->|]; [by left|right; lia].
    + intros c ij Hc [Heq|Hdone]%elem_of_cons Hij.
      * symmetry in Heq. by apply advance_not_disseminate in Heq.
      * rewrite HA. by apply Hpanel.
    + intros ij Hij. rewrite (Hin _ Hij), (Htiles _ Hij).
      destruct (Hpanel a ij Hk Hcol Hij) as [H1 H2].
      destruct ij as [i j].
      apply elem_of_local_tiles in Hij as (_ & ? & ? & ?).
      destruct (tile_current m0 (stored_at C (i, j))); simpl; [|done].
      rewrite steps_tile_succ by lia. unfold unit_result, step_tile. simpl.
      rewrite !panel_tile_here by (done || lia). done.
    + intros key Hkey. destruct (Hout _ Hkey) as [-> _]. by apply Hother.
    + congruence.
Qed.

Lemma pipeline_invariant_run sched : forall done m,
  runs_in_order G done sched = true ->
  pipeline_invariant done m ->
  pipeline_invariant (reverse sched ++ done) (run_tasks target A C sched m).
Proof.
  induction sched as [|t sched IH]; intros ran m Hrun Hinv; [by simpl|].
  pose proof (runs_in_order_split G ran [] t sched Hrun)
    as (Ht & Hfresh & _ & Hpred).
  simpl in Hrun. apply andb_true_iff in Hrun as [_ Hrun].
  rewrite reverse_cons, <- app_assoc. simpl. apply IH; [done|].
  apply pipeline_invariant_step; try done.
  intros p Hp. destruct (Hpred _ Hp) as [?|?%elem_of_nil]; done.
Qed.

(** Whatever the execution order, the parallel region leaves every
    local tile of the lower triangle with the result of the [nt] steps
    applied in order. *)
Lemma run_tasks_result sched :
  valid_schedule G sched = true ->
  let m := run_tasks target A C sched m0 in
  (forall ij, ij ∈ local_tiles C ->
     tile_current m (stored_at C ij)
     = steps_tile alpha A beta C (m_nt A) ij
         <$> tile_current m0 (stored_at C ij))
  /\ (forall key, key ∉ stored_at C <$> local_tiles C ->
       C_host m !! key = C_host m0 !! key)
  /\ calls m = calls m0.
Proof.
  intros Hv.
  assert (Hnd : NoDup G) by by apply herk_tasks_NoDup.
  pose proof (valid_schedule_Permutation _ _ Hnd Hv) as Hperm.
  unfold valid_schedule in Hv. apply andb_true_iff in Hv as [Hrun _].
  destruct (pipeline_invariant_run sched [] m0 Hrun pipeline_invariant_init)
    as (a & Ha & Hadv & _ & Htiles & Hother & Hcalls).
  assert (a = m_nt A) as ->.
  { assert (m_nt A - 1 < a); [|lia]. apply Hadv; [lia|].
    rewrite app_nil_r, elem_of_reverse, Hperm.
    apply advance_issued; done || lia. }
  done.
Qed.

End Invariant.

Lemma lower_view_mt C : h_mt (lower_view C) = h_mt C.
Proof. unfold lower_view. by destruct (decide (uplo_logical C = Upper)). Qed.

Lemma lower_view_lower C : uplo_logical (lower_view C) = Lower.
Proof.
  unfold lower_view. destruct (decide (uplo_logical C = Upper)) as [Hu|Hu].
  - unfold uplo_logical, conj_transpose in *. simpl.
    destruct (h_op C), (h_uplo C); simpl in *; congruence.
  - by destruct (uplo_logical C).
Qed.

(** The storage calls the driver makes before the parallel region. *)
Definition prologue_calls (target : Target) : list StorageCall :=
  if decide (target = Devices)
  then [call_allocateBatchArrays; call_reserveDeviceWorkspace] else [].

(** The memory on return, for every target, lookahead and execution
    order. *)
Lemma specialization_herk_result target alpha A beta C la sched m :
  m_mt A = h_mt C -> 1 <= m_nt A -> 0 <= la -> la + m_nt A <= INT64_MAX ->
  valid_schedule (herk_tasks alpha beta (m_nt A) la) sched = true ->
  let r := specialization_herk target alpha A beta C la sched m in
  let Cv := lower_view C in
  C_device r = ∅
  /\ (forall ij, ij ∈ local_tiles Cv ->
       C_host r !! stored_at Cv ij
       = steps_tile alpha A beta Cv (m_nt A) ij
           <$> tile_current m (stored_at Cv ij))
  /\ (forall key, key ∉ stored_at Cv <$> local_tiles Cv ->
       C_host r !! key = C_host m !! key)
  /\ calls r
     = calls m ++ prologue_calls target
       ++ ((fun ij => call_tileMoveToHost ij.1 ij.2) <$> local_tiles Cv)
       ++ [call_clearWorkspace].
Proof.
  intros Hmt Hnt Hla Hmax Hv r Cv. subst r.
  unfold specialization_herk. fold (lower_view C). fold Cv.
  set (m1 := if decide (target = Devices)
             then log call_reserveDeviceWorkspace
                    (log call_allocateBatchArrays m)
             else m).
  assert (Hm1 : C_host m1 = C_host m /\ C_device m1 = C_device m
                /\ calls m1 = calls m ++ prologue_calls target).
  { unfold m1, prologue_calls. destruct (decide (target = Devices)); simpl.
    - by rewrite <- app_assoc.
    - by rewrite app_nil_r. }
  destruct Hm1 as (Hh1 & Hd1 & Hc1).
  assert (Hmt' : m_mt A = h_mt Cv) by (unfold Cv; by rewrite lower_view_mt).
  destruct (run_tasks_result target alpha beta A Cv la m1 Hmt' Hnt Hla Hmax
              sched Hv) as (Htiles & Hother & Hcalls).
  destruct (flush_spec Cv (run_tasks target A Cv sched m1))
    as (_ & Hdev & Hcf & Hin & Hout).
  split; [done|]. split; [|split].
  - intros ij Hij. rewrite (Hin _ Hij), (Htiles _ Hij).
    f_equal. apply tile_current_ext; congruence.
  - intros key Hkey. rewrite (Hout _ Hkey), (Hother _ Hkey). congruence.
  - rewrite Hcf, Hcalls, Hc1, <- !app_assoc. done.
Qed.

(** C1.  For every target, every lookahead and every order in which
    the runtime may run the tasks, the tiles of [C] on return are those
    of the serial run: lookahead 0, per-tile tasks, the tasks run in the
    order they are issued (which is itself a valid order). *)
Theorem herk_serial_equivalence target alpha A beta C la sched m :
  m_mt A = h_mt C -> 1 <= m_nt A -> 0 <= la -> la + m_nt A <= INT64_MAX ->
  valid_schedule (herk_tasks alpha beta (m_nt A) la) sched = true ->
  let serial := herk_tasks alpha beta (m_nt A) 0 in
  let r := specialization_herk target alpha A beta C la sched m in
  let s := specialization_herk HostTask alpha A beta C 0 serial m in
  valid_schedule serial serial = true
  /\ C_host r = C_host s /\ C_device r = C_device s.
Proof.
  intros Hmt Hnt Hla Hmax Hv serial r s.
  assert (Hvs : valid_schedule serial serial = true).
  { apply issue_order_valid, herk_tasks_NoDup; lia. }
  destruct (specialization_herk_result target alpha A beta C la sched m
              Hmt Hnt Hla Hmax Hv) as (Hdr & Hir & Hor & _).
  destruct (specialization_herk_result HostTask alpha A beta C 0 serial m
              Hmt Hnt ltac:(lia) ltac:(lia) Hvs) as (Hds & His & Hos & _).
  fold r in Hdr, Hir, Hor. fold s in Hds, His, Hos.
  split; [done|]. split; [|congruence].
  apply map_eq. intros key.
  destruct (decide (key ∈ stored_at (lower_view C) <$> local_tiles (lower_view C)))
    as [(ij & -> & Hij)%list_elem_of_fmap|Hout].
  - by rewrite Hir, His.
  - by rewrite Hor, Hos.
Qed.

(** C7.  On return, for every target: [tileMoveToHost] has been called
    on each local tile of the lower triangle and [clearWorkspace] after
    them; no device copy of a tile of [C] is left; the host copy of
    every such tile holds the updated content, which is what an
    operation that follows finds. *)
Theorem herk_flush target alpha A beta C la sched m :
  m_mt A = h_mt C -> 1 <= m_nt A -> 0 <= la -> la + m_nt A <= INT64_MAX ->
  valid_schedule (herk_tasks alpha beta (m_nt A) la) sched = true ->
  let r := specialization_herk target alpha A beta C la sched m in
  let Cv := lower_view C in
  uplo_logical Cv = Lower
  /\ calls r
     = calls m ++ prologue_calls target
       ++ ((fun ij => call_tileMoveToHost ij.1 ij.2) <$> local_tiles Cv)
       ++ [call_clearWorkspace]
  /\ C_device r = ∅
  /\ (forall i j, 0 <= j -> j <= i -> i < h_mt C ->
       tileIsLocal Cv (i, j) = true ->
       C_host r !! stored_at Cv (i, j)
       = steps_tile alpha A beta Cv (m_nt A) (i, j)
           <$> tile_current m (stored_at Cv (i, j))
       /\ tile_current r (stored_at Cv (i, j))
          = C_host r !! stored_at Cv (i, j)).
Proof.
  intros Hmt Hnt Hla Hmax Hv r Cv.
  destruct (specialization_herk_result target alpha A beta C la sched m
              Hmt Hnt Hla Hmax Hv) as (Hdev & Hin & _ & Hcalls).
  fold r in Hdev, Hin, Hcalls. fold Cv in Hin, Hcalls.
  split; [apply lower_view_lower|]. split; [done|]. split; [done|].
  intros i j H0 Hji Hi Hlocal. split.
  - apply Hin, elem_of_local_tiles. unfold Cv. rewrite lower_view_mt. done.
  - unfold tile_current. by rewrite Hdev, lookup_empty.
Qed.

End PipelineResult.

(** *** Runs of the toy instance *)

Example toy_issue_order_lookahead_1 :
  toy_tasks 1
  = [ toy_disseminate 0; toy_disseminate 1; toy_advance 0;
      toy_disseminate 2; toy_advance 1; toy_advance 2 ].
Proof. reflexivity. Qed.

Example toy_result_on_devices :
  let r := toy_herk Devices 1 toy_schedule in
  C_host r !! (0, 0) = Some 31 /\ C_host r !! (1, 0) = Some 2
  /\ C_host r !! (1, 1) = Some 877 /\ C_device r = ∅.
Proof. vm_compute. done. Qed.

(** An order that runs an update before the broadcast of its column is
    not one the runtime may pick, and it would change the result. *)
Example toy_invalid_order :
  let bad := [ toy_disseminate 0; toy_advance 0; toy_advance 1;
               toy_disseminate 1; toy_disseminate 2; toy_advance 2 ] in
  valid_schedule (toy_tasks 1) bad = false
  /\ C_host (toy_herk HostTask 1 bad) !! (0, 0) = Some 17.
Proof. vm_compute. done. Qed.

Lemma herk_serial_equivalence_witness :
  valid_schedule (toy_tasks 1) toy_schedule = true
  /\ C_host (toy_herk Devices 1 toy_schedule)
     = C_host (toy_herk HostTask 0 (toy_tasks 0)).
Proof.
  assert (Hv : valid_schedule (toy_tasks 1) toy_schedule = true)
    by reflexivity.
  split; [exact Hv|].
  assert (Hmax : 1 + 3 <= INT64_MAX) by (vm_compute; discriminate).
  exact (proj1 (proj2 (herk_serial_equivalence (K := toy_kernels) Devices 2
                         toy_A 3 toy_C 1 toy_schedule toy_memory
                         eq_refl ltac:(simpl; lia) ltac:(lia) Hmax Hv))).
Defined.

Lemma herk_flush_witness :
  valid_schedule (toy_tasks 1) toy_schedule = true
  /\ C_device (toy_herk Devices 1 toy_schedule) = ∅.
Proof.
  assert (Hv : valid_schedule (toy_tasks 1) toy_schedule = true)
    by reflexivity.
  split; [exact Hv|].
  assert (Hmax : 1 + 3 <= INT64_MAX) by (vm_compute; discriminate).
  exact (proj1 (proj2 (proj2 (herk_flush (K := toy_kernels) Devices 2
                         toy_A 3 toy_C 1 toy_schedule toy_memory
                         eq_refl ltac:(simpl; lia) ltac:(lia) Hmax Hv)))).
Defined.

Lemma herk_pipeline_dependences_witness :
  valid_schedule (toy_tasks 1) toy_schedule = true
  /\ before toy_schedule (toy_advance 0) (toy_advance 1)
  /\ before toy_schedule (toy_advance 0) (toy_disseminate 2).
Proof.
  assert (Hv : valid_schedule (toy_tasks 1) toy_schedule = true)
    by reflexivity.
  split; [exact Hv|].
  assert (Hmax : 1 + 3 <= INT64_MAX) by (vm_compute; discriminate).
  destruct (herk_pipeline_dependences (K := toy_kernels) 2 3 3 1
              ltac:(lia) ltac:(lia) Hmax) as (_ & _ & _ & H).
  destruct (H toy_schedule Hv) as (_ & Ha & _ & Hd).
  split.
  - exact (Ha 0 1 ltac:(lia) ltac:(lia) ltac:(lia)).
  - exact (Hd 1 ltac:(lia) ltac:(lia)).
Defined.

(** ** Further properties of the task graph *)

Section TaskGraph.
Context {K : Kernels}.
Implicit Types (t p : Task) (G sched : list Task).

(** The update that the driver applies with the block column [k]: the
    caller's [beta] with the first column, 1.0 with the later ones. *)
Definition update_work (alpha beta : real_t) (k : Z) : Work :=
  internal_herk alpha k (if decide (k = 0) then beta else one).

(** Whatever the lookahead, the driver issues the same work: one
    broadcast and one update for each block column of [A], and nothing
    else; the lookahead only changes the order of issue and the depend
    clauses.  The parallel region therefore holds [2 * nt] tasks. *)
Theorem herk_tasks_census alpha beta nt la :
  1 <= nt -> 0 <= la -> la + nt <= INT64_MAX ->
  work <$> herk_tasks alpha beta nt la
    ≡ₚ (bcast_column <$> seqZ 0 nt) ++ (update_work alpha beta <$> seqZ 0 nt)
  /\ length (herk_tasks alpha beta nt la) = Z.to_nat (2 * nt).
Proof.
  intros Hnt Hla Hmax.
  assert (Hperm : work <$> herk_tasks alpha beta nt la
            ≡ₚ (bcast_column <$> seqZ 0 nt)
               ++ (update_work alpha beta <$> seqZ 0 nt)).
  { apply NoDup_Permutation.
    - apply NoDup_fmap_2_strong; [|by apply herk_tasks_NoDup].
      intros x y Hx Hy Hw.
      apply elem_of_herk_tasks in Hx, Hy; try done.
      destruct Hx as [(c & Hc & ->)|(k & Hk & ->)],
               Hy as [(c' & Hc' & ->)|(k' & Hk' & ->)];
        rewrite ?disseminate_task_work, ?advance_task_work in Hw;
        try discriminate.
      + by injection Hw as ->.
      + assert (k = k') as -> by congruence. done.
    - apply NoDup_app. split; [|split].
      + apply NoDup_fmap_2_strong; [|apply NoDup_seqZ]. congruence.
      + intros w (c & -> & _)%list_elem_of_fmap (k & Hw & _)%list_elem_of_fmap.
        discriminate.
      + apply NoDup_fmap_2_strong; [|apply NoDup_seqZ].
        unfold update_work. congruence.
    - intros w. rewrite elem_of_app, !list_elem_of_fmap.
      setoid_rewrite elem_of_seqZ. split.
      + intros (t & -> & Ht). apply elem_of_herk_tasks in Ht; try done.
        destruct Ht as [(c & Hc & ->)|(k & Hk & ->)].
        * left. exists c. rewrite disseminate_task_work. split; [done|lia].
        * right. exists k. rewrite advance_task_work. split; [done|lia].
      + intros [(c & -> & Hc)|(k & -> & Hk)].
        * exists (disseminate_task la c).
          rewrite disseminate_task_work. split; [done|].
          apply elem_of_herk_tasks; try done. left. exists c. split; [lia|done].
        * exists (advance_task alpha beta k).
          rewrite advance_task_work. split; [done|].
          apply elem_of_herk_tasks; try done. right. exists k. split; [lia|done]. }
  split; [done|].
  apply Permutation_length in Hperm.
  rewrite length_fmap, length_app, !length_fmap, !length_seqZ in Hperm. lia.
Qed.

(** A lookahead of [nt - 1] or more changes nothing further: the driver
    issues the task list of the lookahead [nt - 1], in which every
    broadcast is issued ahead of the first update and lists only the
    broadcast of the column before it as an input. *)
Theorem herk_lookahead_saturates alpha beta nt la :
  1 <= nt -> nt - 1 <= la -> la + nt <= INT64_MAX ->
  herk_tasks alpha beta nt la = herk_tasks alpha beta nt (nt - 1)
  /\ herk_tasks alpha beta nt la
     = (disseminate_task la <$> seqZ 0 nt)
       ++ (advance_task alpha beta <$> seqZ 0 nt)
  /\ (forall c, 1 <= c < nt ->
        dep_in (disseminate_task la c) = [bcast (c - 1)]).
Proof.
  intros Hnt Hla Hmax.
  assert (Hseq : seqZ 0 nt = 0 :: seqZ 1 (nt - 1)).
  { rewrite (seqZ_cons 0 nt) by lia. f_equal. }
  assert (Hshape : forall l, nt - 1 <= l -> l + nt <= INT64_MAX ->
    herk_tasks alpha beta nt l
    = (disseminate_task l <$> seqZ 0 nt)
      ++ (advance_task alpha beta <$> seqZ 0 nt)).
  { intros l Hl Hlmax. rewrite herk_tasks_unfold by lia.
    rewrite Z.min_r, Hseq, !fmap_cons by lia. simpl. do 3 f_equal.
    rewrite <- bind_singleton_fmap. apply bind_ext_in.
    intros k Hk%elem_of_seqZ. by rewrite decide_False by lia. }
  split; [|split].
  - rewrite !Hshape by lia. f_equal. apply list_fmap_ext.
    intros i c Hc%list_elem_of_lookup_2%elem_of_seqZ.
    unfold disseminate_task. destruct (decide (c = 0)); [done|].
    by rewrite !decide_True by lia.
  - by apply Hshape.
  - intros c Hc. rewrite disseminate_task_in by (unfold INT64_MAX in *; lia).
    by rewrite decide_False, decide_True by lia.
Qed.

(** In an issue list that the timeline sorts, the timeline tells which
    of two tasks comes first. *)
Lemma issued_earlier_before la G t1 t2 :
  StronglySorted (issued_earlier la) G -> t1 ∈ G -> t2 ∈ G ->
  issue_rank la t1 < issue_rank la t2 -> before G t1 t2.
Proof.
  intros Hs (l1 & l2 & ->)%list_elem_of_split H2 Hlt.
  apply elem_of_app in H2 as [H2|[->|H2]%elem_of_cons].
  - pose proof (StronglySorted_app_1_elem_of _ _ _ t2 t1 Hs H2
                  ltac:(by left)) as Hr.
    unfold issued_earlier in Hr. lia.
  - lia.
  - apply list_elem_of_split in H2 as (l3 & l4 & ->). by exists l1, l3, l4.
Qed.

(** The bound of the lookahead is attained.  The order of issue is an
    order the runtime may pick, and in it the broadcast of the block
    column [k + lookahead] runs before the update with the column [k],
    for every [k]: the broadcasts are [lookahead] columns ahead of the
    updates, and the first [lookahead + 1] columns are all sent before
    the first update. *)
Theorem herk_lookahead_attained alpha beta nt la :
  1 <= nt -> 0 <= la -> la + nt <= INT64_MAX ->
  let G := herk_tasks alpha beta nt la in
  valid_schedule G G = true
  /\ (forall k, 0 <= k -> k + la < nt ->
        before G (disseminate_task la (k + la)) (advance_task alpha beta k))
  /\ (forall c, 0 <= c <= la -> c < nt ->
        before G (disseminate_task la c) (advance_task alpha beta 0)).
Proof.
  intros Hnt Hla Hmax G.
  assert (Hs : StronglySorted (issued_earlier la) G)
    by by apply herk_tasks_sorted.
  split; [|split].
  - apply issue_order_valid. by eapply issued_earlier_NoDup.
  - intros k Hk Hkla. apply (issued_earlier_before la); [done| | |].
    + apply disseminate_issued; lia.
    + apply advance_issued; lia.
    + rewrite issue_rank_disseminate, issue_rank_advance.
      destruct (decide (k + la <= la)); lia.
  - intros c Hc Hcnt. apply (issued_earlier_before la); [done| | |].
    + apply disseminate_issued; lia.
    + apply advance_issued; lia.
    + rewrite issue_rank_disseminate, issue_rank_advance.
      rewrite decide_True by lia. lia.
Qed.

(** *** Lookahead 0: one execution order *)

(** In a list whose neighbours are related, any two neighbours are. *)
Lemma Sorted_neighbours (R : relation Task) l1 : forall l x t l2,
  Sorted R l -> l = l1 ++ x :: t :: l2 -> R x t.
Proof.
  induction l1 as [|y l1 IH]; intros l x t l2 Hs ->; simpl in Hs.
  - apply Sorted_inv in Hs as [_ Hhd]. by apply HdRel_inv in Hhd.
  - apply Sorted_inv in Hs as [Hs _]. by eapply IH.
Qed.

(** When each task of the issue list waits for the one issued just
    before it, the runtime has no choice: the only execution order is
    the order of issue. *)
Lemma chain_runs_in_order G :
  NoDup G -> Sorted (fun x t => x ∈ predecessors G t) G ->
  forall G2 G1 sched,
  G = G1 ++ G2 -> runs_in_order G (reverse G1) sched = true ->
  length sched = length G2 -> sched = G2.
Proof.
  intros Hnd Hchain.
  induction G2 as [|g G2 IH]; intros G1 sched HG Hrun Hlen.
  { by destruct sched. }
  destruct sched as [|t rest]; [done|]. simpl in Hrun, Hlen.
  rewrite !andb_true_iff, !bool_decide_eq_true, forallb_forall in Hrun.
  destruct Hrun as [[[HtG Htd] Hpred] Hrest].
  rewrite elem_of_reverse in Htd.
  assert (Htg : t = g).
  { rewrite HG in HtG.
    apply elem_of_app in HtG as [?|[?|Hin]%elem_of_cons]; [done|done|].
    exfalso. apply list_elem_of_split in Hin as (l1 & l2 & ->).
    assert (Hx : exists l0 x, g :: l1 = l0 ++ [x]).
    { destruct l1 as [|y l1 _] using rev_ind; [by exists [], g|].
      by exists (g :: l1), y. }
    destruct Hx as (l0 & x & Hx).
    assert (HG' : G = (G1 ++ l0) ++ x :: t :: l2).
    { rewrite HG, <- app_assoc. f_equal.
      change (g :: l1 ++ t :: l2) with ((g :: l1) ++ t :: l2).
      rewrite Hx, <- app_assoc. done. }
    pose proof (Sorted_neighbours _ _ _ _ _ _ Hchain HG') as Hp.
    apply list_elem_of_In, Hpred, bool_decide_eq_true in Hp.
    rewrite elem_of_reverse in Hp.
    rewrite HG in Hnd. apply NoDup_app in Hnd as (_ & Hdis & _).
    apply (Hdis _ Hp).
    change (g :: l1 ++ t :: l2) with ((g :: l1) ++ t :: l2).
    rewrite Hx. apply elem_of_app. left. apply elem_of_app. right. by left. }
  subst t. f_equal. apply (IH (G1 ++ [g])).
  - by rewrite <- app_assoc.
  - by rewrite reverse_app.
  - lia.
Qed.

(** With lookahead 0 nothing overlaps.  Each task waits for the one
    issued just before it (the update [k] for the broadcast of [k], the
    broadcast of [k] for the update [k-1]), so the only order in which
    the runtime may run the tasks is the order of issue: broadcast 0,
    update 0, broadcast 1, update 1, ... *)
Theorem herk_lookahead_0_serial alpha beta nt sched :
  1 <= nt -> nt <= INT64_MAX ->
  valid_schedule (herk_tasks alpha beta nt 0) sched = true ->
  sched = herk_tasks alpha beta nt 0.
Proof.
  intros Hnt Hmax Hv.
  set (G := herk_tasks alpha beta nt 0) in *.
  assert (Hnd : NoDup G) by (apply herk_tasks_NoDup; lia).
  assert (HDA : forall k, 0 <= k < nt ->
    disseminate_task 0 k ∈ predecessors G (advance_task alpha beta k)).
  { intros k Hk. apply advance_waits_for_disseminate; lia. }
  assert (HAD : forall k, 1 <= k < nt ->
    advance_task alpha beta (k - 1) ∈ predecessors G (disseminate_task 0 k)).
  { intros k Hk. replace (k - 1) with (k - 0 - 1) by lia.
    apply disseminate_waits_for_advance; lia. }
  assert (Hchain : Sorted (fun x t => x ∈ predecessors G t) G).
  { assert (Hloop : forall (n : nat) k0, 1 <= k0 -> k0 + Z.of_nat n <= nt ->
      Sorted (fun x t => x ∈ predecessors G t)
        (advance_task alpha beta (k0 - 1)
         :: (seqZ k0 (Z.of_nat n) ≫= fun k =>
               [disseminate_task 0 k; advance_task alpha beta k]))).
    { induction n as [|n IHn]; intros k0 Hk0 Hle.
      - rewrite seqZ_nil by lia. repeat constructor.
      - rewrite seqZ_cons, bind_cons by lia. simpl.
        constructor; [constructor|].
        + specialize (IHn (k0 + 1) ltac:(lia) ltac:(lia)).
          replace (k0 + 1 - 1) with k0 in IHn by lia.
          replace (Z.succ k0) with (k0 + 1) by lia.
          replace (Z.pred (Z.of_nat (S n))) with (Z.of_nat n) by lia.
          exact IHn.
        + constructor. apply HDA. lia.
        + constructor. apply HAD. lia. }
    unfold G at 2. rewrite herk_tasks_unfold by lia.
    rewrite Z.min_l, (seqZ_nil 1 0) by lia. simpl.
    constructor; [|constructor; apply HDA; lia].
    specialize (Hloop (Z.to_nat (nt - 1)) 1 ltac:(lia) ltac:(lia)).
    rewrite Z2Nat.id in Hloop by lia.
    erewrite bind_ext_in; [exact Hloop|].
    intros k Hk%elem_of_seqZ. simpl.
    rewrite decide_True, Z.add_0_r by lia. done. }
  unfold valid_schedule in Hv.
  apply andb_true_iff in Hv as [Hrun Hlen%bool_decide_eq_true].
  by apply (chain_runs_in_order G Hnd Hchain G [] sched).
Qed.

(** *** Lookahead 1 or more: the runtime has a choice *)

(** An order that runs every task once, each after the tasks it waits
    for, is an execution order. *)
Lemma runs_in_order_intro G : forall sched ran,
  (forall t, t ∈ sched -> t ∈ G) -> NoDup (ran ++ sched) ->
  (forall s1 t s2, sched = s1 ++ t :: s2 ->
     forall p, p ∈ predecessors G t -> p ∈ ran \/ p ∈ s1) ->
  runs_in_order G ran sched = true.
Proof.
  induction sched as [|t sched IH]; intros ran HG Hnd Hpred; [done|].
  simpl. rewrite !andb_true_iff, !bool_decide_eq_true, forallb_forall.
  apply NoDup_app in Hnd as (Hd & Hdis & Hs).
  apply NoDup_cons in Hs as [Hts Hs].
  split; [split; [split|]|].
  - apply HG. by left.
  - intros Hin. apply (Hdis _ Hin). by left.
  - intros p Hp%list_elem_of_In. apply bool_decide_eq_true.
    destruct (Hpred [] t sched eq_refl p Hp) as [?|[]%elem_of_nil]. done.
  - apply IH.
    + intros t' Ht'. apply HG. by right.
    + apply NoDup_app. split; [|split; [|done]].
      * apply NoDup_cons. split; [|done].
        intros Hin. apply (Hdis _ Hin). by left.
      * intros x [->|Hx]%elem_of_cons; [done|].
        intros Hin. apply (Hdis _ Hx). by right.
    + intros s1 t' s2 -> p Hp.
      destruct (Hpred (t :: s1) t' s2 eq_refl p Hp) as [?|[->|?]%elem_of_cons].
      * left. by right.
      * left. by left.
      * by right.
Qed.

(** With a lookahead of 1 or more and at least two block columns the
    order of issue is not the only execution order: the first update,
    issued after the broadcasts of the columns 1, ..., lookahead, may
    run before all of them, as soon as the column 0 has been
    broadcast.  That is the overlap the lookahead buys; with lookahead
    0 there is none. *)
Theorem herk_lookahead_overlap alpha beta nt la :
  2 <= nt -> 1 <= la -> la + nt <= INT64_MAX ->
  let G := herk_tasks alpha beta nt la in
  exists sched,
    valid_schedule G sched = true /\ sched ≠ G
    /\ before sched (advance_task alpha beta 0) (disseminate_task la 1).
Proof.
  intros Hnt Hla Hmax G.
  assert (Hsorted : StronglySorted (issued_earlier la) G)
    by (apply herk_tasks_sorted; lia).
  assert (Hnd : NoDup G) by by eapply issued_earlier_NoDup.
  pose proof (herk_tasks_unfold alpha beta nt la ltac:(lia) ltac:(lia) Hmax)
    as HG. fold G in HG.
  set (D0 := disseminate_task la 0) in *.
  set (A0 := advance_task alpha beta 0) in *.
  set (Ds := disseminate_task la <$> seqZ 1 (Z.min la (nt - 1))) in *.
  remember (seqZ 1 (nt - 1) ≫= fun k =>
              (if decide (k + la < nt)
               then [disseminate_task la (k + la)] else [])
              ++ [advance_task alpha beta k]) as T eqn:HT.
  assert (HDs : exists Ds', Ds = disseminate_task la 1 :: Ds').
  { unfold Ds. rewrite seqZ_cons by lia. by eexists. }
  destruct HDs as [Ds' HDs'].
  assert (Hperm : D0 :: A0 :: Ds ++ T ≡ₚ G).
  { rewrite HG. apply perm_skip. apply Permutation_middle. }
  assert (HA0 : forall p, p ∈ predecessors G A0 -> p = D0).
  { intros p Hp. pose proof Hp as Hp'.
    apply (predecessors_sorted la) in Hp' as (_ & _ & Hw);
      [|done|apply advance_issued; lia].
    rewrite HG in Hp.
    apply (predecessors_issued_before (D0 :: Ds) T A0) in Hp.
    apply elem_of_cons in Hp as [?|Hp]; [done|]. exfalso.
    apply list_elem_of_fmap in Hp as (c & -> & Hc%elem_of_seqZ).
    revert Hw. unfold waits_for, A0, mentions.
    rewrite disseminate_task_out, advance_task_out, advance_task_in,
      disseminate_task_in by (unfold INT64_MAX in *; lia).
    rewrite decide_True, decide_False, decide_True by lia. simpl.
    rewrite !orb_false_r, bool_decide_eq_true, list_elem_of_singleton.
    intros [=]. lia. }
  exists (D0 :: A0 :: Ds ++ T). split; [|split].
  - unfold valid_schedule. apply andb_true_iff. split.
    + apply runs_in_order_intro.
      * intros t Ht. by rewrite <- Hperm.
      * simpl. by rewrite Hperm.
      * intros s1 t s2 Hsplit p Hp. right.
        assert (Hsn : NoDup (s1 ++ t :: s2)) by by rewrite <- Hsplit, Hperm.
        assert (Ht : t ∈ D0 :: A0 :: Ds ++ T).
        { rewrite Hsplit, elem_of_app, elem_of_cons. tauto. }
        rewrite !elem_of_cons, elem_of_app in Ht.
        destruct Ht as [->|[->|[Ht|Ht]]].
        -- exfalso. unfold D0, G in Hp.
           rewrite first_disseminate_waits_for_nothing in Hp by lia.
           by apply elem_of_nil in Hp.
        -- apply HA0 in Hp as ->.
           destruct (NoDup_split_unique s1 [D0] s2 (Ds ++ T) A0 Hsn)
             as [-> _]; [by rewrite <- Hsplit|]. by left.
        -- apply list_elem_of_split in Ht as (d1 & d2 & Hd).
           destruct (NoDup_split_unique s1 (D0 :: A0 :: d1) s2 (d2 ++ T) t Hsn)
             as [-> _].
           { rewrite <- Hsplit, Hd, <- app_assoc. done. }
           rewrite HG, Hd, <- app_assoc in Hp.
           apply (predecessors_issued_before (D0 :: d1)) in Hp.
           apply elem_of_cons in Hp as [->|Hp]; [by left|].
           by do 2 right.
        -- apply list_elem_of_split in Ht as (t1 & t2 & Ht).
           destruct (NoDup_split_unique s1 (D0 :: A0 :: Ds ++ t1) s2 t2 t Hsn)
             as [-> _].
           { rewrite <- Hsplit, Ht. simpl. by rewrite <- app_assoc. }
           rewrite HG, Ht in Hp.
           replace (D0 :: Ds ++ A0 :: t1 ++ t :: t2)
             with ((D0 :: Ds ++ A0 :: t1) ++ t :: t2)
             in Hp by (simpl; by rewrite <- app_assoc).
           apply predecessors_issued_before in Hp.
           rewrite elem_of_cons, elem_of_app, elem_of_cons in Hp.
           rewrite !elem_of_cons, elem_of_app. tauto.
    + apply bool_decide_eq_true. by rewrite Hperm.
  - rewrite HG, HDs'. intros [= Heq _].
    apply (f_equal (issue_rank la)) in Heq. unfold A0 in Heq.
    rewrite issue_rank_advance, issue_rank_disseminate, decide_True in Heq
      by lia. lia.
  - exists [D0], [], (Ds' ++ T). by rewrite HDs'.
Qed.

(** *** A negative lookahead *)

(** The driver does not check that the lookahead is non-negative.  With
    a negative one the first loop issues nothing, and the task that the
    main loop issues for [k] broadcasts the column [k + lookahead],
    which is below [k]: the last block column of [A] is never
    broadcast, though the update with it is issued and lists
    [bcast[nt-1]] as an input, which no task produces. *)
Theorem herk_negative_lookahead alpha beta nt la :
  2 <= nt -> nt <= INT64_MAX -> - 2 ^ 63 < la -> la < 0 ->
  let G := herk_tasks alpha beta nt la in
  G = first_bcast_task :: first_herk_task alpha beta
      :: (seqZ 1 (nt - 1) ≫= fun k =>
            [lookahead_task k (k + la); herk_task alpha k])
  /\ (forall t c, t ∈ G -> work t = bcast_column c -> c < nt - 1)
  /\ herk_task alpha (nt - 1) ∈ G
  /\ bcast (nt - 1) ∈ dep_in (herk_task alpha (nt - 1))
  /\ (forall t, t ∈ G -> bcast (nt - 1) ∉ dep_out t).
Proof.
  intros Hnt Hmax Hlo Hla G.
  assert (HG : G = first_bcast_task :: first_herk_task alpha beta
      :: (seqZ 1 (nt - 1) ≫= fun k =>
            [lookahead_task k (k + la); herk_task alpha k])).
  { unfold G, herk_tasks, INT64_MAX in *.
    rewrite (for_loop_range _ _ 1);
      [|lia|unfold INT64_MAX; lia| | |lia].
    2:{ intros k Hk. lia. }
    2:{ rewrite int64_wrap_id by (unfold INT64_MAX; lia).
        apply andb_false_iff. left. apply Z.ltb_ge. lia. }
    rewrite (for_loop_range _ _ nt);
      [|lia|unfold INT64_MAX; lia| | |lia].
    2:{ intros k Hk. apply Z.ltb_lt. lia. }
    2:{ apply Z.ltb_ge. lia. }
    rewrite (seqZ_nil 1 (1 - 1)) by lia. simpl. do 2 f_equal.
    apply bind_ext_in. intros k Hk%elem_of_seqZ.
    rewrite int64_wrap_id by (unfold INT64_MAX; lia).
    rewrite (proj2 (Z.ltb_lt _ _)) by lia. done. }
  assert (Hin : forall t, t ∈ G ->
    t = first_bcast_task \/ t = first_herk_task alpha beta
    \/ exists k, 1 <= k < nt
         /\ (t = lookahead_task k (k + la) \/ t = herk_task alpha k)).
  { intros t. rewrite HG, !elem_of_cons, list_elem_of_bind.
    intros [->|[->|(k & Ht & Hk%elem_of_seqZ)]]; [by left|by right; left|].
    right. right. exists k. split; [lia|].
    apply elem_of_cons in Ht as [->|Ht]; [by left|].
    apply list_elem_of_singleton in Ht as ->. by right. }
  split; [done|]. split; [|split; [|split]].
  - intros t c [->|[->|(k & Hk & [-> | ->])]]%Hin; simpl; intros [= <-]; lia.
  - rewrite HG. do 2 apply list_elem_of_further.
    apply list_elem_of_bind. exists (nt - 1). split.
    + right. by left.
    + apply elem_of_seqZ. lia.
  - simpl. by left.
  - intros t [->|[->|(k & Hk & [-> | ->])]]%Hin; simpl;
      rewrite ?list_elem_of_singleton; intros [= ?]; lia.
Qed.

End TaskGraph.

(** ** The public entry point *)

Section PublicEntry.
Context {K : Kernels}.

(** C5.  Without a [Lookahead] entry in the options the public [herk]
    runs the driver with lookahead 1: the tasks handed to the runtime
    are those of lookahead 1 and the memory on return is the one the
    driver leaves from the order the runtime picks for them.  With an
    entry, the same holds with the integer member of its value.  The
    default is the pipeline of lookahead 1 and no other: for two block
    columns or more the tasks issued are not those of lookahead 0, the
    broadcast of column 1 is issued ahead of the first update, and in
    every order the runtime may pick the broadcast of column [k+1] runs
    after the update [k-1]. *)
Theorem herk_default_lookahead {dbl} target alpha A beta C
    (opts : gmap Option (Value dbl)) (runtime : Runtime) m :
  (opts !! Lookahead = None ->
   herk_issued alpha A beta opts = herk_tasks alpha beta (m_nt A) 1
   /\ herk target alpha A beta C opts runtime m
      = specialization_herk target alpha A beta C 1
          (runtime (herk_tasks alpha beta (m_nt A) 1)) m)
  /\ (forall v, opts !! Lookahead = Some v ->
       herk_issued alpha A beta opts = herk_tasks alpha beta (m_nt A) (i_ v)
       /\ herk target alpha A beta C opts runtime m
          = specialization_herk target alpha A beta C (i_ v)
              (runtime (herk_tasks alpha beta (m_nt A) (i_ v))) m)
  /\ (opts !! Lookahead = None ->
      2 <= m_nt A -> 1 + m_nt A <= INT64_MAX ->
      let G := herk_issued alpha A beta opts in
      G ≠ herk_tasks alpha beta (m_nt A) 0
      /\ before G (disseminate_task 1 1) (advance_task alpha beta 0)
      /\ (valid_schedule G (runtime G) = true ->
          forall k, 1 <= k -> k + 1 < m_nt A ->
          before (runtime G) (advance_task alpha beta (k - 1))
            (disseminate_task 1 (k + 1)))).
Proof.
  unfold herk, specialization_herk_run, herk_issued, lookahead_of.
  split; [by intros ->|]. split; [by intros v ->|].
  intros -> Hnt Hmax. set (G := herk_tasks alpha beta (m_nt A) 1).
  assert (Hsorted : StronglySorted (issued_earlier 1) G)
    by (apply herk_tasks_sorted; lia).
  assert (Hnd : NoDup G) by by eapply issued_earlier_NoDup.
  split; [|split].
  - unfold G. rewrite !herk_tasks_unfold by lia.
    rewrite !Z.min_l by lia.
    rewrite (seqZ_cons 1 1), (seqZ_nil 1 0) by lia.
    intros Heq. by injection Heq.
  - apply (issued_earlier_before 1); [done| | |].
    + apply disseminate_issued; lia.
    + apply advance_issued; lia.
    + rewrite issue_rank_disseminate, issue_rank_advance. simpl. lia.
  - intros Hv k Hk Hk1. apply (valid_schedule_before G); [done|done| |].
    + apply disseminate_issued; lia.
    + replace (k - 1) with (k + 1 - 1 - 1) by lia.
      apply disseminate_waits_for_advance; lia.
Qed.

End PublicEntry.

(** ** What the driver leaves alone *)

Section Frame.
Context {K : Kernels}.

(** The tiles the driver works on are stored in the triangle [C.uplo()]
    of the storage, whether it works on [C] or on [conj_transpose(C)]. *)
Lemma lower_view_stored_triangle C i j :
  0 <= j -> j <= i -> i < h_mt C ->
  let key := stored_at (lower_view C) (i, j) in
  (if decide (h_uplo C = Lower) then key.2 <= key.1 else key.1 <= key.2)
  /\ 0 <= key.1 < h_mt C /\ 0 <= key.2 < h_mt C.
Proof.
  intros H0 Hji Hi. unfold lower_view, uplo_logical, stored_at, conj_transpose.
  destruct (h_op C) eqn:Hop, (h_uplo C) eqn:Hu; simpl;
    rewrite ?Hop; simpl; lia.
Qed.

(** On return the host copy of a tile of [C] is as it was on entry when
    this process does not own the tile, when the tile lies outside the
    stored triangle of [C], or when its index is outside the matrix:
    for every target, lookahead and execution order the driver writes
    only local tiles of the stored triangle.  The kernels and the tile
    transfers are as the memory model has them. *)
Theorem herk_frame target alpha A beta C la sched m :
  m_mt A = h_mt C -> 1 <= m_nt A -> 0 <= la -> la + m_nt A <= INT64_MAX ->
  valid_schedule (herk_tasks alpha beta (m_nt A) la) sched = true ->
  let r := specialization_herk target alpha A beta C la sched m in
  (forall key, h_owned C key = false -> C_host r !! key = C_host m !! key)
  /\ (forall i j,
        (if decide (h_uplo C = Lower) then i < j else j < i) ->
        C_host r !! (i, j) = C_host m !! (i, j))
  /\ (forall i j, ~ (0 <= i < h_mt C /\ 0 <= j < h_mt C) ->
        C_host r !! (i, j) = C_host m !! (i, j)).
Proof.
  intros Hmt Hnt Hla Hmax Hv r.
  destruct (specialization_herk_result target alpha A beta C la sched m
              Hmt Hnt Hla Hmax Hv) as (_ & _ & Hother & _).
  fold r in Hother.
  assert (Hkeys : forall key,
    key ∈ stored_at (lower_view C) <$> local_tiles (lower_view C) ->
    h_owned C key = true
    /\ (if decide (h_uplo C = Lower) then key.2 <= key.1 else key.1 <= key.2)
    /\ 0 <= key.1 < h_mt C /\ 0 <= key.2 < h_mt C).
  { intros key ([i j] & -> & Hij)%list_elem_of_fmap.
    apply elem_of_local_tiles in Hij as (Hloc & H0 & Hji & Hi).
    rewrite lower_view_mt in Hi. split.
    - revert Hloc. unfold tileIsLocal, lower_view.
      by destruct (decide (uplo_logical C = Upper)).
    - by apply lower_view_stored_triangle. }
  split; [|split].
  - intros key Hown. apply Hother. intros [Ho _]%Hkeys. congruence.
  - intros i j Hij. apply Hother. intros (_ & Htri & _)%Hkeys.
    simpl in Htri. destruct (decide (h_uplo C = Lower)); lia.
  - intros i j Hij. apply Hother. intros (_ & _ & Hr)%Hkeys.
    simpl in Hr. lia.
Qed.

End Frame.

(** *** The further properties on the toy instance *)

(** With a negative lookahead the last column is never sent and the
    last update runs without it. *)
Example toy_negative_lookahead :
  C_host (toy_herk HostTask (-1) (toy_tasks (-1))) !! (0, 0) = Some (-1)
  /\ C_host (toy_herk HostTask 0 (toy_tasks 0)) !! (0, 0) = Some 31.
Proof. vm_compute. done. Qed.

Lemma herk_tasks_census_witness : length (toy_tasks 1) = 6%nat.
Proof.
  assert (Hmax : 1 + 3 <= INT64_MAX) by (vm_compute; discriminate).
  exact (proj2 (herk_tasks_census (K := toy_kernels) 2 3 3 1
                  ltac:(lia) ltac:(lia) Hmax)).
Defined.

Lemma herk_lookahead_saturates_witness : toy_tasks 5 = toy_tasks 2.
Proof.
  assert (Hmax : 5 + 3 <= INT64_MAX) by (vm_compute; discriminate).
  exact (proj1 (herk_lookahead_saturates (K := toy_kernels) 2 3 3 5
                  ltac:(lia) ltac:(lia) Hmax)).
Defined.

Lemma herk_lookahead_attained_witness :
  before (toy_tasks 1) (toy_disseminate 2) (toy_advance 1).
Proof.
  assert (Hmax : 1 + 3 <= INT64_MAX) by (vm_compute; discriminate).
  exact (proj1 (proj2 (herk_lookahead_attained (K := toy_kernels) 2 3 3 1
                         ltac:(lia) ltac:(lia) Hmax))
           1 ltac:(lia) ltac:(lia)).
Defined.

Lemma herk_lookahead_0_serial_witness :
  let sched :=
    [ @disseminate_task toy_kernels 0 0; toy_advance 0;
      @disseminate_task toy_kernels 0 1; toy_advance 1;
      @disseminate_task toy_kernels 0 2; toy_advance 2 ] in
  valid_schedule (toy_tasks 0) sched = true /\ sched = toy_tasks 0.
Proof.
  intros sched.
  assert (Hv : valid_schedule (toy_tasks 0) sched = true) by reflexivity.
  split; [exact Hv|].
  assert (Hmax : 3 <= INT64_MAX) by (vm_compute; discriminate).
  exact (herk_lookahead_0_serial (K := toy_kernels) 2 3 3 sched
           ltac:(lia) Hmax Hv).
Defined.

Lemma herk_negative_lookahead_witness :
  @herk_task toy_kernels 2 2 ∈ toy_tasks (-1)
  /\ forall t, t ∈ toy_tasks (-1) -> bcast 2 ∉ dep_out t.
Proof.
  assert (Hmax : 3 <= INT64_MAX) by (vm_compute; discriminate).
  destruct (herk_negative_lookahead (K := toy_kernels) 2 3 3 (-1)
              ltac:(lia) Hmax ltac:(lia) ltac:(lia)) as (_ & _ & Hin & _ & Hout).
  split; [exact Hin|exact Hout].
Defined.

Lemma herk_frame_witness :
  valid_schedule (toy_tasks 1) toy_schedule = true
  /\ C_host (toy_herk Devices 1 toy_schedule) !! (1, 0)
     = C_host toy_memory !! (1, 0).
Proof.
  assert (Hv : valid_schedule (toy_tasks 1) toy_schedule = true)
    by reflexivity.
  split; [exact Hv|].
  assert (Hmax : 1 + 3 <= INT64_MAX) by (vm_compute; discriminate).
  exact (proj1 (herk_frame (K := toy_kernels) Devices 2 toy_A 3 toy_C 1
                  toy_schedule toy_memory
                  eq_refl ltac:(simpl; lia) ltac:(lia) Hmax Hv)
           (1, 0) eq_refl).
Defined.

Lemma herk_lookahead_overlap_witness :
  exists sched,
    valid_schedule (toy_tasks 1) sched = true /\ sched ≠ toy_tasks 1
    /\ before sched (toy_advance 0) (toy_disseminate 1).
Proof.
  assert (Hmax : 1 + 3 <= INT64_MAX) by (vm_compute; discriminate).
  exact (herk_lookahead_overlap (K := toy_kernels) 2 3 3 1
           ltac:(lia) ltac:(lia) Hmax).
Defined.

(** The toy run without a [Lookahead] entry, under a runtime that
    picks the order [toy_schedule]. *)
Lemma herk_default_lookahead_witness :
  let opts : gmap Option (Value Z) := ∅ in
  let runtime : Runtime := fun _ => toy_schedule in
  herk_issued (K := toy_kernels) 2 toy_A 3 opts = toy_tasks 1
  /\ herk (K := toy_kernels) Devices 2 toy_A 3 toy_C opts runtime toy_memory
     = toy_herk Devices 1 toy_schedule
  /\ before toy_schedule (toy_advance 0) (toy_disseminate 2).
Proof.
  intros opts runtime.
  destruct (herk_default_lookahead (K := toy_kernels) Devices 2 toy_A 3 toy_C
              opts runtime toy_memory) as (Hnone & _ & Hpipe).
  destruct (Hnone eq_refl) as [Hissued Hrun].
  assert (Hmax : 1 + 3 <= INT64_MAX) by (vm_compute; discriminate).
  destruct (Hpipe eq_refl ltac:(simpl; lia) Hmax) as (_ & _ & Hbound).
  split; [exact Hissued|]. split; [exact Hrun|].
  exact (Hbound eq_refl 1 ltac:(lia) ltac:(simpl; lia)).
Defined.

End Herk.

(** * heev *)

Module Heev.

(** What [heev] calls.  [HermitianMatrix] is the distributed matrix as a
    whole; a collective routine is a function of it.  [band_index A]
    lists the tiles of the band matrix built from [A], [tile_of A ij] is
    the content of a tile of [A]. *)
Class Kernels : Type := {
  real_t : Type;
  (* a value-initialized real_t *)
  real_zero : real_t;
  Tile : Type;
  HermitianMatrix : Type;
  (* A.n() *)
  n_of : HermitianMatrix -> Z;
  band_index : HermitianMatrix -> list (Z * Z);
  tile_of : HermitianMatrix -> Z * Z -> Tile;
  (* he2hb( A, T, opts ): the new A *)
  he2hb : HermitianMatrix -> HermitianMatrix;
  (* hb2st( Aband, opts ): the new Aband *)
  hb2st : gmap (Z * Z) Tile -> gmap (Z * Z) Tile;
  (* internal::copyhb2st( Aband, W, E ): the new W and E *)
  copyhb2st :
    gmap (Z * Z) Tile -> list real_t -> list real_t -> list real_t * list real_t;
  (* sterf( W, E, opts ): the new W and E *)
  sterf : list real_t -> list real_t -> list real_t * list real_t
}.

(** The steps of [heev], in the order of the source. *)
Inductive Stage : Type :=
| stage_he2hb
| stage_insertLocalTiles
| stage_he2hbGather
| stage_resize
| stage_hb2st
| stage_copyhb2st
| stage_sterf.

#[global] Instance Stage_eq_dec : EqDecision Stage.
Proof. solve_decision. Defined.

Section Driver.
Context {K : Kernels}.

(** Modelled from the spec: the owning process of a tile, the 2-D
    block-cyclic function of §3 over a [p]-by-[q] process grid. *)
Definition tileRank (p q : Z) (ij : Z * Z) : Z :=
  ij.1 mod p + (ij.2 mod q) * p.

(** Modelled from the spec: [insertLocalTiles], which creates on a
    process the tiles it owns, and [he2hbGather], the gather of §4.4
    that fills the tiles of the band matrix on their owner with the
    tiles of [A]. *)
Definition insertLocalTiles (p q rank : Z) (index : list (Z * Z))
    : list (Z * Z) :=
  filter (fun ij => tileRank p q ij = rank) index.

Definition he2hbGather (A : HermitianMatrix) (local : list (Z * Z))
    : gmap (Z * Z) Tile :=
  list_to_map ((fun ij => (ij, tile_of A ij)) <$> local).

(** [std::vector<real_t>( count )] and [W.resize( count )] for an
    [int64_t] count: a negative count converts to a size above
    [max_size()] and the call throws [std::length_error]. *)
Definition vector_new (count : Z) : option (list real_t) :=
  if decide (0 <= count) then Some (replicate (Z.to_nat count) real_zero)
  else None.

Definition vector_resize (count : Z) (W : list real_t)
    : option (list real_t) :=
  if decide (0 <= count)
  then Some (take (Z.to_nat count) W
             ++ replicate (Z.to_nat count - length W) real_zero)
  else None.

(** One process during the call: the distributed matrix, the tiles of
    the band matrix it holds, its vector [W], and the stages it has
    executed. *)
Record Process : Type := mkProcess {
  p_A : HermitianMatrix;
  p_Aband : gmap (Z * Z) Tile;
  p_W : list real_t;
  p_stages : list Stage
}.

(** The call returns, or leaves by the exception. *)
Inductive Outcome : Type :=
| Returned (s : Process)
| Threw_length_error (s : Process).

Definition process_of (o : Outcome) : Process :=
  match o with Returned s => s | Threw_length_error s => s end.

(** Lines 68-71: the band matrix is declared over a 1-by-1 process
    grid, its local tiles are inserted and the band of [A] is gathered
    into them.  The tiles of [Aband] that the process [rank] holds
    afterwards. *)
Definition gathered_band (rank : Z) (A : HermitianMatrix)
    : gmap (Z * Z) Tile :=
  he2hbGather A (insertLocalTiles 1 1 rank (band_index A)).

(** [heev] on the process [rank] of the communicator of [A]. *)
Definition heev (rank : Z) (A : HermitianMatrix) (W : list real_t)
    : Outcome :=
  let n := n_of A in
  (* 1. Reduce to band form. *)
  let A1 := he2hb A in
  (* Copy band.  Currently, gathers band matrix to rank 0. *)
  let Aband := gathered_band rank A1 in
  let stages := [stage_he2hb; stage_insertLocalTiles; stage_he2hbGather] in
  match vector_resize n W with
  | None => Threw_length_error (mkProcess A1 Aband W stages)
  | Some W1 =>
      let stages := stages ++ [stage_resize] in
      if decide (rank = 0) then
        (* 2. Reduce band to symmetric tri-diagonal. *)
        let Aband2 := hb2st Aband in
        let stages := stages ++ [stage_hb2st] in
        match vector_new (n - 1) with
        | None => Threw_length_error (mkProcess A1 Aband2 W1 stages)
        | Some E =>
            let '(W2, E2) := copyhb2st Aband2 W1 E in
            (* 3. Tri-diagonal eigenvalue solver. *)
            let '(W3, _) := sterf W2 E2 in
            Returned
              (mkProcess A1 Aband2 W3
                 (stages ++ [stage_copyhb2st; stage_sterf]))
        end
      else Returned (mkProcess A1 Aband W1 stages)
  end.

(** The stages of the whole pipeline. *)
Definition pipeline : list Stage :=
  [stage_he2hb; stage_insertLocalTiles; stage_he2hbGather; stage_resize;
   stage_hb2st; stage_copyhb2st; stage_sterf].

End Driver.

(** An instance for running the driver: the matrix is the list of its
    diagonal entries, one entry per tile. *)
Definition toy_kernels : Kernels := {|
  real_t := Z; real_zero := 0; Tile := Z;
  HermitianMatrix := list Z;
  n_of := fun A => Z.of_nat (length A);
  band_index := fun A => (fun i => (i, i)) <$> seqZ 0 (Z.of_nat (length A));
  tile_of := fun A ij => default 0 (A !! Z.to_nat ij.1);
  he2hb := fun A => A;
  hb2st := fun band => band;
  copyhb2st := fun band W E =>
    ((fun i => default 0 (band !! (i, i))) <$> seqZ 0 (Z.of_nat (length W)), E);
  sterf := fun W E => (reverse W, E)
|}.

Definition toy_heev (rank : Z) (A W : list Z) : Outcome :=
  @heev toy_kernels rank A W.

(** ** Properties of heev *)

Section Properties.
Context {K : Kernels}.
Implicit Types (A : HermitianMatrix) (W : list real_t).

(** On a 1-by-1 grid every tile belongs to the process 0. *)
Lemma tileRank_1_1 ij : tileRank 1 1 ij = 0.
Proof. unfold tileRank. rewrite !Z.mod_1_r. lia. Qed.

Lemma gathered_band_elsewhere rank A : rank ≠ 0 -> gathered_band rank A = ∅.
Proof.
  intros Hr. unfold gathered_band, insertLocalTiles.
  induction (band_index A) as [|ij l IH]; [done|].
  rewrite filter_cons, decide_False; [done|].
  rewrite tileRank_1_1. congruence.
Qed.

Lemma he2hbGather_lookup A l ij :
  he2hbGather A l !! ij = if decide (ij ∈ l) then Some (tile_of A ij) else None.
Proof.
  unfold he2hbGather. induction l as [|x l IH]; csimpl.
  - by rewrite lookup_empty.
  - destruct (decide (x = ij)) as [->|Hne].
    + rewrite lookup_insert_eq, decide_True; [done|by left].
    + rewrite lookup_insert_ne, IH by done.
      destruct (decide (ij ∈ l)) as [Hin|Hout].
      * rewrite decide_True; [done|by right].
      * rewrite decide_False; [done|].
        intros [->|?]%elem_of_cons; done.
Qed.

Lemma gathered_band_designated A ij :
  gathered_band 0 A !! ij
  = if decide (ij ∈ band_index A) then Some (tile_of A ij) else None.
Proof.
  unfold gathered_band. rewrite he2hbGather_lookup.
  assert (Hall : insertLocalTiles 1 1 0 (band_index A) = band_index A).
  { unfold insertLocalTiles. induction (band_index A) as [|x l IH]; [done|].
    rewrite filter_cons, decide_True by apply tileRank_1_1. by rewrite IH. }
  by rewrite Hall.
Qed.

Lemma vector_resize_length n W W1 :
  vector_resize n W = Some W1 -> 0 <= n /\ length W1 = Z.to_nat n.
Proof.
  unfold vector_resize. destruct (decide (0 <= n)); [|done].
  intros [= <-]. split; [done|].
  rewrite length_app, length_take, length_replicate. lia.
Qed.

(** C8.  On every process the stages run are an initial segment of
    he2hb, gather, resize, hb2st, copyhb2st, sterf, in that order.  The
    band matrix lives on a 1-by-1 grid, so the process 0 owns all its
    tiles: after the gather the process 0 holds every tile of the band
    and any other process holds none.  A process other than 0 runs none
    of hb2st, copyhb2st and sterf; the process 0 runs them after the
    gather (all three when [n >= 1]). *)
Theorem heev_stage_order rank A W :
  let o := heev rank A W in
  let A1 := he2hb A in
  p_stages (process_of o) `prefix_of` pipeline
  /\ (forall ij, ij ∈ band_index A1 -> tileRank 1 1 ij = 0)
  /\ (forall ij, ij ∈ band_index A1 ->
       gathered_band 0 A1 !! ij = Some (tile_of A1 ij))
  /\ (rank ≠ 0 ->
       gathered_band rank A1 = ∅
       /\ p_Aband (process_of o) = ∅
       /\ (stage_hb2st ∉ p_stages (process_of o))
       /\ (stage_copyhb2st ∉ p_stages (process_of o))
       /\ (stage_sterf ∉ p_stages (process_of o))
       /\ (0 <= n_of A -> p_stages (process_of o) = take 4 pipeline))
  /\ (rank = 0 -> 1 <= n_of A ->
       p_stages (process_of o) = pipeline
       /\ p_Aband (process_of o) = hb2st (gathered_band 0 A1)).
Proof.
  intros o A1. subst o. unfold heev. fold A1.
  split; [|split; [|split; [|split]]].
  - destruct (vector_resize (n_of A) W) as [W1|]; simpl.
    + destruct (decide (rank = 0)); simpl.
      * destruct (vector_new (n_of A - 1)) as [E|]; simpl.
        -- destruct (copyhb2st _ _ _) as [W2 E2].
           destruct (sterf W2 E2) as [W3 E3]. simpl. done.
        -- by exists [stage_copyhb2st; stage_sterf].
      * by exists [stage_hb2st; stage_copyhb2st; stage_sterf].
    + by exists [stage_resize; stage_hb2st; stage_copyhb2st; stage_sterf].
  - intros ij _. apply tileRank_1_1.
  - intros ij Hij. rewrite gathered_band_designated. by rewrite decide_True.
  - intros Hr. split; [by apply gathered_band_elsewhere|].
    rewrite gathered_band_elsewhere by done.
    unfold vector_resize.
    destruct (decide (0 <= n_of A)); simpl;
      rewrite ?decide_False by done; simpl;
      repeat (split; [try done; intros H; repeat (apply elem_of_cons in H as [H|H]; [discriminate|]); by apply elem_of_nil in H|]);
      [done|lia].
  - intros -> Hn. unfold vector_resize, vector_new.
    rewrite !decide_True by lia. simpl.
    destruct (copyhb2st _ _ _) as [W2 E2].
    destruct (sterf W2 E2) as [W3 E3]. done.
Qed.

(** C9.  When [heev] returns, [W.resize(n)] has run on the process and
    gave [W] the length [n].  On a process other than 0 nothing follows:
    [W] is the resized vector, the entries it had before followed by
    zeros, whatever the matrix.  Only on the process 0 does [W] receive
    the eigenvalues, the output of sterf. *)
Theorem heev_eigenvalues_stay_on_designated rank A W s :
  heev rank A W = Returned s ->
  let n := n_of A in
  let W1 := take (Z.to_nat n) W ++ replicate (Z.to_nat n - length W) real_zero in
  0 <= n
  /\ vector_resize n W = Some W1
  /\ length W1 = Z.to_nat n
  /\ stage_resize ∈ p_stages s
  /\ (rank ≠ 0 -> p_W s = W1 /\ p_stages s = take 4 pipeline)
  /\ (rank = 0 ->
       exists E,
         vector_new (n - 1) = Some E
         /\ p_W s
            = (let '(W2, E2) :=
                 copyhb2st (hb2st (gathered_band 0 (he2hb A))) W1 E in
               sterf W2 E2).1
         /\ p_stages s = pipeline).
Proof.
  intros Hret n W1. unfold heev in Hret. fold n in Hret.
  destruct (vector_resize n W) as [W1'|] eqn:Hres; [|done].
  pose proof (vector_resize_length _ _ _ Hres) as [Hn Hlen].
  assert (W1' = W1) as ->.
  { unfold vector_resize in Hres. rewrite decide_True in Hres by done.
    injection Hres as <-. reflexivity. }
  split; [done|]. split; [done|]. split; [done|].
  destruct (decide (rank = 0)) as [->|Hr].
  - destruct (vector_new (n - 1)) as [E|] eqn:HE; [|done].
    destruct (copyhb2st _ _ _) as [W2 E2] eqn:Hcopy.
    destruct (sterf W2 E2) as [W3 E3] eqn:Hst.
    injection Hret as <-. simpl.
    split; [do 3 right; by left|]. split; [done|]. intros _.
    exists E. by rewrite Hcopy, Hst.
  - injection Hret as <-. simpl.
    split; [do 3 right; by left|]. split; [done|]. done.
Qed.

(** *** When [heev] leaves by the exception *)

(** [heev] returns on a process exactly when [W.resize( n )] and, on
    the process 0, [std::vector<real_t> E( n - 1 )] are given sizes that
    are not negative.  For an empty matrix ([n = 0]) the processes part
    ways: the process 0 runs hb2st and then leaves by
    [std::length_error] at the construction of [E], with [W] emptied
    and neither copyhb2st nor sterf run, while every other process
    returns with [W] empty. *)
Theorem heev_length_error rank A W :
  ((exists s, heev rank A W = Returned s)
   <-> 0 <= n_of A /\ (rank = 0 -> 1 <= n_of A))
  /\ (n_of A = 0 -> rank = 0 ->
      heev rank A W
      = Threw_length_error
          (mkProcess (he2hb A) (hb2st (gathered_band 0 (he2hb A))) []
             (take 5 pipeline)))
  /\ (n_of A = 0 -> rank ≠ 0 ->
      heev rank A W
      = Returned (mkProcess (he2hb A) ∅ [] (take 4 pipeline))).
Proof.
  unfold heev, vector_resize, vector_new. split; [|split].
  - destruct (decide (0 <= n_of A)) as [Hn|Hn].
    + destruct (decide (rank = 0)) as [->|Hr].
      * destruct (decide (0 <= n_of A - 1)) as [Hn1|Hn1].
        -- destruct (copyhb2st _ _ _) as [W2 E2].
           destruct (sterf W2 E2) as [W3 E3].
           split; [intros _; split; [done|lia]|]. intros _. by eexists.
        -- split; [by intros [s ?]|]. intros [_ H1]. specialize (H1 eq_refl).
           lia.
      * split; [done|]. intros _. by eexists.
    + split; [by intros [s ?]|]. intros [? _]. done.
  - intros H0 ->. rewrite H0. simpl. reflexivity.
  - intros H0 Hr. rewrite H0. simpl.
    rewrite decide_False by done. by rewrite gathered_band_elsewhere.
Qed.

End Properties.

(** *** Runs of the toy instance *)

Example toy_heev_rank_0 :
  toy_heev 0 [3; 1; 2] [9]
  = Returned (mkProcess (K := toy_kernels) [3; 1; 2]
                (list_to_map [((0, 0), 3); ((1, 1), 1); ((2, 2), 2)])
                [2; 1; 3] pipeline).
Proof. reflexivity. Qed.

Example toy_heev_rank_1 :
  toy_heev 1 [3; 1; 2] [9]
  = Returned (mkProcess (K := toy_kernels) [3; 1; 2] ∅ [9; 0; 0]
                (take 4 pipeline)).
Proof. reflexivity. Qed.

(** On an empty matrix the process 0 leaves by the exception of
    [std::vector<real_t> E(n - 1)]. *)
Example toy_heev_empty :
  toy_heev 0 [] [9]
  = Threw_length_error (mkProcess (K := toy_kernels) [] ∅ []
                          (take 5 pipeline)).
Proof. reflexivity. Qed.

Lemma heev_stage_order_witness :
  (1 : Z) ≠ 0
  /\ p_Aband (process_of (toy_heev 1 [3; 1; 2] [9])) = ∅
  /\ p_stages (process_of (toy_heev 0 [3; 1; 2] [9])) = pipeline.
Proof.
  assert (H1 : (1 : Z) ≠ 0) by discriminate.
  split; [exact H1|]. split.
  - exact (proj1 (proj2 (proj1 (proj2 (proj2 (proj2
      (heev_stage_order (K := toy_kernels) 1 [3; 1; 2] [9])))) H1))).
  - exact (proj1 (proj2 (proj2 (proj2 (proj2
      (heev_stage_order (K := toy_kernels) 0 [3; 1; 2] [9]))))
      eq_refl ltac:(simpl; lia))).
Defined.

Lemma heev_eigenvalues_stay_on_designated_witness :
  toy_heev 1 [3; 1; 2] [9]
  = Returned (mkProcess (K := toy_kernels) [3; 1; 2] ∅ [9; 0; 0]
                (take 4 pipeline))
  /\ p_W (process_of (toy_heev 1 [3; 1; 2] [9])) = [9; 0; 0].
Proof.
  assert (Hret : toy_heev 1 [3; 1; 2] [9]
                 = Returned (mkProcess (K := toy_kernels) [3; 1; 2] ∅
                               [9; 0; 0] (take 4 pipeline)))
    by reflexivity.
  split; [exact Hret|].
  destruct (heev_eigenvalues_stay_on_designated (K := toy_kernels)
              1 [3; 1; 2] [9] _ Hret) as (_ & _ & _ & _ & H & _).
  rewrite Hret. simpl. exact (proj1 (H ltac:(discriminate))).
Defined.

End Heev.

(** * The test drivers *)

(** [test_getrf], [test_syr2k] and [test_gemm] with their [_work]
    templates.  A driver builds test matrices, times the SLATE routine,
    and, as the flags [check] and [ref] of its parameters ask, checks
    the result and times the ScaLAPACK routine.  The BLACS, ScaLAPACK,
    MPI and SLATE calls are external to these sources: each straight
    run of them is one block of the environment, a function of the
    state of the process that returns the numbers the driver goes on
    with.  The flags, the branches, the assertions and the values
    written to the parameters are those of the sources. *)
Module Tester.

Inductive DataType : Type :=
  Integer | Single | Double | SingleComplex | DoubleComplex.

Inductive Norm : Type := One | Two | Inf | Fro | Max.
Inductive Op : Type := NoTrans | Trans | ConjTrans.
Inductive Uplo : Type := Upper | Lower | General.

#[global] Instance Norm_eq_dec : EqDecision Norm.
Proof. solve_decision. Defined.
#[global] Instance Op_eq_dec : EqDecision Op.
Proof. solve_decision. Defined.

(** How a driver is left: it returns, an [assert] fails, or it throws. *)
Inductive Outcome (T : Type) : Type :=
| Returned (x : T)
| Assertion_failed
| Threw_exception.
Arguments Returned {T} x.
Arguments Assertion_failed {T}.
Arguments Threw_exception {T}.

#[local] Instance Outcome_bind : MBind Outcome := fun A B f m =>
  match m with
  | Returned x => f x
  | Assertion_failed => Assertion_failed
  | Threw_exception => Threw_exception
  end.

(** A block that holds an [assert]: [None] when the assertion fails. *)
Definition asserted {T} (o : option T) : Outcome T :=
  match o with Some x => Returned x | None => Assertion_failed end.

(** The blocks a driver has gone through, in order. *)
Inductive Step : Type :=
| step_setup       (* the BLACS grid, the test matrices, their descriptors *)
| step_copy_ref    (* the copy of the test data kept for the reference *)
| step_views       (* test_syr2k: the SLATE matrices and their transposes *)
| step_slate       (* the timed SLATE routine *)
| step_solve       (* test_getrf: getrs and the norms of the residual *)
| step_reference   (* the timed ScaLAPACK routine *)
| step_compare.    (* the norm of the difference with the reference *)

#[global] Instance Step_eq_dec : EqDecision Step.
Proof. solve_decision. Defined.

(** What the drivers take from outside.  [real] holds the [double] and
    [real_t] values, [scalar] the [scalar_t] ones, [World] the state of
    the process (grid, buffers, matrices).  The [DataType] argument of
    a block is the [scalar_t] of the template. *)
Class Environment : Type := {
  real : Type;
  scalar : Type;
  World : Type;
  (* arithmetic on floating-point values, as the drivers write it *)
  rmul : real -> real -> real;
  rdiv : real -> real -> real;
  radd : real -> real -> real;
  rsqrt : real -> real;
  rle : real -> real -> bool;
  rne0 : real -> bool;
  of_int : Z -> real;
  half : real;
  epsilon : DataType -> real;
  sabs : scalar -> real;
  (* test_getrf.cc, lines 67-88 (Am An p q nb), 94-97, 100 (m n),
     103-129 (trace lookahead target panel_threads ib; time_tst),
     148-193 (n nb lookahead target; A_norm, X_norm, R_norm),
     206-220 (m n; time_ref), 230-239 (A_ref_norm, error_norm), 251 *)
  getrf_setup : DataType -> Z -> Z -> Z -> Z -> Z -> World -> option World;
  getrf_copy_ref : DataType -> World -> option World;
  gflop_getrf : DataType -> Z -> Z -> real;
  timed_slate_getrf :
    DataType -> bool -> Z -> ascii -> Z -> Z -> World -> World * real;
  getrs_and_norms :
    DataType -> Z -> Z -> Z -> ascii -> World
    -> option (World * (real * real * real));
  timed_scalapack_pgetrf : DataType -> Z -> Z -> World -> option (World * real);
  getrf_difference_norms : DataType -> World -> World * (real * real);
  restore_blas_threads : World -> World;
  (* the test_gemm of part_001, lines 65-90 (n_ nb_ p q), 94-96,
     100-120 (trace lookahead; time_tst), 123 (n n n),
     134-161 (time_ref, C_tst_norm, error_norm) *)
  gemm_setup : DataType -> Z -> Z -> Z -> Z -> World -> option World;
  gemm_copy_ref : DataType -> World -> option World;
  timed_slate_gemm : DataType -> bool -> Z -> World -> World * real;
  gflop_gemm : DataType -> Z -> Z -> Z -> real;
  reference_gemm : DataType -> World -> World * (real * real * real);
  (* test_syr2k.cc, lines 69-100 (Am An Bm Bn Cm Cn p q nb), 105-107,
     111-125 (uplo trans), 127-151 (trace alpha beta lookahead target;
     time_tst), 154 (n n), 162-193 (A_norm, B_norm, C_orig_norm,
     time_ref, C_diff_norm) *)
  syr2k_setup :
    DataType -> Z -> Z -> Z -> Z -> Z -> Z -> Z -> Z -> Z -> World
    -> option World;
  syr2k_copy_ref : DataType -> World -> option World;
  syr2k_views : DataType -> Uplo -> Op -> World -> option World;
  timed_slate_syr2k :
    DataType -> bool -> scalar -> scalar -> Z -> ascii -> World
    -> World * real;
  gflop_syr2k : DataType -> Z -> Z -> real;
  reference_syr2k :
    DataType -> World -> World * (real * real * real * real * real)
}.

Section Drivers.
Context {E : Environment}.

(** The output values of [Params], and [Params] itself: the fields the
    three drivers read and write. *)
Record Results : Type := mkResults {
  time : real;
  gflops : real;
  ref_time : real;
  ref_gflops : real;
  error : real;
  okay : bool
}.

Record Params : Type := mkParams {
  datatype : DataType;
  dim_m : Z;
  dim_n : Z;
  dim_k : Z;
  p : Z;
  q : Z;
  nb : Z;
  ib : Z;
  lookahead : Z;
  panel_threads : Z;
  norm : Norm;
  uplo : Uplo;
  trans : Op;
  alpha : scalar;
  beta : scalar;
  check : ascii;
  ref : ascii;
  trace : ascii;
  target : ascii;
  tol : real;
  results : Results
}.

Definition with_results (f : Results -> Results) (P : Params) : Params :=
  mkParams (datatype P) (dim_m P) (dim_n P) (dim_k P) (p P) (q P) (nb P)
    (ib P) (lookahead P) (panel_threads P) (norm P) (uplo P) (trans P)
    (alpha P) (beta P) (check P) (ref P) (trace P) (target P) (tol P)
    (f (results P)).

(** [params.time() = v] and the like. *)
Definition set_time (v : real) : Params -> Params :=
  with_results (fun r =>
    mkResults v (gflops r) (ref_time r) (ref_gflops r) (error r) (okay r)).
Definition set_gflops (v : real) : Params -> Params :=
  with_results (fun r =>
    mkResults (time r) v (ref_time r) (ref_gflops r) (error r) (okay r)).
Definition set_ref_time (v : real) : Params -> Params :=
  with_results (fun r =>
    mkResults (time r) (gflops r) v (ref_gflops r) (error r) (okay r)).
Definition set_ref_gflops (v : real) : Params -> Params :=
  with_results (fun r =>
    mkResults (time r) (gflops r) (ref_time r) v (error r) (okay r)).
Definition set_error (v : real) : Params -> Params :=
  with_results (fun r =>
    mkResults (time r) (gflops r) (ref_time r) (ref_gflops r) v (okay r)).
Definition set_okay (v : bool) : Params -> Params :=
  with_results (fun r =>
    mkResults (time r) (gflops r) (ref_time r) (ref_gflops r) (error r) v).

(** What a driver leaves: the parameters, the state of the process and
    the blocks it went through. *)
Definition Run : Type := Params * World * list Step.

(** ** test_getrf *)

(** [test_getrf_work<scalar_t>( params, run )]. *)
Definition test_getrf_work (scalar_t : DataType) (params : Params)
    (run : bool) (w : World) : Outcome Run :=
  (* get & mark input values *)
  let m := dim_m params in
  let n := dim_n params in
  let ref_only := bool_decide (ref params = "o"%char) in
  let ref_ := bool_decide (ref params = "y"%char) || ref_only in
  let check_ := bool_decide (check params = "y"%char) && negb ref_only in
  let trace_ := bool_decide (trace params = "y"%char) in
  if negb run then Returned (params, w, []) else
  let Am := m in
  let An := n in
  (* initialize BLACS and ScaLAPACK; matrix A *)
  w ← asserted (getrf_setup scalar_t Am An (p params) (q params) (nb params) w);
  let log := [step_setup] in
  (* if check is required, copy test data and create a descriptor for it *)
  '(w, log) ←
    (if check_ || ref_
     then w' ← asserted (getrf_copy_ref scalar_t w);
          Returned (w', log ++ [step_copy_ref])
     else Returned (w, log));
  let gflop := gflop_getrf scalar_t m n in
  let '(params, w, log) :=
    if negb ref_only then
      (* Run SLATE test.  Factor PA = LU. *)
      let '(w', time_tst) :=
        timed_slate_getrf scalar_t trace_ (lookahead params) (target params)
          (panel_threads params) (ib params) w in
      (* compute and save timing/performance *)
      let params := set_time time_tst params in
      let params := set_gflops (rdiv gflop time_tst) params in
      (params, w', log ++ [step_slate])
    else (params, w, log) in
  (* when matrix is square shaped *)
  '(params, w, log) ←
    (if check_ && bool_decide (Am = An) then
       (* check residual for accuracy by performing a solve *)
       '(w', (A_norm, X_norm, R_norm)) ←
         asserted (getrs_and_norms scalar_t n (nb params) (lookahead params)
                     (target params) w);
       let residual := rdiv R_norm (rmul (rmul (of_int n) A_norm) X_norm) in
       let params := set_error residual params in
       let tol_ := rmul (rmul (tol params) half) (epsilon scalar_t) in
       let params := set_okay (rle (error (results params)) tol_) params in
       Returned (params, w', log ++ [step_solve])
     else Returned (params, w, log));
  if ref_ || (check_ && negb (bool_decide (Am = An))) then
    (* Run ScaLAPACK reference routine. *)
    '(w, time_ref) ← asserted (timed_scalapack_pgetrf scalar_t m n w);
    let params := set_ref_time time_ref params in
    let params := set_ref_gflops (rdiv gflop time_ref) params in
    let log := log ++ [step_reference] in
    (* when matrix is rectangular, we cannot solve *)
    let '(params, w, log) :=
      if check_ && negb (bool_decide (Am = An)) then
        (* compare to reference implementation for accuracy check *)
        let '(w', (A_ref_norm, error_norm)) :=
          getrf_difference_norms scalar_t w in
        (* error = error / reference *)
        let error_norm :=
          if rne0 A_ref_norm then rdiv error_norm A_ref_norm
          else error_norm in
        let params := set_error error_norm params in
        let tol_ := rmul (rmul (tol params) half) (epsilon scalar_t) in
        let params := set_okay (rle (error (results params)) tol_) params in
        (params, w', log ++ [step_compare])
      else (params, w, log) in
    Returned (params, restore_blas_threads w, log)
  else Returned (params, w, log).

(** [test_getrf( params, run )]: the switch over [params.datatype()]. *)
Definition test_getrf (params : Params) (run : bool) (w : World)
    : Outcome Run :=
  match datatype params with
  | Integer => Threw_exception
  | Single => test_getrf_work Single params run w
  | Double => test_getrf_work Double params run w
  | SingleComplex => test_getrf_work SingleComplex params run w
  | DoubleComplex => test_getrf_work DoubleComplex params run w
  end.

(** ** test_gemm *)

(** [test_gemm_work<scalar_t>( params, run )].  [n_] and [nb_] are
    [int] copies of the [int64_t] values. *)
Definition test_gemm_work (scalar_t : DataType) (params : Params)
    (run : bool) (w : World) : Outcome Run :=
  (* get & mark input values *)
  let n := dim_n params in
  let check_ := bool_decide (check params = "y"%char) in
  let ref_ := bool_decide (ref params = "y"%char) in
  let trace_ := bool_decide (trace params = "y"%char) in
  if negb run then Returned (params, w, []) else
  let n_ := int_wrap n in
  let nb_ := int_wrap (nb params) in
  (* Initialize BLACS and ScaLAPACK; the matrices; the descriptors *)
  w ← asserted (gemm_setup scalar_t n_ nb_ (p params) (q params) w);
  let log := [step_setup] in
  (* If check is required, save data and create a descriptor for it *)
  '(w, log) ←
    (if check_ || ref_
     then w' ← asserted (gemm_copy_ref scalar_t w);
          Returned (w', log ++ [step_copy_ref])
     else Returned (w, log));
  (* Call the routine using ScaLAPACK layout *)
  let '(w, time_tst) :=
    timed_slate_gemm scalar_t trace_ (lookahead params) w in
  let log := log ++ [step_slate] in
  (* Compute and save timing/performance *)
  let gflop := gflop_gemm scalar_t n n n in
  let params := set_time time_tst params in
  let params := set_gflops (rdiv gflop time_tst) params in
  let tol_ := tol params in
  let '(params, w, log) :=
    if check_ || ref_ then
      (* Comparison with reference routine from ScaLAPACK *)
      let '(w', (time_ref, C_tst_norm, error_norm)) :=
        reference_gemm scalar_t w in
      let error_norm :=
        if rne0 C_tst_norm then rdiv error_norm C_tst_norm else error_norm in
      let params := set_ref_time time_ref params in
      let params := set_ref_gflops (rdiv gflop time_ref) params in
      let params := set_error error_norm params in
      (params, restore_blas_threads w', log ++ [step_reference; step_compare])
    else (params, w, log) in
  Returned (set_okay (rle (error (results params)) tol_) params, w, log).

(** [test_gemm( params, run )]: only [double] is instantiated. *)
Definition test_gemm (params : Params) (run : bool) (w : World)
    : Outcome Run :=
  match datatype params with
  | Integer => Threw_exception
  | Single => Threw_exception
  | Double => test_gemm_work Double params run w
  | SingleComplex => Threw_exception
  | DoubleComplex => Threw_exception
  end.

(** ** test_syr2k *)

(** [test_syr2k_work<scalar_t>( params, run )]. *)
Definition test_syr2k_work (scalar_t : DataType) (params : Params)
    (run : bool) (w : World) : Outcome Run :=
  (* get & mark input values *)
  let n := dim_n params in
  let k := dim_k params in
  let check_ := bool_decide (check params = "y"%char) in
  let ref_ := bool_decide (ref params = "y"%char) in
  let trace_ := bool_decide (trace params = "y"%char) in
  if negb run then Returned (params, w, []) else
  (* Error analysis applies in these norms. *)
  if negb (bool_decide (norm params = One) || bool_decide (norm params = Inf)
           || bool_decide (norm params = Fro))
  then Threw_exception else
  (* setup so op(A) and op(B) are n-by-k *)
  let Am := if bool_decide (trans params = NoTrans) then n else k in
  let An := if bool_decide (trans params = NoTrans) then k else n in
  let Bm := Am in
  let Bn := An in
  let Cm := n in
  let Cn := n in
  w ← asserted (syr2k_setup scalar_t Am An Bm Bn Cm Cn (p params) (q params)
                  (nb params) w);
  let log := [step_setup] in
  (* if check is required, copy test data and create a descriptor for it *)
  '(w, log) ←
    (if check_ || ref_
     then w' ← asserted (syr2k_copy_ref scalar_t w);
          Returned (w', log ++ [step_copy_ref])
     else Returned (w, log));
  (* create SLATE matrices from the ScaLAPACK layouts *)
  w ← asserted (syr2k_views scalar_t (uplo params) (trans params) w);
  let log := log ++ [step_views] in
  (* Run SLATE test. *)
  let '(w, time_tst) :=
    timed_slate_syr2k scalar_t trace_ (alpha params) (beta params)
      (lookahead params) (target params) w in
  let log := log ++ [step_slate] in
  (* Compute and save timing/performance *)
  let gflop := gflop_syr2k scalar_t n n in
  let params := set_time time_tst params in
  let params := set_gflops (rdiv gflop time_tst) params in
  if check_ || ref_ then
    (* comparison with reference routine from ScaLAPACK *)
    let '(w', (A_norm, B_norm, C_orig_norm, time_ref, C_diff_norm)) :=
      reference_syr2k scalar_t w in
    let error_ :=
      rdiv C_diff_norm
        (radd
           (rmul (rmul (rmul (rsqrt (radd (of_int (int64_wrap (2 * k)))
                                          (of_int 2)))
                             (sabs (alpha params)))
                       A_norm)
                 B_norm)
           (rmul (rmul (of_int 2) (sabs (beta params))) C_orig_norm)) in
    let params := set_ref_time time_ref params in
    let params := set_ref_gflops (rdiv gflop time_ref) params in
    let params := set_error error_ params in
    let w := restore_blas_threads w' in
    (* Allow 3*eps *)
    let eps := epsilon scalar_t in
    let params :=
      set_okay (rle (error (results params)) (rmul (of_int 3) eps)) params in
    Returned (params, w, log ++ [step_reference; step_compare])
  else Returned (params, w, log).

(** [test_syr2k( params, run )]. *)
Definition test_syr2k (params : Params) (run : bool) (w : World)
    : Outcome Run :=
  match datatype params with
  | Integer => Threw_exception
  | Single => test_syr2k_work Single params run w
  | Double => test_syr2k_work Double params run w
  | SingleComplex => test_syr2k_work SingleComplex params run w
  | DoubleComplex => test_syr2k_work DoubleComplex params run w
  end.

End Drivers.

(** ** Properties of the test drivers *)

Section DriverProperties.
Context {E : Environment}.

Ltac flag H :=
  first [apply bool_decide_eq_true_1 in H | apply bool_decide_eq_false_1 in H].

(** One block of the environment at a time, with its possible results. *)
Ltac block :=
  match goal with
  | |- context [getrf_copy_ref ?a ?b] =>
      destruct (getrf_copy_ref a b) as [?|]; simpl
  | |- context [timed_slate_getrf ?a ?b ?c ?d ?e ?f ?g] =>
      destruct (timed_slate_getrf a b c d e f g) as [? ?]; simpl
  | |- context [getrs_and_norms ?a ?b ?c ?d ?e ?f] =>
      destruct (getrs_and_norms a b c d e f) as [[? [[? ?] ?]]|]; simpl
  | |- context [timed_scalapack_pgetrf ?a ?b ?c ?d] =>
      destruct (timed_scalapack_pgetrf a b c d) as [[? ?]|]; simpl
  | |- context [getrf_difference_norms ?a ?b] =>
      destruct (getrf_difference_norms a b) as [? [? ?]]; simpl
  | |- context [gemm_copy_ref ?a ?b] =>
      destruct (gemm_copy_ref a b) as [?|]; simpl
  | |- context [timed_slate_gemm ?a ?b ?c ?d] =>
      destruct (timed_slate_gemm a b c d) as [? ?]; simpl
  | |- context [reference_gemm ?a ?b] =>
      destruct (reference_gemm a b) as [? [[? ?] ?]]; simpl
  | |- context [syr2k_copy_ref ?a ?b] =>
      destruct (syr2k_copy_ref a b) as [?|]; simpl
  | |- context [syr2k_views ?a ?b ?c ?d] =>
      destruct (syr2k_views a b c d) as [?|]; simpl
  | |- context [timed_slate_syr2k ?a ?b ?c ?d ?e ?f ?g] =>
      destruct (timed_slate_syr2k a b c d e f g) as [? ?]; simpl
  | |- context [reference_syr2k ?a ?b] =>
      destruct (reference_syr2k a b) as [? [[[[? ?] ?] ?] ?]]; simpl
  end.

Ltac in_log :=
  rewrite ?elem_of_app, ?elem_of_cons, ?elem_of_nil in *;
  intuition (try congruence; try discriminate).

(** What a completed run of [test_getrf_work] has done, by the flags
    [check] and [ref] of the parameters.
    - The SLATE factorization runs unless [ref] is ['o']; with ['o']
      the run leaves [time], [gflops], [error] and [okay] as they were.
    - A check is made exactly when [check] is ['y'] and [ref] is not
      ['o'].  Without a check [error] and [okay] are left as they were.
      With a check, the SLATE factorization has run, [okay] is
      [error <= tol * 0.5 * eps], and the check is the solve with its
      residual for a square matrix, the comparison with the ScaLAPACK
      factors for a rectangular one, never both.
    - The ScaLAPACK factorization runs exactly when [ref] is ['y'] or
      ['o'], or a rectangular matrix is checked; the copy of the test
      data that it and the solve check work on has then been made.
    - The blocks come in the order setup, copy, SLATE factorization,
      solve check, ScaLAPACK factorization, comparison. *)
Theorem test_getrf_work_checks scalar_t params w params' w' log :
  test_getrf_work scalar_t params true w = Returned (params', w', log) ->
  let checked := check params = "y"%char /\ ref params ≠ "o"%char in
  let square := dim_m params = dim_n params in
  (step_slate ∈ log <-> ref params ≠ "o"%char)
  /\ (ref params = "o"%char ->
      time (results params') = time (results params)
      /\ gflops (results params') = gflops (results params)
      /\ error (results params') = error (results params)
      /\ okay (results params') = okay (results params))
  /\ (step_solve ∈ log \/ step_compare ∈ log <-> checked)
  /\ (~ checked ->
      error (results params') = error (results params)
      /\ okay (results params') = okay (results params))
  /\ (checked ->
      step_slate ∈ log
      /\ okay (results params')
         = rle (error (results params'))
             (rmul (rmul (tol params) half) (epsilon scalar_t))
      /\ (step_solve ∈ log <-> square)
      /\ (step_compare ∈ log <-> ~ square))
  /\ (step_reference ∈ log
      <-> ref params = "y"%char \/ ref params = "o"%char
          \/ (checked /\ ~ square))
  /\ (step_reference ∈ log -> step_copy_ref ∈ log)
  /\ (step_solve ∈ log -> step_copy_ref ∈ log)
  /\ log `sublist_of` [step_setup; step_copy_ref; step_slate; step_solve;
                       step_reference; step_compare].
Proof.
  unfold test_getrf_work, mbind, Outcome_bind, asserted. simpl.
  destruct (getrf_setup _ _ _ _ _ _ w) as [w1|]; [|done].
  destruct (bool_decide (ref params = "o"%char)) eqn:Ho,
    (bool_decide (ref params = "y"%char)) eqn:Hy,
    (bool_decide (check params = "y"%char)) eqn:Hc,
    (bool_decide (dim_m params = dim_n params)) eqn:Hmn;
    flag Ho; flag Hy; flag Hc; flag Hmn; simpl;
    repeat block; try done; intros [= <- <- <-]; simpl;
    repeat split; intros; try done; try congruence;
    try (by repeat first [apply sublist_nil | apply sublist_skip
                         | apply sublist_cons]);
    in_log.
Qed.

(** [test_gemm] runs for [double] only and throws for every other
    datatype.  A completed run has always run the SLATE routine, and
    always assigns [okay], as [error <= tol]: also when neither [check]
    nor [ref] is ['y'], where no comparison is made, the ScaLAPACK
    routine is not run, and [error] is still the value the parameters
    held on entry.  With [check] or [ref] the reference is run on the
    copy of the test data and the error is relative to the norm of the
    result when that norm is not zero. *)
Theorem test_gemm_okay params w :
  (datatype params ≠ Double ->
   forall run, test_gemm params run w = Threw_exception)
  /\ (forall params' w' log,
        test_gemm params true w = Returned (params', w', log) ->
        let compared := check params = "y"%char \/ ref params = "y"%char in
        datatype params = Double
        /\ step_slate ∈ log
        /\ okay (results params')
           = rle (error (results params')) (tol params)
        /\ (step_reference ∈ log <-> compared)
        /\ (step_compare ∈ log <-> compared)
        /\ (step_reference ∈ log -> step_copy_ref ∈ log)
        /\ (~ compared ->
            error (results params') = error (results params)
            /\ ref_time (results params') = ref_time (results params)
            /\ ref_gflops (results params') = ref_gflops (results params))).
Proof.
  unfold test_gemm. split.
  - intros Hd run. by destruct (datatype params).
  - intros params' w' log.
    destruct (datatype params); try done.
    unfold test_gemm_work, mbind, Outcome_bind, asserted. simpl.
    destruct (gemm_setup _ _ _ _ _ w) as [w1|]; [|done].
    destruct (bool_decide (check params = "y"%char)) eqn:Hc,
      (bool_decide (ref params = "y"%char)) eqn:Hy;
      flag Hc; flag Hy; simpl;
      repeat block; try done; intros [= <- <- <-]; simpl;
      repeat split; intros; try done; try congruence; in_log.
Qed.

(** [test_syr2k_work] checks the norm only when it runs: with [run]
    false it returns at once, whatever the norm; with [run] true and a
    norm other than One, Inf and Fro it throws before anything is set
    up.  A completed run has run the SLATE routine; it runs the
    ScaLAPACK routine and assigns [error] and [okay] exactly when
    [check] or [ref] is ['y'] (so [ref] alone makes a check), with
    [okay] being [error <= 3 * eps]; otherwise [error], [okay],
    [ref_time] and [ref_gflops] are left as they were. *)
Theorem test_syr2k_work_checks scalar_t params w :
  test_syr2k_work scalar_t params false w = Returned (params, w, [])
  /\ (norm params ≠ One -> norm params ≠ Inf -> norm params ≠ Fro ->
      test_syr2k_work scalar_t params true w = Threw_exception)
  /\ (forall params' w' log,
        test_syr2k_work scalar_t params true w = Returned (params', w', log) ->
        let compared := check params = "y"%char \/ ref params = "y"%char in
        (norm params = One \/ norm params = Inf \/ norm params = Fro)
        /\ step_slate ∈ log
        /\ (step_reference ∈ log <-> compared)
        /\ (step_reference ∈ log -> step_copy_ref ∈ log)
        /\ (compared ->
            okay (results params')
            = rle (error (results params'))
                (rmul (of_int 3) (epsilon scalar_t)))
        /\ (~ compared ->
            error (results params') = error (results params)
            /\ okay (results params') = okay (results params)
            /\ ref_time (results params') = ref_time (results params)
            /\ ref_gflops (results params') = ref_gflops (results params))).
Proof.
  split; [done|]. unfold test_syr2k_work. simpl. split.
  - intros H1 H2 H3.
    rewrite (bool_decide_eq_false_2 _ H1), (bool_decide_eq_false_2 _ H2),
      (bool_decide_eq_false_2 _ H3). done.
  - intros params' w' log.
    destruct (bool_decide (norm params = One)) eqn:H1,
      (bool_decide (norm params = Inf)) eqn:H2,
      (bool_decide (norm params = Fro)) eqn:H3;
      flag H1; flag H2; flag H3; simpl; try done;
      unfold mbind, Outcome_bind, asserted; simpl;
      (destruct (syr2k_setup _ _ _ _ _ _ _ _ _ _ w) as [w1|]; [|done]);
      destruct (bool_decide (check params = "y"%char)) eqn:Hc,
        (bool_decide (ref params = "y"%char)) eqn:Hy;
      flag Hc; flag Hy; simpl;
      repeat block; try done; intros [= <- <- <-]; simpl;
      repeat split; intros; try done; try congruence; in_log.
Qed.

End DriverProperties.

(** ** Runs of the drivers in a small environment *)

(** Integers for the floating-point values, a counter of the blocks
    gone through for the state of the process; no assertion fails. *)
Definition toy_environment : Environment := {|
  real := Z; scalar := Z; World := Z;
  rmul := Z.mul; rdiv := Z.div; radd := Z.add; rsqrt := Z.sqrt;
  rle := Z.leb; rne0 := fun x => negb (x =? 0);
  of_int := fun z => z; half := 1; epsilon := fun _ => 1;
  sabs := Z.abs;
  getrf_setup := fun _ _ _ _ _ _ w => Some (w + 1);
  getrf_copy_ref := fun _ w => Some (w + 1);
  gflop_getrf := fun _ m n => m * n;
  timed_slate_getrf := fun _ _ _ _ _ _ w => (w + 1, 2);
  getrs_and_norms := fun _ _ _ _ _ w => Some (w + 1, (3, 5, 30));
  timed_scalapack_pgetrf := fun _ _ _ w => Some (w + 1, 4);
  getrf_difference_norms := fun _ w => (w + 1, (0, 7));
  restore_blas_threads := fun w => w + 1;
  gemm_setup := fun _ _ _ _ _ w => Some (w + 1);
  gemm_copy_ref := fun _ w => Some (w + 1);
  timed_slate_gemm := fun _ _ _ w => (w + 1, 2);
  gflop_gemm := fun _ m n k => m * n * k;
  reference_gemm := fun _ w => (w + 1, (4, 5, 30));
  syr2k_setup := fun _ _ _ _ _ _ _ _ _ _ w => Some (w + 1);
  syr2k_copy_ref := fun _ w => Some (w + 1);
  syr2k_views := fun _ _ _ w => Some (w + 1);
  timed_slate_syr2k := fun _ _ _ _ _ _ w => (w + 1, 2);
  gflop_syr2k := fun _ m n => m * n;
  reference_syr2k := fun _ w => (w + 1, (1, 1, 1, 4, 12))
|}.

(** Parameters of an [m]-by-4 problem in [double], with [error = 99]
    and [okay = false] left by an earlier run. *)
Definition toy_params (m : Z) (check_ ref_ : ascii) : Params :=
  @mkParams toy_environment Double m 4 2 1 1 2 1 1 1 One Lower NoTrans 1 1
    check_ ref_ "n"%char "t"%char 10
    (@mkResults toy_environment 0 0 0 0 99 false).

Definition toy_results (o : Outcome (@Run toy_environment))
    : option (Z * bool * list Step) :=
  match o with
  | Returned (params', _, log) =>
      Some (@error toy_environment (results params'),
            okay (results params'), log)
  | _ => None
  end.

(** A checked square factorization, a checked rectangular one, and a
    run of the reference alone. *)
Example toy_test_getrf :
  toy_results (test_getrf (E := toy_environment) (toy_params 4 "y" "n") true 0)
  = Some (0, true, [step_setup; step_copy_ref; step_slate; step_solve])
  /\ toy_results
       (test_getrf (E := toy_environment) (toy_params 5 "y" "n") true 0)
     = Some (7, true, [step_setup; step_copy_ref; step_slate;
                        step_reference; step_compare])
  /\ toy_results
       (test_getrf (E := toy_environment) (toy_params 4 "y" "o") true 0)
     = Some (99, false, [step_setup; step_copy_ref; step_reference]).
Proof. vm_compute. done. Qed.

(** Without [check] and [ref], [test_gemm] judges the error of the
    earlier run. *)
Example toy_test_gemm :
  toy_results (test_gemm (E := toy_environment) (toy_params 4 "n" "n") true 0)
  = Some (99, false, [step_setup; step_slate])
  /\ toy_results
       (test_gemm (E := toy_environment) (toy_params 4 "n" "y") true 0)
     = Some (6, true, [step_setup; step_copy_ref; step_slate;
                       step_reference; step_compare]).
Proof. vm_compute. done. Qed.

Lemma test_getrf_work_checks_witness :
  exists params' w' log,
    test_getrf_work (E := toy_environment) Double (toy_params 5 "y" "n") true 0
    = Returned (params', w', log)
    /\ step_slate ∈ log /\ step_compare ∈ log.
Proof.
  assert (Hrun : exists params' w' log,
    test_getrf_work (E := toy_environment) Double (toy_params 5 "y" "n") true 0
    = Returned (params', w', log)).
  { vm_compute. by eexists _, _, _. }
  destruct Hrun as (params' & w' & log & Hrun).
  exists params', w', log. split; [exact Hrun|].
  destruct (test_getrf_work_checks (E := toy_environment) Double
              (toy_params 5 "y" "n") 0 params' w' log Hrun)
    as (_ & _ & _ & _ & Hchecked & _).
  assert (Hc : @check toy_environment (toy_params 5 "y" "n") = "y"%char
               /\ @ref toy_environment (toy_params 5 "y" "n") ≠ "o"%char).
  { split; [reflexivity|discriminate]. }
  destruct (Hchecked Hc) as (Hslate & _ & _ & Hcompare).
  split; [exact Hslate|]. apply Hcompare. simpl. lia.
Defined.

End Tester.
